(** * The tess ticket runner ([scripts/run-tickets.mjs])

    A shallow embedding of the runner: ticket discovery and ordering, the
    command line, the Claude line normalizer, the process supervisor and
    the sequential driver, followed by the properties of the specification
    that are checked against them.

    Conventions of the model.
    - A JavaScript string is a [string] whose characters are code units
      below 256; file names, stage names and command-line words are of
      that kind.  A chunk of output of a child process is a [string] too,
      of the bytes of the [Buffer]; the host turns it into text
      ([Buffer_toString]).
    - A JavaScript number that is compared or subtracted is a [Z]; the
      one place where the code can produce [NaN] ([parseInt]) has the
      type [jsnum].  [parseInt] of a digit string is taken exactly, as it
      is for every value below 2^53.
    - Paths are POSIX paths.
    - Time is counted in milliseconds; a timeout is the time at which its
      callback is due, and the events of a child process arrive as a list
      in the order the event loop delivers them.
    - Console output is kept by kind of message, not by wording; the
      back-pressure of the log stream is left out.  Creating the logs
      directory and writing a log or instruction file are taken to
      succeed. *)

From Stdlib Require Import ZArith Ascii String List Sorted Permutation Lia Bool.
From Stdlib Require Import PrimFloat.
From stdpp Require Import base option list gmap strings sorting.

Import ListNotations.
Set Warnings "-register-all".
Local Open Scope string_scope.
Local Open Scope Z_scope.
Local Open Scope list_scope.

(* ------------------------------------------------------------------ *)
(** ** JavaScript values used by the runner *)

Module Js.

(** A number that may be [NaN]. *)
Inductive jsnum : Type :=
| Num (z : Z)
| NaN.

(** [a < b] on numbers: every comparison with [NaN] is false. *)
Definition lt (a b : jsnum) : bool :=
  match a, b with
  | Num x, Num y => x <? y
  | _, _ => false
  end.

(** [x ?? d] *)
Definition nullish {A : Type} (x : option A) (d : A) : A :=
  match x with
  | Some v => v
  | None => d
  end.

(** White space removed by [String.prototype.trim] and skipped by
    [parseInt], restricted to code units below 256: TAB, LF, VT, FF, CR,
    SPACE and NBSP. *)
Definition is_space (c : ascii) : bool :=
  let n := nat_of_ascii c in
  ((9 <=? n) && (n <=? 13) || (n =? 32) || (n =? 160))%nat.

Definition is_digit (c : ascii) : bool :=
  let n := nat_of_ascii c in
  ((48 <=? n) && (n <=? 57))%nat.

Fixpoint trimStart (s : string) : string :=
  match s with
  | String c r => if is_space c then trimStart r else s
  | EmptyString => EmptyString
  end.

Definition trimEnd (s : string) : string :=
  String.rev (trimStart (String.rev s)).

Definition trim (s : string) : string := trimEnd (trimStart s).

(** The longest prefix of decimal digits, and what follows it. *)
Fixpoint span_digits (s : string) : string * string :=
  match s with
  | String c r =>
      if is_digit c
      then let '(d, t) := span_digits r in (String c d, t)
      else (EmptyString, s)
  | EmptyString => (EmptyString, EmptyString)
  end.

Definition digit_value (c : ascii) : Z := Z.of_nat (nat_of_ascii c) - 48.

Fixpoint decimal_from (acc : Z) (s : string) : Z :=
  match s with
  | String c r => decimal_from (10 * acc + digit_value c) r
  | EmptyString => acc
  end.

(** Value of a digit string read in base 10. *)
Definition decimal (s : string) : Z := decimal_from 0 s.

(** [parseInt(s, 10)]: leading white space, an optional sign, then the
    longest run of digits; [NaN] when there is no digit. *)
Definition parseInt (s : string) : jsnum :=
  let s1 := trimStart s in
  let '(neg, s2) :=
    match s1 with
    | String "-" r => (true, r)
    | String "+" r => (false, r)
    | _ => (false, s1)
    end in
  match span_digits s2 with
  | (String c d, _) =>
      let v := decimal (String c d) in
      Num (if neg then - v else v)
  | (EmptyString, _) => NaN
  end.

(** [parseInt(x, 10)] where [x] may be [undefined] (an index past the end
    of [argv]): the argument is first converted to the string
    ["undefined"], which has no digit. *)
Definition parseInt_opt (x : option string) : jsnum :=
  match x with
  | Some s => parseInt s
  | None => NaN
  end.

(** [s.endsWith(suffix)] *)
Definition endsWith (s suffix : string) : bool :=
  let n := String.length s in
  let m := String.length suffix in
  (m <=? n)%nat && String.eqb (substring (n - m) m s) suffix.

(** [s.split(sep)] for a one-character separator: the pieces between the
    separators, never an empty list. *)
Fixpoint split (sep : ascii) (s : string) : list string :=
  match s with
  | EmptyString => [EmptyString]
  | String c r =>
      if Ascii.eqb c sep
      then EmptyString :: split sep r
      else match split sep r with
           | p :: ps => String c p :: ps
           | [] => [String c EmptyString]
           end
  end.

(** [s.includes(c)] for one character. *)
Fixpoint includes (c : ascii) (s : string) : bool :=
  match s with
  | EmptyString => false
  | String d r => Ascii.eqb d c || includes c r
  end.

(** [Array.prototype.sort(cmp)].  ECMAScript requires the sort to be
    stable; for a comparator that is a consistent ordering the result is
    the one stably sorted arrangement, computed here by insertion from
    the right.  [cmp a b <= 0] keeps [a] before [b]. *)
Section Sort.
Context {A : Type} (cmp : A → A → Z).

Fixpoint sort_insert (x : A) (l : list A) : list A :=
  match l with
  | [] => [x]
  | y :: l' => if cmp x y <=? 0 then x :: y :: l' else y :: sort_insert x l'
  end.

Definition array_sort (l : list A) : list A := foldr sort_insert [] l.
End Sort.

End Js.

(* ------------------------------------------------------------------ *)
(** ** Paths ([node:path], POSIX) *)

Module Path.

(** [join(a, b)] for an already normalized directory [a] and a single
    path segment [b]. *)
Definition join (a b : string) : string := a +:+ "/" +:+ b.

Fixpoint drop_slashes (l : list ascii) : list ascii :=
  match l with
  | "/"%char :: r => drop_slashes r
  | _ => l
  end.

Fixpoint until_slash (l : list ascii) : list ascii :=
  match l with
  | [] => []
  | c :: r => if Ascii.eqb c "/" then [] else c :: until_slash r
  end.

(** [basename(p)]: trailing slashes are dropped, then the last segment is
    returned. *)
Definition basename (p : string) : string :=
  string_of_list_ascii
    (rev (until_slash (drop_slashes (rev (list_ascii_of_string p))))).

End Path.

(* ------------------------------------------------------------------ *)
(** ** Ticket discovery *)

(** The part of the file system the runner reads: for each readable
    directory, the names [readdir] returns, in the order it returns
    them.  A directory that is absent from the map cannot be accessed. *)
Abbreviation FS := (gmap string (list string)).

Record Ticket : Type := mkTicket {
  file : string;
  path : string;
  stage : string;
  priority : Z;
}.

Global Instance Ticket_eq_dec : EqDecision Ticket.
Proof. solve_decision. Defined.

(** Stages from which to pull tickets. *)
Definition PENDING_STAGES : list string := ["fix"; "review"; "implement"; "plan"].

(** Map from stage to next stage in the pipeline (for prompt context). *)
Definition NEXT_STAGE (s : string) : option string :=
  if String.eqb s "fix" then Some "implement"
  else if String.eqb s "plan" then Some "implement"
  else if String.eqb s "implement" then Some "review"
  else if String.eqb s "review" then Some "complete"
  else None.

(** [PRIORITY_PREFIX = /^(\d+)-/]: [exec] returns the captured digits.
    The digits are matched greedily and the character after them must be
    the dash; giving digits back cannot help, the next character would be
    a digit. *)
Definition PRIORITY_PREFIX_exec (s : string) : option string :=
  match Js.span_digits s with
  | (String c d, String "-" _) => Some (String c d)
  | _ => None
  end.

Definition PRIORITY_PREFIX_test (s : string) : bool :=
  match PRIORITY_PREFIX_exec s with
  | Some _ => true
  | None => false
  end.

(** Parse priority number from a file name; 0 if unparseable. *)
Definition parsePriority (filename : string) : Z :=
  match PRIORITY_PREFIX_exec (Path.basename filename) with
  | Some digits => Js.decimal digits
  | None => 0
  end.

(** One turn of the loop over the directory entries: [None] is
    [continue], [Some t] is [tickets.push(t)]. *)
Definition discover_entry (stageDir stage : string) (minPriority : Js.jsnum)
    (entry : string) : option Ticket :=
  if negb (Js.endsWith entry ".md") || negb (PRIORITY_PREFIX_test entry) then None
  else
    let priority := parsePriority entry in
    if Js.lt (Js.Num priority) minPriority then None
    else Some {| file := entry;
                 path := Path.join stageDir entry;
                 stage := stage;
                 priority := priority |}.

(** Candidates of a stage in the order [readdir] lists them, before the
    sort. *)
Definition stage_candidates (fs : FS) (ticketsDir stage : string)
    (minPriority : Js.jsnum) : list Ticket :=
  let stageDir := Path.join ticketsDir stage in
  match fs !! stageDir with
  | None => []
  | Some entries => omap (discover_entry stageDir stage minPriority) entries
  end.

Definition by_priority_desc (a b : Ticket) : Z := priority b - priority a.

(** Discover all .md ticket files in a stage folder, filtered by min
    priority. *)
Definition discoverTickets (fs : FS) (ticketsDir stage : string)
    (minPriority : Js.jsnum) : list Ticket :=
  Js.array_sort by_priority_desc (stage_candidates fs ticketsDir stage minPriority).

(* ------------------------------------------------------------------ *)
(** ** Command line *)

(** One entry of the stage selection: [{ stage, minPriority }]. *)
Module Sel.
Record t : Type := mk { stage : string; minPriority : Js.jsnum }.
End Sel.

(** Parse the [--stages] value into an ordered list of selections.  Bare
    stage names use the global [defaultMin]. *)
Definition parseStages (raw : string) (defaultMin : Js.jsnum) : list Sel.t :=
  map (fun token =>
         match Js.split ":" (Js.trim token) with
         | stage :: pStr :: _ => Sel.mk stage (Js.parseInt pStr)
         | stage :: [] => Sel.mk stage defaultMin
         | [] => Sel.mk EmptyString defaultMin
         end)
      (Js.split "," raw).

(** [array.join(',')] *)
Fixpoint join_comma (l : list string) : string :=
  match l with
  | [] => EmptyString
  | [x] => x
  | x :: r => x +:+ "," +:+ join_comma r
  end.

(** The options object the argument loop fills in.  [agent] and
    [stagesRaw] are [None] when they hold [undefined] or [null]. *)
Module Opts.
Record t : Type := mk {
  minPriority : Js.jsnum;
  agent : option string;
  dryRun : bool;
  stagesRaw : option string;
}.

Definition initial : t :=
  {| minPriority := Js.Num 3; agent := Some "claude"; dryRun := false; stagesRaw := None |}.

Definition set_minPriority (v : Js.jsnum) (o : t) : t :=
  {| minPriority := v; agent := agent o; dryRun := dryRun o; stagesRaw := stagesRaw o |}.
Definition set_agent (v : option string) (o : t) : t :=
  {| minPriority := minPriority o; agent := v; dryRun := dryRun o; stagesRaw := stagesRaw o |}.
Definition set_dryRun (o : t) : t :=
  {| minPriority := minPriority o; agent := agent o; dryRun := true; stagesRaw := stagesRaw o |}.
Definition set_stagesRaw (v : option string) (o : t) : t :=
  {| minPriority := minPriority o; agent := agent o; dryRun := dryRun o; stagesRaw := v |}.
End Opts.

(** What the runner prints, by kind; the wording is not modelled. *)
Inductive message : Type :=
| MsgHelp
| MsgUnknownStage (stage : string)
| MsgUnknownAgent (agent : option string)
| MsgNoTickets
| MsgDryRun (version : string) (tickets : list Ticket)
| MsgSnapshotted (version : string) (count : nat)
| MsgTicketBanner (index : nat) (ticket : Ticket)
| MsgAgentFailed (code : Z) (ticket : Ticket)
| MsgComplete (index : nat) (ticket : Ticket)
| MsgDone (count : nat)
| MsgRunnerFailed
| MsgAgentText (text : string)
| MsgAgentStderr (chunk : string)
| MsgIdleKill
| MsgStaleKill
| MsgSpawnFailed
| MsgGitStderr (text : string).

(** The argument loop.  An option that takes a value reads [argv[++i]];
    when the option is the last word that value is [undefined] and the
    loop is over.  [inr tt] is [--help]: the help is printed and the
    process exits. *)
Fixpoint parse_loop (opts : Opts.t) (argv : list string) : Opts.t + unit :=
  match argv with
  | [] => inl opts
  | arg :: rest =>
      if String.eqb arg "--min-priority" then
        match rest with
        | v :: rest' => parse_loop (Opts.set_minPriority (Js.parseInt v) opts) rest'
        | [] => inl (Opts.set_minPriority (Js.parseInt_opt None) opts)
        end
      else if String.eqb arg "--agent" then
        match rest with
        | v :: rest' => parse_loop (Opts.set_agent (Some v) opts) rest'
        | [] => inl (Opts.set_agent None opts)
        end
      else if String.eqb arg "--dry-run" then
        parse_loop (Opts.set_dryRun opts) rest
      else if String.eqb arg "--stages" then
        match rest with
        | v :: rest' => parse_loop (Opts.set_stagesRaw (Some v) opts) rest'
        | [] => inl (Opts.set_stagesRaw None opts)
        end
      else if String.eqb arg "--help" then inr tt
      else parse_loop opts rest
  end.

Definition is_pending_stage (s : string) : bool :=
  existsb (String.eqb s) PENDING_STAGES.

(** The first selected stage that is not in [PENDING_STAGES], if any. *)
Definition first_unknown_stage (stages : list Sel.t) : option string :=
  Sel.stage <$> List.find (fun s => negb (is_pending_stage (Sel.stage s))) stages.

(** Result of [parseArgs]: the options with the parsed stages
    ([{ ...opts, stages }]), or an exit of the process with what was
    printed before it. *)
Inductive parsed : Type :=
| Parsed (opts : Opts.t) (stages : list Sel.t)
| ParseExit (code : Z) (out err : list message).

Definition parseArgs (argv : list string) : parsed :=
  match parse_loop Opts.initial argv with
  | inr tt => ParseExit 0 [MsgHelp] []
  | inl opts =>
      let stagesRaw := Js.nullish (Opts.stagesRaw opts) (join_comma PENDING_STAGES) in
      let stages := parseStages stagesRaw (Opts.minPriority opts) in
      match first_unknown_stage stages with
      | Some stage => ParseExit 1 [] [MsgUnknownStage stage]
      | None => Parsed opts stages
      end
  end.

(* ------------------------------------------------------------------ *)
(** ** Snapshot and run order *)

(** [allTickets] after the discovery loop: the tickets of each selected
    stage, appended in the order of the selection. *)
Definition snapshot (fs : FS) (ticketsDir : string) (stages : list Sel.t) : list Ticket :=
  flat_map (fun s => discoverTickets fs ticketsDir (Sel.stage s) (Sel.minPriority s)) stages.

(** [new Map(stages.map(({ stage }, i) => [stage, i]))]: the entries are
    set one after the other, so a stage named twice keeps its last
    index. *)
Fixpoint stageOrder_from (i : nat) (stages : list Sel.t) (m : gmap string nat)
  : gmap string nat :=
  match stages with
  | [] => m
  | s :: r => stageOrder_from (S i) r (<[Sel.stage s := i]> m)
  end.

Definition stageOrder (stages : list Sel.t) : gmap string nat :=
  stageOrder_from 0 stages ∅.

(** [stageOrder.get(t.stage) ?? 999] *)
Definition stage_rank (order : gmap string nat) (t : Ticket) : Z :=
  Z.of_nat (Js.nullish (order !! stage t) 999%nat).

(** The comparator of the global sort. *)
Definition by_stage_then_priority (order : gmap string nat) (a b : Ticket) : Z :=
  let sa := stage_rank order a in
  let sb := stage_rank order b in
  if negb (sa =? sb) then sa - sb else priority b - priority a.

(** The list the driver walks: the snapshot, sorted. *)
Definition runOrder (fs : FS) (ticketsDir : string) (stages : list Sel.t) : list Ticket :=
  Js.array_sort (by_stage_then_priority (stageOrder stages)) (snapshot fs ticketsDir stages).

(* ------------------------------------------------------------------ *)
(** ** Stream events and the line normalizers *)

(** A value produced by [JSON.parse].  An object is the list of its own
    properties, each key once. *)
Inductive json : Type :=
| JNull
| JBool (b : bool)
| JNum (f : float)
| JStr (s : string)
| JArr (items : list json)
| JObj (fields : list (string * json)).

(** [obj[key]]; [None] is [undefined].  A primitive has none of the
    properties the normalizer reads. *)
Definition field (obj : json) (key : string) : option json :=
  match obj with
  | JObj fields => snd <$> List.find (fun kv => String.eqb (fst kv) key) fields
  | _ => None
  end.

(** Truthiness of a property value, as tested by [x ? a : b]. *)
Definition truthy (v : option json) : bool :=
  match v with
  | None => false
  | Some JNull => false
  | Some (JBool b) => b
  | Some (JNum f) => negb (PrimFloat.is_zero f || PrimFloat.is_nan f)
  | Some (JStr s) => negb (String.eqb s EmptyString)
  | Some (JArr _) => true
  | Some (JObj _) => true
  end.

(** [obj[key] === s] *)
Definition field_is (obj : json) (key s : string) : bool :=
  match field obj key with
  | Some (JStr t) => String.eqb t s
  | _ => false
  end.

(** Whether converting a parsed value to a primitive throws a
    [TypeError]; the conversion is made by [v / 1000] and by a template
    literal.  An object made by [JSON.parse] is converted by the
    [toString] it inherits, unless it has a property of that name of its
    own, which is never a function: then neither [toString] nor [valueOf]
    gives a primitive.  An array is converted by [join], which converts
    every element other than [null]. *)
Fixpoint to_primitive_throws (v : json) : bool :=
  match v with
  | JObj fields => existsb (fun kv => String.eqb (fst kv) "toString") fields
  | JArr items => existsb to_primitive_throws items
  | _ => false
  end.

(** Whether [v.toFixed(4)] throws for a value that is not [null] or
    [undefined]: only a number has the method. *)
Definition toFixed_throws (v : option json) : bool :=
  match v with
  | None | Some JNull | Some (JNum _) => false
  | Some _ => true
  end.

(** Whether converting a property that is not [null] or [undefined]
    throws. *)
Definition conversion_throws (v : option json) : bool :=
  match v with
  | Some x => to_primitive_throws x
  | None => false
  end.

(** The normalized unit produced while watching one agent process.
    [done] is [false] and [exitCode] is [None] where the object returned
    by the formatter has no such property. *)
Record StreamEvent : Type := mkEvent {
  text : string;
  done : bool;
  exitCode : option Z;
}.

Definition LF : ascii := "010"%char.
Definition newline : string := String LF EmptyString.

(** What the runner takes from its host: the JSON parser, the rendering
    of a recognised object as display text (number formatting and JSON
    serialisation are not modelled), the decoding of a chunk of bytes,
    and [path.relative]. *)
Class Host : Type := {
  (** [chunk.toString()] for a [Buffer]: its bytes read as UTF-8, every
      chunk by itself. *)
  Buffer_toString : string → string;
  (** [JSON.parse]; [None] when it throws. *)
  JSON_parse : string → option json;
  (** Text shown for a session banner or a result line. *)
  render : json → string;
  (** Text shown for the content blocks of an assistant or user message;
      [None] when walking the blocks throws. *)
  render_blocks : json → option string;
  (** Text [formatCursorJsonLine] returns for a line. *)
  render_cursor : string → string;
  (** [path.relative(from, to)], with slashes for separators. *)
  relative : string → string → string;
}.

(** The fall-through of both formatters: the line itself, ended by a
    line feed. *)
Definition plain_line (line : string) : StreamEvent :=
  {| text := if Js.endsWith line newline then line else line +:+ newline;
     done := false;
     exitCode := None |}.

Definition text_only (t : string) : StreamEvent :=
  {| text := t; done := false; exitCode := None |}.

Section Formatters.
Context `{Host}.

(** Format Claude stream-json lines to readable text.  An exception
    raised inside the [try] block ends in the fall-through: reading a
    property of [null] (which [field] answers like [undefined], with the
    same outcome), the conversion by the template of a [session_id] that
    cannot be converted to a primitive, walking message blocks that cannot
    be walked, and, in the result branch, [toFixed] called on a cost that
    is not a number, the division of a [duration_ms] that cannot be
    converted, and the conversion of such a [result] by the template. *)
Definition formatClaudeJsonLine (line : string) : StreamEvent :=
  match JSON_parse line with
  | None => plain_line line
  | Some obj =>
      if field_is obj "type" "system" && field_is obj "subtype" "init" then
        if conversion_throws (field obj "session_id") then plain_line line
        else text_only (render obj)
      else if field_is obj "type" "assistant" || field_is obj "type" "user" then
        match render_blocks obj with
        | Some t => text_only t
        | None => plain_line line
        end
      else if field_is obj "type" "result" then
        if toFixed_throws (field obj "total_cost_usd")
           || conversion_throws (field obj "duration_ms")
           || conversion_throws (field obj "result")
        then plain_line line
        else {| text := render obj;
                done := true;
                exitCode := Some (if truthy (field obj "is_error") then 1 else 0) |}
      else plain_line line
  end.

(** Every branch of the Cursor formatter returns a text and nothing
    else. *)
Definition formatCursorJsonLine (line : string) : StreamEvent :=
  text_only (render_cursor line).

End Formatters.

(* ------------------------------------------------------------------ *)
(** ** Agent adapters *)

(** How the agent process is started: a program with its arguments, or
    one shell command string. *)
Inductive Invocation : Type :=
| Argv (cmd : string) (args : list string)
| Shell (shellCmd : string).

Record Adapter : Type := mkAdapter {
  invocation : Invocation;
  formatStream : option (string → StreamEvent);
}.

(** What [agents[agentName]] evaluates to.  [agents] is an object
    literal, so besides its three own properties the lookup finds the
    properties of [Object.prototype]; calling one of those as an adapter
    either throws at once ([call_throws]) or returns something without
    [cmd], on which [spawn] throws. *)
Inductive agent_entry : Type :=
| Own (adapter : string → string → string → Adapter)
| Inherited (call_throws : bool)
| Missing.

Definition dquote : string := String "034"%char EmptyString.

Section Agents.
Context `{Host}.

Definition claude (instructionFile cwd stage : string) : Adapter :=
  let effort :=
    if String.eqb stage "fix" || String.eqb stage "plan" || String.eqb stage "review"
    then "high" else "medium" in
  {| invocation :=
       Argv "claude"
         ["-p"; "--dangerously-skip-permissions"; "--verbose";
          "--no-session-persistence"; "--output-format"; "stream-json";
          "--effort"; effort; "--append-system-prompt-file"; instructionFile;
          "Work the ticket as described in the appended system prompt."];
     formatStream := Some formatClaudeJsonLine |}.

Definition auggie (instructionFile cwd stage : string) : Adapter :=
  {| invocation := Argv "auggie" ["--print"; "--instruction"; instructionFile];
     formatStream := None |}.

Definition cursor (instructionFile cwd stage : string) : Adapter :=
  let relPath := relative cwd instructionFile in
  let prompt := "Read and follow all instructions in the file: " +:+ relPath in
  {| invocation :=
       Shell ("agent --print -f --trust --output-format stream-json --workspace "
              +:+ dquote +:+ cwd +:+ dquote +:+ " " +:+ dquote +:+ prompt +:+ dquote);
     formatStream := Some formatCursorJsonLine |}.

Definition agents (agentName : option string) : agent_entry :=
  match agentName with
  | None => Missing
  | Some n =>
      if String.eqb n "claude" then Own claude
      else if String.eqb n "auggie" then Own auggie
      else if String.eqb n "cursor" then Own cursor
      else if existsb (String.eqb n) ["constructor"; "toString"; "isPrototypeOf"]
      then Inherited false
      else if existsb (String.eqb n)
                ["__proto__"; "valueOf"; "hasOwnProperty"; "propertyIsEnumerable";
                 "toLocaleString"; "__defineGetter__"; "__defineSetter__";
                 "__lookupGetter__"; "__lookupSetter__"]
      then Inherited true
      else Missing
  end.

End Agents.

(* ------------------------------------------------------------------ *)
(** ** Process supervisor (the promise inside [runAgent]) *)

(** How an invocation ends for the driver that awaits it. *)
Inductive outcome : Type :=
| Resolved (code : Z)
| Rejected.

Module Sup.

Definition IDLE_TIMEOUT_MS : Z := 10 * 60 * 1000.
Definition GRACE_MS : Z := 30000.

(** The two callbacks [idleTimer] can be armed with. *)
Inductive timer_kind : Type :=
| Idle
| Grace.

(** What goes to the log stream, by kind: text of the agent's standard
    output as [writeOut] receives it, a chunk of its standard error, and
    the notes of the runner. *)
Inductive log_item : Type :=
| Text (t : string)
| ErrText (chunk : string)
| IdleKillNote
| StaleKillNote
| ExitTrailer (code : Z)
| SpawnErrorNote.

(** The variables of the promise executor.  [idleTimer] is the pending
    timeout, if any: its callback and the time at which it is due.
    [kills] counts the calls of [child.kill()].  [promise] is the
    settlement of the promise; a promise settles once. *)
Record state : Type := mk {
  buf : string;
  resultExitCode : option Z;
  idleTimer : option (timer_kind * Z);
  settled : bool;
  promise : option outcome;
  kills : nat;
  log : list log_item;
}.

(** What the event loop delivers to the executor's handlers, with the
    time of delivery in milliseconds.  A chunk is the bytes of the
    [Buffer] received. *)
Inductive event : Type :=
| StdoutData (now : Z) (chunk : string)
| StderrData (now : Z) (chunk : string)
| TimerDue (now : Z)
| Close (now : Z) (code : option Z)
| SpawnError (now : Z).

Definition set_timer (t : option (timer_kind * Z)) (s : state) : state :=
  mk (buf s) (resultExitCode s) t (settled s) (promise s) (kills s) (log s).
Definition set_buf (b : string) (s : state) : state :=
  mk b (resultExitCode s) (idleTimer s) (settled s) (promise s) (kills s) (log s).
Definition set_result (c : option Z) (s : state) : state :=
  mk (buf s) c (idleTimer s) (settled s) (promise s) (kills s) (log s).
Definition write (i : log_item) (s : state) : state :=
  mk (buf s) (resultExitCode s) (idleTimer s) (settled s) (promise s) (kills s) (log s ++ [i]).
Definition kill (s : state) : state :=
  mk (buf s) (resultExitCode s) (idleTimer s) (settled s) (promise s) (S (kills s)) (log s).
(** [resolve] and [reject] have no effect on a settled promise. *)
Definition settle_promise (o : outcome) (s : state) : state :=
  mk (buf s) (resultExitCode s) (idleTimer s) (settled s)
     (match promise s with Some p => Some p | None => Some o end) (kills s) (log s).
Definition mark_settled (s : state) : state :=
  mk (buf s) (resultExitCode s) (idleTimer s) true (promise s) (kills s) (log s).

(** [settle(code)]: the trailer is written and the promise resolves once
    the log stream has finished or failed. *)
Definition settle (code : Z) (s : state) : state :=
  if settled s then s
  else settle_promise (Resolved code)
         (write (ExitTrailer code) (set_timer None (mark_settled s))).

(** [resetIdleTimer()]: the pending timeout is cleared and the idle
    callback armed anew. *)
Definition resetIdleTimer (now : Z) (s : state) : state :=
  set_timer (Some (Idle, now + IDLE_TIMEOUT_MS)) s.

(** The state after [spawn] and the first [resetIdleTimer()]. *)
Definition init (now : Z) : state :=
  resetIdleTimer now (mk EmptyString None None false None 0%nat []).

Definition writeOut (t : string) (s : state) : state := write (Text t) s.

Section Handlers.
Context `{HostOps : Host} (formatStream : option (string → StreamEvent)).

Definition processLine (now : Z) (line : string) (s : state) : state :=
  match formatStream with
  | None => writeOut (line +:+ newline) s
  | Some fmt =>
      let result := fmt line in
      let s1 := if String.eqb (text result) EmptyString then s
                else writeOut (text result) s in
      if done result
      then set_timer (Some (Grace, now + GRACE_MS))
             (set_result (Some (Js.nullish (exitCode result) 0)) s1)
      else s1
  end.

(** [child.stdout.on('data', ...)] *)
Definition on_stdout (now : Z) (chunk : string) (s : state) : state :=
  let s1 := match resultExitCode s with
            | None => resetIdleTimer now s
            | Some _ => s
            end in
  let lines := Js.split LF (buf s1 +:+ Buffer_toString chunk) in
  let s2 := set_buf (List.last lines EmptyString) s1 in
  fold_left (fun st line => processLine now line st) (removelast lines) s2.

(** [child.stderr.on('data', ...)] *)
Definition on_stderr (now : Z) (chunk : string) (s : state) : state :=
  let s1 := match resultExitCode s with
            | None => resetIdleTimer now s
            | Some _ => s
            end in
  write (ErrText chunk) s1.

(** The pending timeout's callback, run when the timeout is due. *)
Definition on_timer (now : Z) (s : state) : state :=
  match idleTimer s with
  | Some (kind, due) =>
      if due <=? now then
        kill (write (match kind with Idle => IdleKillNote | Grace => StaleKillNote end)
                (set_timer None s))
      else s
  | None => s
  end.

(** [child.on('close', ...)]; [code] is [None] for [null]. *)
Definition on_close (now : Z) (code : option Z) (s : state) : state :=
  let s1 := if String.eqb (buf s) EmptyString then s
            else processLine now (Js.trimEnd (buf s)) s in
  settle (Js.nullish (resultExitCode s1) (Js.nullish code 1)) s1.

(** [child.on('error', ...)] *)
Definition on_error (s : state) : state :=
  settle_promise Rejected (write SpawnErrorNote s).

Definition step (s : state) (e : event) : state :=
  match e with
  | StdoutData now chunk => on_stdout now chunk s
  | StderrData now chunk => on_stderr now chunk s
  | TimerDue now => on_timer now s
  | Close now code => on_close now code s
  | SpawnError _ => on_error s
  end.

Definition run (s : state) (events : list event) : state := fold_left step events s.

(** The supervision of one child from its spawn at [started]. *)
Definition supervise (started : Z) (events : list event) : state :=
  run (init started) events.

End Handlers.
End Sup.

(* ------------------------------------------------------------------ *)
(** ** Agent invocation and the main loop *)

(** What the runner does to the outside, in order. *)
Inductive effect : Type :=
| Out (m : message)
| Err (m : message)
| Mkdir (dir : string)
| WriteFile (path : string)
| Unlink (path : string)
| Spawn (inv : Invocation)
| Kill
| Sleep (ms : Z)
| ExecSync (command : string).

(** What the supervisor does to the outside with an item it hands to the
    log stream: text of the agent goes to standard output, a chunk of
    its standard error to standard error; a kill note goes to standard
    error and is followed by [child.kill()]; a spawn error is reported
    by [console.error]; the exit trailer goes to the log only. *)
Definition console (i : Sup.log_item) : list effect :=
  match i with
  | Sup.Text t => [Out (MsgAgentText t)]
  | Sup.ErrText chunk => [Err (MsgAgentStderr chunk)]
  | Sup.IdleKillNote => [Err MsgIdleKill; Kill]
  | Sup.StaleKillNote => [Err MsgStaleKill; Kill]
  | Sup.ExitTrailer _ => []
  | Sup.SpawnErrorNote => [Err MsgSpawnFailed]
  end.

(** How the process ends: [process.exit(code)] or a return from [main]
    (code 0), or never, when an awaited promise does not settle. *)
Inductive status : Type :=
| Exit (code : Z)
| Hang.

(** What awaiting [runAgent] gives the driver: a settled promise, an exit
    of the whole process from inside [runAgent], or nothing. *)
Inductive awaited : Type :=
| Settled (o : outcome)
| Exited (code : Z)
| Never.

(** One run of an agent process on a ticket: the tickets tree it leaves
    behind, its spawn time and what its supervisor observes. *)
Record Run : Type := mkRun {
  fs_after : FS;
  started : Z;
  events : list Sup.event;
}.

(** The surroundings of one run of the runner: the working directory, the
    clock that stamps the log names, the behaviour of the agent process
    started for a ticket on a given tickets tree, and what
    [git log -1 --format=%h] does in the installation: its standard
    output when it exits with 0 ([None] when [execSync] throws) and what
    it writes to standard error, which is the runner's own. *)
Class World : Type := {
  cwd : string;
  iso_time : nat → string;
  agent_run : Ticket → FS → Run;
  git_log : option string;
  git_stderr : string;
}.

(** [s.replace(/suffix$/, repl)] for a literal suffix. *)
Definition replace_suffix (suffix repl s : string) : string :=
  if Js.endsWith s suffix
  then substring 0 (String.length s - String.length suffix) s +:+ repl
  else s.

(** Build a log file path for a ticket run; [ts] is the time stamp. *)
Definition logPath (logsDir : string) (ticket : Ticket) (ts : string) : string :=
  let name := replace_suffix ".md" EmptyString (file ticket) in
  Path.join logsDir (name +:+ "." +:+ stage ticket +:+ "." +:+ ts +:+ ".log").

Section Runner.
Context `{Host} `{World}.

(** [getTessVersion()]: the effects of the lookup and the version it
    returns. *)
Definition getTessVersion : list effect * string :=
  (ExecSync "git log -1 --format=%h"
     :: (if String.eqb git_stderr EmptyString then []
         else [Err (MsgGitStderr git_stderr)]),
   match git_log with
   | Some hash => Js.trim hash
   | None => "unknown"
   end).

(** Write prompt to a temp instruction file, spawn the agent, tee output
    to log.  The instruction file is removed in the [finally] block, which
    is reached once the promise has settled or [spawn] has thrown.  What
    the handlers write to the console and the kills they send are read
    off the log, in its order. *)
Definition runAgent (agentName : option string) (logFile stage : string) (r : Run)
  : list effect * awaited :=
  let instructionFile := replace_suffix ".log" ".prompt.md" logFile in
  match agents agentName with
  | Missing => ([Err (MsgUnknownAgent agentName)], Exited 1)
  | Inherited call_throws =>
      (WriteFile instructionFile :: (if call_throws then [] else [Unlink instructionFile]),
       Settled Rejected)
  | Own adapter =>
      let a := adapter instructionFile cwd stage in
      let final := Sup.supervise (formatStream a) (started r) (events r) in
      let during := [WriteFile instructionFile; Spawn (invocation a)]
                      ++ flat_map console (Sup.log final) in
      match Sup.promise final with
      | Some o => (during ++ [Unlink instructionFile], Settled o)
      | None => (during, Never)
      end
  end.

Definition ticketsDir : string := Path.join cwd "tickets".
Definition logsDir : string := Path.join ticketsDir ".logs".

(** Whether [buildPrompt] can read the ticket: the file is still listed in
    its stage directory.  The rules file belongs to the installation and is
    taken to be readable. *)
Definition ticket_readable (fs : FS) (ticket : Ticket) : bool :=
  bool_decide (file ticket ∈ Js.nullish (fs !! Path.join ticketsDir (stage ticket)) []).

(** The loop over [allTickets], from index [i]; [fs] is the tickets tree
    as the agents run so far have left it.  An exception in the loop body
    reaches [main().catch], which prints and exits with 1. *)
Fixpoint run_tickets (agentName : option string) (total i : nat)
    (tickets : list Ticket) (fs : FS) : list effect * status :=
  match tickets with
  | [] => ([Out (MsgDone total)], Exit 0)
  | ticket :: rest =>
      let currentLog := logPath logsDir ticket (iso_time i) in
      let before := [Out (MsgTicketBanner (S i) ticket); WriteFile currentLog] in
      if negb (ticket_readable fs ticket) then
        (before ++ [Err MsgRunnerFailed], Exit 1)
      else
        let r := agent_run ticket fs in
        let '(during, res) := runAgent agentName currentLog (stage ticket) r in
        match res with
        | Settled (Resolved exitCode) =>
            if negb (exitCode =? 0) then
              (before ++ during ++ [Err (MsgAgentFailed exitCode ticket)], Exit exitCode)
            else
              let '(after, st) := run_tickets agentName total (S i) rest (fs_after r) in
              (before ++ during ++ [Out (MsgComplete (S i) ticket)]
                 ++ (match rest with [] => [] | _ => [Sleep 500] end) ++ after,
               st)
        | Settled Rejected => (before ++ during ++ [Err MsgRunnerFailed], Exit 1)
        | Exited code => (before ++ during, Exit code)
        | Never => (before ++ during, Hang)
        end
  end.

(** [main()], on the command line [argv] and the tickets tree [fs] found
    at start. *)
Definition main (argv : list string) (fs : FS) : list effect * status :=
  match parseArgs argv with
  | ParseExit code out err => (map Out out ++ map Err err, Exit code)
  | Parsed opts stages =>
      let lookup := fst getTessVersion in
      let tessVersion := snd getTessVersion in
      let allTickets := snapshot fs ticketsDir stages in
      match allTickets with
      | [] => (lookup ++ [Out MsgNoTickets], Exit 0)
      | _ =>
          let sorted := Js.array_sort (by_stage_then_priority (stageOrder stages)) allTickets in
          if Opts.dryRun opts then (lookup ++ [Out (MsgDryRun tessVersion sorted)], Exit 0)
          else
            let '(effs, st) :=
              run_tickets (Opts.agent opts) (List.length sorted) 0 sorted fs in
            (lookup ++ Out (MsgSnapshotted tessVersion (List.length sorted))
               :: Mkdir logsDir :: effs, st)
      end
  end.

End Runner.

(** The tickets whose turn of the loop began, in order. *)
Definition attempted (effs : list effect) : list Ticket :=
  omap (fun e => match e with
                 | Out (MsgTicketBanner _ t) => Some t
                 | _ => None
                 end) effs.

(** The processes started, in order. *)
Definition spawns (effs : list effect) : list Invocation :=
  omap (fun e => match e with Spawn inv => Some inv | _ => None end) effs.

(** The files written. *)
Definition written (effs : list effect) : list string :=
  omap (fun e => match e with WriteFile p => Some p | _ => None end) effs.

(** The messages sent to standard error. *)
Definition stderr_messages (effs : list effect) : list message :=
  omap (fun e => match e with Err m => Some m | _ => None end) effs.

(* ------------------------------------------------------------------ *)
(** ** Notions the specification speaks of *)

(** The names a stage directory lists; none when it cannot be read. *)
Definition readdir (fs : FS) (dir : string) : list string :=
  Js.nullish (fs !! dir) [].

(** Discovery order: the eligible tickets stage by stage as selected,
    and inside a stage as the directory lists them. *)
Definition discovery (fs : FS) (dir : string) (stages : list Sel.t) : list Ticket :=
  flat_map (fun s => stage_candidates fs dir (Sel.stage s) (Sel.minPriority s)) stages.

(** Position of a stage in the selection, counted from [i]; for a stage
    that is named more than once, its last position. *)
Fixpoint stage_position_from (i : nat) (stages : list Sel.t) (s : string) : option nat :=
  match stages with
  | [] => None
  | x :: r =>
      match stage_position_from (S i) r s with
      | Some j => Some j
      | None => if String.eqb (Sel.stage x) s then Some i else None
      end
  end.

Definition stage_position (stages : list Sel.t) (s : string) : option nat :=
  stage_position_from 0 stages s.

(** [a] may come before [b] in the run order: an earlier stage, or the
    same stage and a priority that is not lower. *)
Definition runs_before (stages : list Sel.t) (a b : Ticket) : Prop :=
  let pa := Z.of_nat (Js.nullish (stage_position stages (stage a)) 999%nat) in
  let pb := Z.of_nat (Js.nullish (stage_position stages (stage b)) 999%nat) in
  pa < pb ∨ (pa = pb ∧ priority b ≤ priority a).

(** Tickets of stage [s] with priority [p]. *)
Definition same_class (s : string) (p : Z) (t : Ticket) : bool :=
  String.eqb (stage t) s && (priority t =? p).

(** A line on which the normalizer, if there is one, reports [done]. *)
Definition reports_done (fmt : option (string → StreamEvent)) (line : string) : bool :=
  match fmt with
  | Some f => done (f line)
  | None => false
  end.

(** A terminal result object, as the specification describes it: its
    [type] is ["result"]; it carries an error flag, an optional elapsed
    time and an optional cost, which are numbers when present, and a
    final result, which is a text when present. *)
Definition is_terminal_result (obj : json) : Prop :=
  field_is obj "type" "result" = true
  ∧ match field obj "total_cost_usd" with
    | None | Some JNull | Some (JNum _) => True
    | Some _ => False
    end
  ∧ match field obj "duration_ms" with
    | None | Some JNull | Some (JNum _) => True
    | Some _ => False
    end
  ∧ match field obj "result" with
    | None | Some JNull | Some (JStr _) => True
    | Some _ => False
    end.

(** The error flag of a result object. *)
Definition error_flag (obj : json) : bool := truthy (field obj "is_error").

(** An object of type ["result"] whose result line can be built: the cost
    is a number when there is one, and the elapsed time and the result
    can be converted to a primitive. *)
Definition renders_as_result (obj : json) : bool :=
  field_is obj "type" "result"
  && negb (toFixed_throws (field obj "total_cost_usd"))
  && negb (conversion_throws (field obj "duration_ms"))
  && negb (conversion_throws (field obj "result")).

Section Batch.
Context `{Host} `{World}.

(** The code with which the invocation for [ticket], the [i]-th of the
    run, resolves on the tickets tree [fs]; [None] when it does not
    resolve (the prompt cannot be built, the promise is rejected or stays
    pending, or the process exits inside [runAgent]). *)
Definition resolved_code (agentName : option string) (i : nat) (ticket : Ticket) (fs : FS)
  : option Z :=
  if ticket_readable fs ticket then
    match snd (runAgent agentName (logPath logsDir ticket (iso_time i))
                 (stage ticket) (agent_run ticket fs)) with
    | Settled (Resolved c) => Some c
    | _ => None
    end
  else None.

(** The tickets tree after the agents of the first [k] tickets have
    run. *)
Fixpoint tree_before (tickets : list Ticket) (fs : FS) (k : nat) : FS :=
  match k, tickets with
  | S k', t :: r => tree_before r (fs_after (agent_run t fs)) k'
  | _, _ => fs
  end.

End Batch.

(** The six pairs of [PENDING_STAGES] in which the first stage is listed
    before the second. *)
Definition default_precedence : list (string * string) :=
  [("fix", "review"); ("fix", "implement"); ("fix", "plan");
   ("review", "implement"); ("review", "plan"); ("implement", "plan")].

(* ------------------------------------------------------------------ *)
(** ** Sample inputs *)

Module Sample.

(** The stage order [fix, implement] with the default threshold, as
    [--stages fix,implement] gives it. *)
Definition stages : list Sel.t := parseStages "fix,implement" (Js.Num 3).

(** The tickets [fix/5-a.md], [implement/5-b.md] and [fix/3-c.md], with
    the [fix] directory listed in either order. *)
Definition tree : FS :=
  {[ "tickets/fix" := ["5-a.md"; "3-c.md"]; "tickets/implement" := ["5-b.md"] ]}.

Definition tree_listed_backwards : FS :=
  {[ "tickets/fix" := ["3-c.md"; "5-a.md"]; "tickets/implement" := ["5-b.md"] ]}.

(** A [fix] directory that also holds a ticket of priority 1. *)
Definition tree_with_low : FS :=
  {[ "tickets/fix" := ["1-low.md"; "5-a.md"] ]}.

(** A [fix] directory with two tickets of priority 12 and 3, one of
    priority 1, and entries that are no tickets. *)
Definition tree_mixed : FS :=
  {[ "tickets/fix" :=
       ["3-c.md"; "notes.md"; "7-x.txt"; "12-big.md"; "x-9.md"; "1-low.md"; "-4.md"] ]}.

(** The line of a terminal result with the given error flag, as the
    Claude CLI prints it. *)
Definition result_line (is_error : bool) : string :=
  "{" +:+ dquote +:+ "type" +:+ dquote +:+ ":" +:+ dquote +:+ "result" +:+ dquote
  +:+ "," +:+ dquote +:+ "is_error" +:+ dquote +:+ ":"
  +:+ (if is_error then "true" else "false") +:+ "}".

Definition result_object (is_error : bool) : json :=
  JObj [("type", JStr "result"); ("is_error", JBool is_error)].

(** A host whose parser reads the two result lines as [JSON.parse] does
    and takes no other line for JSON, and whose decoder reads every byte
    as one character, as UTF-8 is read where all bytes are ASCII. *)
Definition host : Host :=
  {| JSON_parse := λ line,
       if String.eqb line (result_line false) then Some (result_object false)
       else if String.eqb line (result_line true) then Some (result_object true)
       else None;
     Buffer_toString := λ bytes, bytes;
     render := λ _, "[RESULT]";
     render_blocks := λ _, Some EmptyString;
     render_cursor := λ line, line;
     relative := λ _ to, to |}.

(** A repository with two [fix] tickets and one [implement] ticket. *)
Definition repo_tree : FS :=
  {[ "/repo/tickets/fix" := ["5-a.md"; "3-c.md"];
     "/repo/tickets/implement" := ["5-b.md"] ]}.

(** A repository without tickets. *)
Definition empty_tree : FS := {[ "/repo/tickets/fix" := [] ]}.

(** Agents that write the next-stage ticket into [implement], print a
    terminal result and exit with 0; the result reports an error for the
    ticket [3-c.md] and success for every other one.  The version lookup
    succeeds without a word on standard error. *)
Definition world : World :=
  {| cwd := "/repo";
     iso_time := λ _, "2026-01-01T00-00-00-000Z";
     agent_run := λ t fs,
       {| fs_after :=
            <["/repo/tickets/implement" :=
                readdir fs "/repo/tickets/implement" ++ [file t]]> fs;
          started := 0;
          events :=
            [Sup.StdoutData 1000 (result_line (String.eqb (file t) "3-c.md") +:+ newline);
             Sup.Close 2000 (Some 0)] |};
     git_log := Some ("0a1b2c3" +:+ newline);
     git_stderr := EmptyString |}.

End Sample.

(* ------------------------------------------------------------------ *)
(** ** Further notions *)

(** The directories created. *)
Definition mkdirs (effs : list effect) : list string :=
  omap (fun e => match e with Mkdir d => Some d | _ => None end) effs.

(** The files removed. *)
Definition unlinked (effs : list effect) : list string :=
  omap (fun e => match e with Unlink p => Some p | _ => None end) effs.

(** Number of exit trailers written to a log. *)
Fixpoint trailers (log : list Sup.log_item) : nat :=
  match log with
  | [] => 0%nat
  | Sup.ExitTrailer _ :: r => S (trailers r)
  | _ :: r => trailers r
  end.

(** The text of the agent's standard output written to a log, in
    order. *)
Fixpoint log_text (log : list Sup.log_item) : string :=
  match log with
  | [] => EmptyString
  | Sup.Text t :: r => t +:+ log_text r
  | _ :: r => log_text r
  end.

(** The stdout events of a child that prints the given chunks at the
    given times, and the bytes they carry. *)
Definition stdout_events (chunks : list (Z * string)) : list Sup.event :=
  map (fun c => Sup.StdoutData (fst c) (snd c)) chunks.

Fixpoint stdout_bytes (chunks : list (Z * string)) : string :=
  match chunks with
  | [] => EmptyString
  | c :: r => snd c +:+ stdout_bytes r
  end.

Definition is_close (e : Sup.event) : bool :=
  match e with
  | Sup.Close _ _ => true
  | _ => false
  end.

(** A trace in which the timer never comes due 10 minutes or more after
    the last output ([last] is the time of the last output, or of the
    spawn). *)
Fixpoint never_silent (last : Z) (events : list Sup.event) : bool :=
  match events with
  | [] => true
  | Sup.StdoutData now _ :: r => never_silent now r
  | Sup.StderrData now _ :: r => never_silent now r
  | Sup.TimerDue now :: r => (now <? last + Sup.IDLE_TIMEOUT_MS) && never_silent last r
  | Sup.Close _ _ :: r => never_silent last r
  | Sup.SpawnError _ :: r => never_silent last r
  end.

(** The text of complete lines, each followed by the separator. *)
Fixpoint lines_text (sep : ascii) (pieces : list string) : string :=
  match pieces with
  | [] => EmptyString
  | p :: ps => p +:+ String sep (lines_text sep ps)
  end.

(** An entry the discovery loop keeps for the threshold [minPriority]. *)
Definition eligible (minPriority : Js.jsnum) (entry : string) : bool :=
  Js.endsWith entry ".md" && PRIORITY_PREFIX_test entry
  && negb (Js.lt (Js.Num (parsePriority entry)) minPriority).

(** The Running state: no terminal result so far and no grace timer
    armed. *)
Definition running (s : Sup.state) : Prop :=
  Sup.resultExitCode s = None
  ∧ (Sup.idleTimer s = None ∨ ∃ due, Sup.idleTimer s = Some (Sup.Idle, due)).

(** The three names [agents] defines. *)
Definition known_agents : list (option string) :=
  [Some "claude"; Some "auggie"; Some "cursor"].

(** The arguments the [switch] of [parseArgs] has a case for. *)
Definition option_names : list string :=
  ["--min-priority"; "--agent"; "--dry-run"; "--stages"; "--help"].

(** A string of decimal digits. *)
Fixpoint all_digits (s : string) : bool :=
  match s with
  | EmptyString => true
  | String c r => Js.is_digit c && all_digits r
  end.

(** The lines [processLine] is called with when an event arrives while
    the line buffer holds [held], and the text the buffer holds
    afterwards.  A chunk of standard output completes the lines that end
    in it; a close flushes the held text, trimmed at its end, when there
    is some, and leaves the buffer as it is. *)
Definition lines_of `{Host} (held : string) (e : Sup.event) : list string * string :=
  match e with
  | Sup.StdoutData _ chunk =>
      let pieces := Js.split LF (held +:+ Buffer_toString chunk) in
      (removelast pieces, List.last pieces EmptyString)
  | Sup.Close _ _ =>
      (if String.eqb held EmptyString then [] else [Js.trimEnd held], held)
  | _ => ([], held)
  end.

(** The lines [processLine] is called with over a sequence of events. *)
Fixpoint lines_seen `{Host} (held : string) (events : list Sup.event) : list string :=
  match events with
  | [] => []
  | e :: r => fst (lines_of held e) ++ lines_seen (snd (lines_of held e)) r
  end.

(** No timer event of the sequence comes at or after [due]. *)
Fixpoint timers_before (due : Z) (events : list Sup.event) : bool :=
  match events with
  | [] => true
  | Sup.TimerDue now :: r => (now <? due) && timers_before due r
  | _ :: r => timers_before due r
  end.

(** The text of the chunks, each decoded by itself. *)
Fixpoint stdout_text `{Host} (chunks : list (Z * string)) : string :=
  match chunks with
  | [] => EmptyString
  | c :: r => Buffer_toString (snd c) +:+ stdout_text r
  end.

(** Two states of the supervisor that differ at most in the pending
    timeout. *)
Definition same_but_timer (s s' : Sup.state) : Prop :=
  Sup.set_timer None s = Sup.set_timer None s'.

(** The messages with which the driver itself reports a failure. *)
Definition failure_report (m : message) : bool :=
  match m with
  | MsgUnknownStage _ | MsgUnknownAgent _ | MsgAgentFailed _ _ | MsgRunnerFailed => true
  | _ => false
  end.

(** The commands run by [execSync]. *)
Definition execs (effs : list effect) : list string :=
  omap (fun e => match e with ExecSync c => Some c | _ => None end) effs.

(* ------------------------------------------------------------------ *)
(** ** Facts about the stable sort *)

Section SortFacts.
Context {A : Type} (cmp : A → A → Z).

Lemma sort_insert_perm (x : A) (l : list A) : Js.sort_insert cmp x l ≡ₚ x :: l.
Proof.
  induction l as [|y l IH]; simpl; [done|].
  destruct (cmp x y <=? 0); [done|].
  rewrite IH. apply Permutation_swap.
Qed.

Lemma array_sort_perm (l : list A) : Js.array_sort cmp l ≡ₚ l.
Proof.
  induction l as [|x l IH]; simpl; [done|].
  unfold Js.array_sort in *. rewrite sort_insert_perm. by rewrite IH.
Qed.

Lemma array_sort_elem_of (x : A) (l : list A) : x ∈ Js.array_sort cmp l ↔ x ∈ l.
Proof. by rewrite array_sort_perm. Qed.

Section Ordered.
Hypothesis cmp_total : ∀ a b, 0 < cmp a b → cmp b a ≤ 0.
Hypothesis cmp_trans : ∀ a b c, cmp a b ≤ 0 → cmp b c ≤ 0 → cmp a c ≤ 0.

Lemma sort_insert_sorted (x : A) (l : list A) :
  StronglySorted (λ a b, cmp a b ≤ 0) l →
  StronglySorted (λ a b, cmp a b ≤ 0) (Js.sort_insert cmp x l).
Proof.
  induction 1 as [|y l Hl IH Hy]; simpl.
  - repeat constructor.
  - destruct (Z.leb_spec (cmp x y) 0) as [Hle|Hgt].
    + constructor; [by constructor|].
      constructor; [done|].
      eapply Forall_impl; [exact Hy|]. intros z Hz. by eapply cmp_trans.
    + constructor; [done|].
      rewrite sort_insert_perm. constructor; [|done].
      by apply cmp_total.
Qed.

Lemma array_sort_sorted (l : list A) :
  StronglySorted (λ a b, cmp a b ≤ 0) (Js.array_sort cmp l).
Proof.
  induction l as [|x l IH]; simpl; [constructor|].
  by apply sort_insert_sorted.
Qed.
End Ordered.

(** Stability: elements that the comparator does not separate keep their
    relative order. *)
Lemma sort_insert_filter (P : A → bool) (x : A) (l : list A) :
  (∀ a b, P a = true → P b = true → cmp a b ≤ 0) →
  List.filter P (Js.sort_insert cmp x l) = List.filter P (x :: l).
Proof.
  intros HP. induction l as [|y l IH]; [done|].
  cbn [Js.sort_insert].
  destruct (Z.leb_spec (cmp x y) 0) as [Hle|Hgt]; [done|].
  cbn [List.filter] in *.
  destruct (P y) eqn:Hy; [|exact IH].
  destruct (P x) eqn:Hx.
  - specialize (HP x y Hx Hy). lia.
  - by rewrite IH.
Qed.

Lemma array_sort_stable (P : A → bool) (l : list A) :
  (∀ a b, P a = true → P b = true → cmp a b ≤ 0) →
  List.filter P (Js.array_sort cmp l) = List.filter P l.
Proof.
  intros HP. induction l as [|x l IH]; [done|].
  change (Js.array_sort cmp (x :: l)) with (Js.sort_insert cmp x (Js.array_sort cmp l)).
  rewrite sort_insert_filter by done.
  cbn [List.filter]. by rewrite IH.
Qed.

End SortFacts.

(* ------------------------------------------------------------------ *)
(** ** Ticket Store Reader *)

Lemma by_priority_desc_total (a b : Ticket) :
  0 < by_priority_desc a b → by_priority_desc b a ≤ 0.
Proof. unfold by_priority_desc. lia. Qed.

Lemma by_priority_desc_trans (a b c : Ticket) :
  by_priority_desc a b ≤ 0 → by_priority_desc b c ≤ 0 → by_priority_desc a c ≤ 0.
Proof. unfold by_priority_desc. lia. Qed.

Lemma by_stage_then_priority_le (order : gmap string nat) (a b : Ticket) :
  by_stage_then_priority order a b ≤ 0 ↔
  stage_rank order a < stage_rank order b
  ∨ (stage_rank order a = stage_rank order b ∧ priority b ≤ priority a).
Proof.
  unfold by_stage_then_priority.
  destruct (Z.eqb_spec (stage_rank order a) (stage_rank order b)); simpl; lia.
Qed.

Lemma by_stage_then_priority_total (order : gmap string nat) (a b : Ticket) :
  0 < by_stage_then_priority order a b → by_stage_then_priority order b a ≤ 0.
Proof.
  intros Hab. apply by_stage_then_priority_le.
  assert (¬ by_stage_then_priority order a b ≤ 0) as Hn by lia.
  rewrite by_stage_then_priority_le in Hn. lia.
Qed.

Lemma by_stage_then_priority_trans (order : gmap string nat) (a b c : Ticket) :
  by_stage_then_priority order a b ≤ 0 →
  by_stage_then_priority order b c ≤ 0 →
  by_stage_then_priority order a c ≤ 0.
Proof. rewrite !by_stage_then_priority_le. lia. Qed.

Lemma span_digits_digit (s d t : string) :
  Js.span_digits s = (d, t) → ∀ c r, d = String c r → Js.is_digit c = true.
Proof.
  destruct s as [|a s]; simpl; [by intros [= <- _]|].
  destruct (Js.is_digit a) eqn:Ha; [|by intros [= <- _]].
  destruct (Js.span_digits s). intros [= <- _] c r [= <- _]. done.
Qed.

Lemma span_digits_again (s d t : string) :
  Js.span_digits s = (d, t) → Js.span_digits d = (d, EmptyString).
Proof.
  revert d t. induction s as [|a s IH]; intros d t; simpl; [by intros [= <- _]|].
  destruct (Js.is_digit a) eqn:Ha; [|by intros [= <- _]].
  destruct (Js.span_digits s) as [d' t'] eqn:Hs. intros [= <- _].
  simpl. rewrite Ha. by rewrite (IH d' t' eq_refl).
Qed.

(** The captured digits are read by [parseInt] as their decimal value:
    the priority is the number [parseInt(match[1], 10)]. *)
Lemma parsePriority_parseInt (name digits : string) :
  PRIORITY_PREFIX_exec name = Some digits →
  Js.parseInt digits = Js.Num (Js.decimal digits).
Proof.
  unfold PRIORITY_PREFIX_exec.
  destruct (Js.span_digits name) as [d t] eqn:Hspan.
  destruct d as [|c d]; [done|]. destruct t as [|dash t]; [done|].
  destruct (Ascii.eqb_spec dash "-") as [->|]; [|by destruct dash as [[] [] [] [] [] [] [] []]].
  intros [= <-].
  pose proof (span_digits_digit _ _ _ Hspan c d eq_refl) as Hc.
  pose proof (span_digits_again _ _ _ Hspan) as Hd.
  unfold Js.parseInt.
  assert (Js.trimStart (String c d) = String c d) as ->.
  { simpl. destruct c as [[] [] [] [] [] [] [] []]; done. }
  assert (match String c d with
          | String "-" r => (true, r)
          | String "+" r => (false, r)
          | _ => (false, String c d)
          end = (false, String c d)) as ->.
  { destruct c as [[] [] [] [] [] [] [] []]; done. }
  by rewrite Hd.
Qed.

(** What one turn of the discovery loop keeps. *)
Lemma discover_entry_Some (stageDir stg : string) (m : Js.jsnum) (e : string) (t : Ticket) :
  discover_entry stageDir stg m e = Some t ↔
  Js.endsWith e ".md" = true ∧ PRIORITY_PREFIX_test e = true
  ∧ Js.lt (Js.Num (parsePriority e)) m = false
  ∧ t = mkTicket e (Path.join stageDir e) stg (parsePriority e).
Proof.
  unfold discover_entry.
  destruct (Js.endsWith e ".md"), (PRIORITY_PREFIX_test e); cbn [negb orb];
    try (split; [discriminate | intros (?&?&?&?); discriminate]).
  destruct (Js.lt (Js.Num (parsePriority e)) m).
  - split; [discriminate | intros (?&?&?&?); discriminate].
  - split; [intros [= <-]; done | intros (_&_&_&->); done].
Qed.

Lemma elem_of_stage_candidates (fs : FS) (dir stg : string) (m : Js.jsnum) (t : Ticket) :
  t ∈ stage_candidates fs dir stg m ↔
  ∃ e, e ∈ readdir fs (Path.join dir stg)
       ∧ discover_entry (Path.join dir stg) stg m e = Some t.
Proof.
  unfold stage_candidates, readdir.
  destruct (fs !! Path.join dir stg) as [entries|]; simpl.
  - apply list_elem_of_omap.
  - split; [by intros ?%elem_of_nil | by intros (e & ?%elem_of_nil & _)].
Qed.

Lemma elem_of_discoverTickets (fs : FS) (dir stg : string) (m : Js.jsnum) (t : Ticket) :
  t ∈ discoverTickets fs dir stg m ↔ t ∈ stage_candidates fs dir stg m.
Proof. apply array_sort_elem_of. Qed.

Lemma discoverTickets_stage (fs : FS) (dir stg : string) (m : Js.jsnum) (t : Ticket) :
  t ∈ discoverTickets fs dir stg m →
  stage t = stg ∧ file t ∈ readdir fs (Path.join dir stg).
Proof.
  rewrite elem_of_discoverTickets, elem_of_stage_candidates.
  intros (e & He & (_ & _ & _ & ->)%discover_entry_Some). done.
Qed.

(** *** Stage positions and the [Map] of the global sort *)

Lemma stageOrder_from_lookup (stages : list Sel.t) (i : nat) (m : gmap string nat) (s : string) :
  stageOrder_from i stages m !! s =
  match stage_position_from i stages s with
  | Some j => Some j
  | None => m !! s
  end.
Proof.
  revert i m. induction stages as [|x r IH]; intros i m; simpl; [done|].
  rewrite IH. destruct (stage_position_from (S i) r s); [done|].
  destruct (String.eqb_spec (Sel.stage x) s) as [->|Hne].
  - by rewrite lookup_insert_eq.
  - by rewrite lookup_insert_ne.
Qed.

Lemma stageOrder_lookup (stages : list Sel.t) (s : string) :
  stageOrder stages !! s = stage_position stages s.
Proof.
  unfold stageOrder, stage_position. rewrite stageOrder_from_lookup.
  by destruct (stage_position_from 0 stages s).
Qed.

Lemma stage_position_from_Some (stages : list Sel.t) (i j : nat) (s : string) :
  stage_position_from i stages s = Some j →
  (i ≤ j)%nat ∧ ∃ sel, stages !! (j - i)%nat = Some sel ∧ Sel.stage sel = s.
Proof.
  revert i. induction stages as [|x r IH]; intros i; simpl; [done|].
  destruct (stage_position_from (S i) r s) as [k|] eqn:Hk.
  - intros [= ->]. apply IH in Hk as (Hle & sel & Hsel & Hs).
    split; [lia|]. exists sel. split; [|done].
    replace (j - i)%nat with (S (j - S i)) by lia. done.
  - destruct (String.eqb_spec (Sel.stage x) s) as [<-|]; [|done].
    intros [= ->]. split; [lia|]. exists x. by rewrite Nat.sub_diag.
Qed.

Lemma stage_position_from_is_Some (stages : list Sel.t) (i : nat) (sel : Sel.t) :
  sel ∈ stages → is_Some (stage_position_from i stages (Sel.stage sel)).
Proof.
  revert i. induction stages as [|x r IH]; intros i.
  - by intros ?%elem_of_nil.
  - intros [->|Hin]%elem_of_cons; simpl.
    + destruct (stage_position_from (S i) r (Sel.stage x)); [done|].
      by rewrite String.eqb_refl.
    + destruct (IH (S i) Hin) as [k ->]. done.
Qed.

Lemma stage_position_from_None (stages : list Sel.t) (i : nat) (s : string) :
  s ∉ map Sel.stage stages → stage_position_from i stages s = None.
Proof.
  revert i. induction stages as [|x r IH]; intros i Hs; simpl; [done|].
  simpl in Hs. apply not_elem_of_cons in Hs as [Hne Hs].
  rewrite IH by done. by destruct (String.eqb_spec (Sel.stage x) s).
Qed.

(** In a selection that names no stage twice, the position of a stage is
    the index at which it is named. *)
Lemma stage_position_from_NoDup (stages : list Sel.t) (i k : nat) (sel : Sel.t) :
  NoDup (map Sel.stage stages) →
  stages !! k = Some sel →
  stage_position_from i stages (Sel.stage sel) = Some (i + k)%nat.
Proof.
  revert i k. induction stages as [|x r IH]; intros i k Hnd Hk; [done|].
  simpl in Hnd. apply NoDup_cons in Hnd as [Hx Hnd].
  destruct k as [|k]; simpl in *.
  - injection Hk as ->. rewrite stage_position_from_None by done.
    rewrite String.eqb_refl. f_equal. lia.
  - rewrite (IH (S i) k) by done. f_equal. lia.
Qed.

Lemma StronglySorted_weaken {A : Type} (R S : A → A → Prop) (l : list A) :
  (∀ a b, R a b → S a b) → StronglySorted R l → StronglySorted S l.
Proof.
  intros HRS. induction 1 as [|x l Hl IH Hx]; constructor; [done|].
  eapply Forall_impl; [exact Hx|]. auto.
Qed.

Lemma filter_flat_map {A B : Type} (P : B → bool) (f : A → list B) (l : list A) :
  List.filter P (flat_map f l) = flat_map (λ x, List.filter P (f x)) l.
Proof.
  induction l as [|x l IH]; simpl; [done|].
  by rewrite List.filter_app, IH.
Qed.

Lemma snapshot_perm_discovery (fs : FS) (dir : string) (stages : list Sel.t) :
  snapshot fs dir stages ≡ₚ discovery fs dir stages.
Proof.
  unfold snapshot, discovery. induction stages as [|x r IH]; simpl; [done|].
  unfold discoverTickets at 1. by rewrite array_sort_perm, IH.
Qed.

Lemma elem_of_snapshot (fs : FS) (dir : string) (stages : list Sel.t) (t : Ticket) :
  t ∈ snapshot fs dir stages ↔
  ∃ sel, sel ∈ stages ∧ t ∈ discoverTickets fs dir (Sel.stage sel) (Sel.minPriority sel).
Proof.
  unfold snapshot. rewrite list_elem_of_In, in_flat_map.
  split; intros (sel & Hsel & Ht); exists sel; by rewrite ?list_elem_of_In in *.
Qed.

Lemma same_class_not_separated (order : gmap string nat) (s : string) (p : Z) (a b : Ticket) :
  same_class s p a = true → same_class s p b = true →
  by_stage_then_priority order a b ≤ 0.
Proof.
  unfold same_class. intros [Ha Hpa]%andb_prop [Hb Hpb]%andb_prop.
  apply String.eqb_eq in Ha, Hb. apply by_stage_then_priority_le.
  unfold stage_rank. rewrite Ha, Hb. lia.
Qed.

Lemma same_class_not_separated_stage (s : string) (p : Z) (a b : Ticket) :
  same_class s p a = true → same_class s p b = true → by_priority_desc a b ≤ 0.
Proof.
  unfold same_class, by_priority_desc. intros [_ Hpa]%andb_prop [_ Hpb]%andb_prop. lia.
Qed.

Lemma runOrder_sorted (fs : FS) (dir : string) (stages : list Sel.t) :
  StronglySorted (runs_before stages) (runOrder fs dir stages).
Proof.
  unfold runOrder.
  eapply StronglySorted_weaken;
    [|apply array_sort_sorted;
      [apply by_stage_then_priority_total | apply by_stage_then_priority_trans]].
  intros a b Hab. apply by_stage_then_priority_le in Hab.
  unfold runs_before. unfold stage_rank in Hab.
  by rewrite !stageOrder_lookup in Hab.
Qed.

Lemma elem_of_runOrder (fs : FS) (dir : string) (stages : list Sel.t) (t : Ticket) :
  t ∈ runOrder fs dir stages ↔ t ∈ snapshot fs dir stages.
Proof. apply array_sort_elem_of. Qed.

Lemma StronglySorted_lookup_lt {A : Type} (R : A → A → Prop) (l : list A)
    (i j : nat) (a b : A) :
  StronglySorted R l → l !! i = Some a → l !! j = Some b → (i < j)%nat → R a b.
Proof.
  intros Hl. revert i j. induction Hl as [|x l Hl IH Hx]; intros i j Hi Hj Hij; [done|].
  destruct j as [|j]; [lia|]. destruct i as [|i]; simpl in *.
  - injection Hi as ->. rewrite Forall_forall in Hx. apply Hx.
    apply list_elem_of_lookup. eauto.
  - apply (IH i j); [done|done|lia].
Qed.

(** C3.  For every tickets tree and stage selection, the run order is a
    rearrangement of the discovered tickets in which a ticket of an earlier
    selected stage comes first and, inside a stage, a higher priority comes
    first; the position of a ticket's stage is a position at which the
    selection names it (the index of the stage when no stage is named
    twice); tickets of one stage and one priority keep their discovery
    order.  With the stage order [fix, implement] and the tickets
    [fix/5-a.md], [implement/5-b.md], [fix/3-c.md], the run order is
    [fix/5-a.md], [fix/3-c.md], [implement/5-b.md], however the [fix]
    directory is listed. *)
Theorem run_order_by_stage_then_priority (fs : FS) (dir : string) (stages : list Sel.t) :
  let order := runOrder fs dir stages in
  order ≡ₚ discovery fs dir stages
  ∧ StronglySorted (runs_before stages) order
  ∧ (∀ t, t ∈ order →
       ∃ i sel, stage_position stages (stage t) = Some i
                ∧ stages !! i = Some sel ∧ Sel.stage sel = stage t)
  ∧ (∀ i sel, NoDup (map Sel.stage stages) → stages !! i = Some sel →
       stage_position stages (Sel.stage sel) = Some i)
  ∧ (∀ s p, List.filter (same_class s p) order
            = List.filter (same_class s p) (discovery fs dir stages))
  ∧ map path (runOrder Sample.tree "tickets" Sample.stages)
    = ["tickets/fix/5-a.md"; "tickets/fix/3-c.md"; "tickets/implement/5-b.md"]
  ∧ map path (runOrder Sample.tree_listed_backwards "tickets" Sample.stages)
    = ["tickets/fix/5-a.md"; "tickets/fix/3-c.md"; "tickets/implement/5-b.md"].
Proof.
  intros order. subst order. unfold runOrder.
  split; [|split; [|split; [|split; [|split; [|split]]]]].
  - rewrite array_sort_perm. apply snapshot_perm_discovery.
  - apply runOrder_sorted.
  - intros t Ht. apply array_sort_elem_of, elem_of_snapshot in Ht as (sel & Hsel & Ht).
    apply discoverTickets_stage in Ht as [Hst _].
    destruct (stage_position_from_is_Some stages 0 sel Hsel) as [i Hi].
    rewrite Hst. exists i.
    destruct (stage_position_from_Some _ _ _ _ Hi) as (_ & sel' & Hsel' & Hst').
    rewrite Nat.sub_0_r in Hsel'. by exists sel'.
  - intros i sel Hnd Hi. by apply (stage_position_from_NoDup stages 0 i sel).
  - intros s p. rewrite array_sort_stable by apply same_class_not_separated.
    unfold snapshot, discovery. rewrite !filter_flat_map.
    induction stages as [|x r IH]; simpl; [done|].
    unfold discoverTickets at 1.
    rewrite array_sort_stable by apply same_class_not_separated_stage.
    by rewrite IH.
  - vm_compute. reflexivity.
  - vm_compute. reflexivity.
Qed.

(* ------------------------------------------------------------------ *)
(** ** Command line *)

Lemma parse_loop_keeps_stagesRaw (argv : list string) (o o' : Opts.t) :
  "--stages" ∉ argv → parse_loop o argv = inl o' → Opts.stagesRaw o' = Opts.stagesRaw o.
Proof.
  remember (List.length argv) as n eqn:Hn. revert argv o Hn.
  induction n as [n IH] using lt_wf_ind. intros argv o Hn Hno.
  destruct argv as [|arg rest]; simpl.
  { by intros [= <-]. }
  apply not_elem_of_cons in Hno as [Harg Hrest].
  simpl in Hn.
  destruct (String.eqb arg "--min-priority").
  { destruct rest as [|v rest']; [by intros [= <-]|].
    apply not_elem_of_cons in Hrest as [_ Hrest]. simpl in Hn.
    intros Hl. by rewrite (IH (List.length rest') ltac:(lia) rest' _ eq_refl Hrest Hl). }
  destruct (String.eqb arg "--agent").
  { destruct rest as [|v rest']; [by intros [= <-]|].
    apply not_elem_of_cons in Hrest as [_ Hrest]. simpl in Hn.
    intros Hl. by rewrite (IH (List.length rest') ltac:(lia) rest' _ eq_refl Hrest Hl). }
  destruct (String.eqb arg "--dry-run").
  { intros Hl. by rewrite (IH (List.length rest) ltac:(lia) rest _ eq_refl Hrest Hl). }
  destruct (String.eqb_spec arg "--stages"); [done|].
  destruct (String.eqb arg "--help"); [done|].
  intros Hl. by rewrite (IH (List.length rest) ltac:(lia) rest _ eq_refl Hrest Hl).
Qed.





(** C9.  When [--stages] does not occur on the command line, the selected
    stages are [fix], [review], [implement], [plan] in that order, each
    with the global minimum priority; in the run order every ticket of a
    stage listed earlier comes before every ticket of a stage listed
    later, so review tickets run before implement and plan tickets. *)
Theorem default_stages_in_constant_order
    (argv : list string) (opts : Opts.t) (stages : list Sel.t) :
  "--stages" ∉ argv →
  parseArgs argv = Parsed opts stages →
  stages = map (λ s, Sel.mk s (Opts.minPriority opts)) ["fix"; "review"; "implement"; "plan"]
  ∧ ∀ fs dir i j a b,
      runOrder fs dir stages !! i = Some a →
      runOrder fs dir stages !! j = Some b →
      (stage a, stage b) ∈ default_precedence →
      (i < j)%nat.
Proof.
  intros Hno. unfold parseArgs.
  destruct (parse_loop Opts.initial argv) as [o|[]] eqn:Hloop; [|done].
  apply parse_loop_keeps_stagesRaw in Hloop; [|done]. simpl in Hloop.
  rewrite Hloop. cbn [Js.nullish].
  destruct (first_unknown_stage _) eqn:Hunk; [done|].
  intros [= -> <-].
  clear Hunk. set (st := parseStages _ _).
  assert (st = map (λ s, Sel.mk s (Opts.minPriority opts))
                   ["fix"; "review"; "implement"; "plan"]) as -> by reflexivity.
  split; [done|].
  intros fs dir i j a b Hi Hj Hab.
  destruct (Nat.lt_trichotomy i j) as [Hlt|[->|Hgt]]; [done|exfalso..].
  - rewrite Hi in Hj. injection Hj as ->.
    unfold default_precedence in Hab.
    repeat (apply elem_of_cons in Hab as [Hab|Hab];
            [injection Hab as Ha Hb; rewrite Ha in Hb; discriminate|]).
    by apply elem_of_nil in Hab.
  - pose proof (StronglySorted_lookup_lt _ _ _ _ _ _
                  (runOrder_sorted fs dir _) Hj Hi Hgt) as Hba.
    unfold runs_before, default_precedence in *.
    repeat (apply elem_of_cons in Hab as [Hab|Hab];
            [injection Hab as Ha Hb; rewrite Ha, Hb in Hba; vm_compute in Hba;
             destruct Hba as [?|[? ?]]; discriminate|]).
    by apply elem_of_nil in Hab.
Qed.





Lemma default_stages_in_constant_order_witness :
("--stages" ∉ ["--dry-run"])
  ∧ ∃ opts stages,
      parseArgs ["--dry-run"] = Parsed opts stages
      ∧ map Sel.stage stages = ["fix"; "review"; "implement"; "plan"].
Proof.
  assert ("--stages" ∉ ["--dry-run"]) as Hno.
  { intros Hin. by repeat (apply elem_of_cons in Hin as [?|Hin]; [done|]);
      apply elem_of_nil in Hin. }
  split; [exact Hno|].
  eexists _, _. split; [reflexivity|].
  by rewrite (proj1 (default_stages_in_constant_order ["--dry-run"] _ _ Hno eq_refl)).
Defined.

(* ------------------------------------------------------------------ *)
(** ** Process Supervisor *)

Lemma split_without_separator (sep : ascii) (s : string) :
  Js.includes sep s = false → Js.split sep s = [s].
Proof.
  induction s as [|c r IH]; simpl; [done|].
  destruct (Ascii.eqb c sep); simpl; [done|].
  intros Hr. by rewrite IH.
Qed.


Section SupervisorFacts.
Context `{HostOps : Host} (fmt : option (string → StreamEvent)).

Lemma processLine_done (f : string → StreamEvent) (now : Z) (line : string) (s : Sup.state) :
  fmt = Some f → done (f line) = true →
  let s' := Sup.processLine fmt now line s in
  Sup.resultExitCode s' = Some (Js.nullish (exitCode (f line)) 0)
  ∧ Sup.idleTimer s' = Some (Sup.Grace, now + 30000)
  ∧ Sup.buf s' = Sup.buf s ∧ Sup.settled s' = Sup.settled s
  ∧ Sup.promise s' = Sup.promise s ∧ Sup.kills s' = Sup.kills s.
Proof.
  intros -> Hd. unfold Sup.processLine. rewrite Hd.
  by destruct (String.eqb (text (f line)) EmptyString).
Qed.

Lemma processLine_not_done (now : Z) (line : string) (s : Sup.state) :
  reports_done fmt line = false →
  let s' := Sup.processLine fmt now line s in
  Sup.resultExitCode s' = Sup.resultExitCode s
  ∧ Sup.idleTimer s' = Sup.idleTimer s
  ∧ Sup.buf s' = Sup.buf s ∧ Sup.settled s' = Sup.settled s
  ∧ Sup.promise s' = Sup.promise s ∧ Sup.kills s' = Sup.kills s.
Proof.
  unfold reports_done, Sup.processLine. destruct fmt as [f|]; [|done].
  intros ->. by destruct (String.eqb (text (f line)) EmptyString).
Qed.

(** A line either leaves the latch alone or sets it; it never clears
    it. *)
Lemma processLine_cases (now : Z) (line : string) (s : Sup.state) :
  let s' := Sup.processLine fmt now line s in
  Sup.buf s' = Sup.buf s ∧ Sup.settled s' = Sup.settled s
  ∧ Sup.promise s' = Sup.promise s ∧ Sup.kills s' = Sup.kills s
  ∧ ((Sup.resultExitCode s' = Sup.resultExitCode s ∧ Sup.idleTimer s' = Sup.idleTimer s)
     ∨ (∃ c, Sup.resultExitCode s' = Some c)).
Proof.
  destruct (reports_done fmt line) eqn:Hd.
  - unfold reports_done in Hd. destruct fmt as [f|] eqn:Hf; [|done].
    rewrite <- Hf. destruct (processLine_done f now line s Hf Hd) as (Hr&?&?&?&?&?).
    repeat split; try done. right. eauto.
  - destruct (processLine_not_done now line s Hd) as (?&?&?&?&?&?).
    repeat split; try done. by left.
Qed.

Lemma process_lines_cases (now : Z) (lines : list string) (s : Sup.state) :
  let s' := fold_left (λ st line, Sup.processLine fmt now line st) lines s in
  Sup.buf s' = Sup.buf s ∧ Sup.settled s' = Sup.settled s
  ∧ Sup.promise s' = Sup.promise s ∧ Sup.kills s' = Sup.kills s
  ∧ ((Sup.resultExitCode s' = Sup.resultExitCode s ∧ Sup.idleTimer s' = Sup.idleTimer s)
     ∨ (∃ c, Sup.resultExitCode s' = Some c)).
Proof.
  revert s. induction lines as [|l lines IH]; intros s; simpl.
  - repeat split; by left.
  - destruct (IH (Sup.processLine fmt now l s)) as (Hb&Hs&Hp&Hk&Hr).
    destruct (processLine_cases now l s) as (Hb'&Hs'&Hp'&Hk'&Hr').
    rewrite Hb, Hs, Hp, Hk. repeat split; try done.
    destruct Hr as [[Hr1 Hr2]|Hr]; [|by right].
    destruct Hr' as [[Hr1' Hr2']|[c Hc]].
    + left. by rewrite Hr1, Hr2.
    + right. exists c. by rewrite Hr1.
Qed.

(** The close handler resolves the promise of a process that has not
    closed before: with the latched code when there is one, else with the
    code of the process, else with 1. *)
Lemma on_close_resolves (now : Z) (code : option Z) (s : Sup.state) :
  Sup.settled s = false → Sup.promise s = None →
  let s' := Sup.on_close fmt now code s in
  Sup.promise s' = Some (Resolved (Js.nullish (Sup.resultExitCode s') (Js.nullish code 1)))
  ∧ Sup.kills s' = Sup.kills s.
Proof.
  intros Hs Hp. unfold Sup.on_close.
  set (s1 := if String.eqb (Sup.buf s) EmptyString then s
             else Sup.processLine fmt now (Js.trimEnd (Sup.buf s)) s).
  assert (Sup.settled s1 = false ∧ Sup.promise s1 = None ∧ Sup.kills s1 = Sup.kills s)
    as (Hs1 & Hp1 & Hk1).
  { subst s1. destruct (String.eqb (Sup.buf s) EmptyString); [done|].
    destruct (processLine_cases now (Js.trimEnd (Sup.buf s)) s) as (_&->&->&->&_). done. }
  unfold Sup.settle. rewrite Hs1. simpl. by rewrite Hp1.
Qed.


End SupervisorFacts.

Lemma run_app `{HostOps : Host} (fmt : option (string → StreamEvent)) (s : Sup.state)
    (pre post : list Sup.event) :
  Sup.run fmt s (pre ++ post) = Sup.run fmt (Sup.run fmt s pre) post.
Proof. apply fold_left_app. Qed.

(** C6, first trace.  A Claude agent prints a successful result without a
    line end and falls silent: the idle timer fires with no result
    received, the process is killed and closes without a code, the held
    line is flushed, and the invocation resolves with 0.  Second trace.
    An agent without normalizer is silent, is sent the kill by the idle
    timer and exits with code 0 of its own: the invocation resolves with
    0. *)
Lemma idle_kill_resolves_zero :
  (let fmt := Some (@formatClaudeJsonLine Sample.host) in
   let s := Sup.supervise (HostOps := Sample.host) fmt 0
              [Sup.StdoutData 1000 (Sample.result_line false)] in
   let s1 := Sup.on_timer 601000 s in
   Sup.resultExitCode s = None
   ∧ Sup.idleTimer s = Some (Sup.Idle, 601000)
   ∧ Sup.kills s1 = 1%nat
   ∧ Sup.promise (Sup.on_close fmt 601005 None s1) = Some (Resolved 0))
  ∧ (let s := Sup.supervise (HostOps := Sample.host) None 0 [] in
     let s1 := Sup.on_timer 600000 s in
     Sup.resultExitCode s = None
     ∧ Sup.idleTimer s = Some (Sup.Idle, 600000)
     ∧ Sup.kills s1 = 1%nat
     ∧ Sup.promise (Sup.on_close None 600005 (Some 0) s1) = Some (Resolved 0)).
Proof. vm_compute. repeat split. Qed.

(** C6, as the code has it.  While no terminal result has been received,
    every stderr chunk, and every stdout chunk that brings no terminal
    result, arms the idle timer for 10 minutes after its arrival.  When the
    idle timer fires in that state the process is sent a kill.  If the
    process then closes, no terminal result having been reported in
    between or by the flush of the held line, the invocation resolves with
    the code the process reports, or with 1 when it reports none; that is
    a non-zero code unless the process exits with 0. *)
Theorem idle_timer_rearmed_then_kill `{HostOps : Host}
    (fmt : option (string → StreamEvent)) (now : Z) (s : Sup.state) :
  Sup.resultExitCode s = None →
  Sup.IDLE_TIMEOUT_MS = 600000
  ∧ (∀ chunk,
       Sup.idleTimer (Sup.on_stderr now chunk s)
       = Some (Sup.Idle, now + Sup.IDLE_TIMEOUT_MS))
  ∧ (∀ chunk,
       let s' := Sup.on_stdout fmt now chunk s in
       Sup.resultExitCode s' = None →
       Sup.idleTimer s' = Some (Sup.Idle, now + Sup.IDLE_TIMEOUT_MS))
  ∧ (∀ due, Sup.idleTimer s = Some (Sup.Idle, due) → due ≤ now →
       let s1 := Sup.on_timer now s in
       Sup.kills s1 = S (Sup.kills s)
       ∧ ∀ post now' code,
           let s2 := Sup.run fmt s1 post in
           let s3 := Sup.on_close fmt now' code s2 in
           Sup.settled s2 = false → Sup.promise s2 = None →
           Sup.resultExitCode s3 = None →
           Sup.promise s3 = Some (Resolved (Js.nullish code 1))
           ∧ (code ≠ Some 0 → Js.nullish code 1 ≠ 0)).
Proof.
  intros Hrun. split; [reflexivity|]. split; [|split].
  - intros chunk. unfold Sup.on_stderr. by rewrite Hrun.
  - intros chunk s' Hnone. subst s'. unfold Sup.on_stdout in *. rewrite Hrun in *.
    set (lines := Js.split LF _) in *.
    set (s0 := Sup.set_buf _ _) in *.
    destruct (process_lines_cases fmt now (removelast lines) s0)
      as (_&_&_&_&[[_ Ht]|[c Hc]]).
    + by rewrite Ht.
    + by rewrite Hc in Hnone.
  - intros due Hdue Hle s1. subst s1. unfold Sup.on_timer. rewrite Hdue.
    destruct (Z.leb_spec due now) as [_|?]; [|lia].
    split; [done|].
    intros post now' code Hs Hp Hnone.
    destruct (on_close_resolves fmt now' code _ Hs Hp) as [Hres _].
    rewrite Hnone in Hres. split; [exact Hres|].
    intros Hcode. destruct code as [c|]; simpl; [congruence|lia].
Qed.

Lemma idle_timer_rearmed_then_kill_witness :
  Sup.resultExitCode
    (Sup.supervise (HostOps := Sample.host) None 0 [Sup.StderrData 5000 "warming up"])
  = None
  ∧ Sup.idleTimer
      (Sup.supervise (HostOps := Sample.host) None 0 [Sup.StderrData 5000 "warming up"])
    = Some (Sup.Idle, 605000)
  ∧ Sup.promise
      (Sup.on_close None 605010 None
         (Sup.on_timer 605000
            (Sup.supervise (HostOps := Sample.host) None 0
               [Sup.StderrData 5000 "warming up"])))
    = Some (Resolved 1).
Proof.
  assert (Sup.resultExitCode
            (Sup.supervise (HostOps := Sample.host) None 0
               [Sup.StderrData 5000 "warming up"])
          = None) as Hrun by reflexivity.
  assert (Sup.idleTimer
            (Sup.supervise (HostOps := Sample.host) None 0
               [Sup.StderrData 5000 "warming up"])
          = Some (Sup.Idle, 605000)) as Htimer by reflexivity.
  split; [exact Hrun|]. split; [exact Htimer|].
  destruct (idle_timer_rearmed_then_kill (HostOps := Sample.host) None 605000 _ Hrun)
    as (_ & _ & _ & Hfire).
  destruct (Hfire 605000 Htimer ltac:(lia)) as [_ Hclose].
  exact (proj1 (Hclose [] 605010 None eq_refl eq_refl eq_refl)).
Defined.

(* ------------------------------------------------------------------ *)
(** ** Pipeline Driver *)

Lemma attempted_app (l1 l2 : list effect) :
  attempted (l1 ++ l2) = attempted l1 ++ attempted l2.
Proof. apply omap_app. Qed.

Lemma spawns_app (l1 l2 : list effect) : spawns (l1 ++ l2) = spawns l1 ++ spawns l2.
Proof. apply omap_app. Qed.

Lemma attempted_console (log : list Sup.log_item) :
  attempted (flat_map console log) = [].
Proof. induction log as [|[] log IH]; cbn; by rewrite ?IH. Qed.

Lemma spawns_console (log : list Sup.log_item) : spawns (flat_map console log) = [].
Proof. induction log as [|[] log IH]; cbn; by rewrite ?IH. Qed.

Section DriverFacts.
Context `{HostOps : Host} `{Surroundings : World}.

(** [runAgent] prints no ticket banner and starts at most one process. *)
Lemma runAgent_effects (a : option string) (logFile stg : string) (r : Run) :
  attempted (fst (runAgent a logFile stg r)) = []
  ∧ (List.length (spawns (fst (runAgent a logFile stg r))) ≤ 1)%nat.
Proof.
  unfold runAgent. destruct (agents a) as [adapter|[]|]; simpl; try (split; [done|lia]).
  destruct (Sup.promise _); simpl;
    rewrite ?attempted_app, ?spawns_app, attempted_console, spawns_console; simpl;
    split; done || lia.
Qed.

(** One turn of the loop, given what [runAgent] returns. *)
Lemma run_tickets_turn (a : option string) (total i : nat) (t : Ticket)
    (rest : list Ticket) (fs : FS) :
  run_tickets a total i (t :: rest) fs =
  let currentLog := logPath logsDir t (iso_time i) in
  let before := [Out (MsgTicketBanner (S i) t); WriteFile currentLog] in
  if negb (ticket_readable fs t) then (before ++ [Err MsgRunnerFailed], Exit 1)
  else
    let r := agent_run t fs in
    let res := runAgent a currentLog (stage t) r in
    match snd res with
    | Settled (Resolved exitCode) =>
        if negb (exitCode =? 0) then
          (before ++ fst res ++ [Err (MsgAgentFailed exitCode t)], Exit exitCode)
        else
          let next := run_tickets a total (S i) rest (fs_after r) in
          (before ++ fst res ++ [Out (MsgComplete (S i) t)]
             ++ (match rest with [] => [] | _ => [Sleep 500] end) ++ fst next,
           snd next)
    | Settled Rejected => (before ++ fst res ++ [Err MsgRunnerFailed], Exit 1)
    | Exited code => (before ++ fst res, Exit code)
    | Never => (before ++ fst res, Hang)
    end.
Proof.
  cbn [run_tickets]. destruct (negb (ticket_readable fs t)); [done|].
  cbv zeta. destruct (runAgent _ _ _ _) as [during [[c|]|c|]]; cbn [fst snd]; try done.
  destruct (negb (c =? 0)); [done|].
  by destruct (run_tickets a total (S i) rest (fs_after (agent_run t fs))).
Qed.

Lemma attempted_turn (i : nat) (t : Ticket) (log : string) (during tail : list effect) :
  attempted during = [] →
  attempted ([Out (MsgTicketBanner i t); WriteFile log] ++ during ++ tail)
  = t :: attempted tail.
Proof. intros Hd. rewrite !attempted_app, Hd. done. Qed.

Lemma sleep_not_attempted (rest : list Ticket) (tail : list effect) :
  attempted ((match rest with [] => [] | _ => [Sleep 500] end) ++ tail) = attempted tail.
Proof. by destruct rest. Qed.

Lemma attempted_sleep (rest : list Ticket) :
  attempted (match rest with [] => [] | _ => [Sleep 500] end) = [].
Proof. by destruct rest. Qed.

Lemma spawns_sleep (rest : list Ticket) :
  spawns (match rest with [] => [] | _ => [Sleep 500] end) = [].
Proof. by destruct rest. Qed.

(** The loop takes the tickets in the order of the list and attempts a
    leading part of it. *)
Lemma loop_attempted_prefix (a : option string) (total : nat) (tickets : list Ticket) :
  ∀ i fs, attempted (fst (run_tickets a total i tickets fs)) `prefix_of` tickets.
Proof.
  induction tickets as [|t rest IH]; intros i fs.
  - simpl. apply prefix_nil.
  - rewrite run_tickets_turn. cbv zeta.
    destruct (negb (ticket_readable fs t)).
    { cbn. apply prefix_cons, prefix_nil. }
    destruct (runAgent_effects a (logPath logsDir t (iso_time i)) (stage t)
                (agent_run t fs)) as [Hatt _].
    destruct (snd (runAgent _ _ _ _)) as [[c|]|c|];
      [destruct (negb (c =? 0))|..]; cbn [fst];
      rewrite ?attempted_app, ?Hatt, ?attempted_sleep; simpl;
      apply prefix_cons; try apply prefix_nil.
    apply IH.
Qed.

Lemma resolved_code_Some (a : option string) (i : nat) (t : Ticket) (fs : FS) (c : Z) :
  resolved_code a i t fs = Some c →
  ticket_readable fs t = true
  ∧ snd (runAgent a (logPath logsDir t (iso_time i)) (stage t) (agent_run t fs))
    = Settled (Resolved c).
Proof.
  unfold resolved_code. destruct (ticket_readable fs t); [|done].
  by destruct (snd (runAgent _ _ _ _)) as [[c'|]|c'|]; intros [= ->].
Qed.

(** A turn whose invocation resolves with a non-zero code ends the
    run. *)
Lemma turn_fails (a : option string) (total i : nat) (t : Ticket) (rest : list Ticket)
    (fs : FS) (c : Z) :
  resolved_code a i t fs = Some c → c ≠ 0 →
  attempted (fst (run_tickets a total i (t :: rest) fs)) = [t]
  ∧ snd (run_tickets a total i (t :: rest) fs) = Exit c.
Proof.
  intros [Hread Hres]%resolved_code_Some Hc.
  rewrite run_tickets_turn. cbv zeta. rewrite Hread, Hres. cbn [negb].
  destruct (Z.eqb_spec c 0); [done|]. cbn [negb fst snd]. split; [|done].
  rewrite attempted_turn; [done|]. apply runAgent_effects.
Qed.

(** A turn whose invocation resolves with 0 is followed by the rest of
    the loop, on the tree the agent has left. *)
Lemma turn_succeeds (a : option string) (total i : nat) (t : Ticket) (rest : list Ticket)
    (fs : FS) :
  resolved_code a i t fs = Some 0 →
  attempted (fst (run_tickets a total i (t :: rest) fs))
  = t :: attempted (fst (run_tickets a total (S i) rest (fs_after (agent_run t fs))))
  ∧ snd (run_tickets a total i (t :: rest) fs)
    = snd (run_tickets a total (S i) rest (fs_after (agent_run t fs))).
Proof.
  intros [Hread Hres]%resolved_code_Some.
  rewrite run_tickets_turn. cbv zeta. rewrite Hread, Hres. cbn [negb Z.eqb fst snd].
  split; [|done].
  rewrite attempted_turn by apply runAgent_effects.
  cbn [attempted omap list_omap app].
  fold (attempted
          ((match rest with [] => [] | _ => [Sleep 500] end)
             ++ fst (run_tickets a total (S i) rest (fs_after (agent_run t fs))))).
  by rewrite sleep_not_attempted.
Qed.

Lemma loop_fail_stop (a : option string) (total : nat) (tickets : list Ticket) :
  ∀ i fs k t c,
    tickets !! k = Some t →
    (∀ j t', (j < k)%nat → tickets !! j = Some t' →
             resolved_code a (i + j) t' (tree_before tickets fs j) = Some 0) →
    resolved_code a (i + k) t (tree_before tickets fs k) = Some c →
    c ≠ 0 →
    attempted (fst (run_tickets a total i tickets fs)) = take (S k) tickets
    ∧ snd (run_tickets a total i tickets fs) = Exit c.
Proof.
  induction tickets as [|t0 rest IH]; intros i fs k t c Hk Hzero Hc Hne; [done|].
  destruct k as [|k].
  - injection Hk as ->. rewrite Nat.add_0_r in Hc. cbn [tree_before] in Hc.
    destruct (turn_fails a total i t rest fs c Hc Hne) as [-> ->].
    cbn [take]. by rewrite take_0.
  - pose proof (Hzero 0%nat t0 ltac:(lia) eq_refl) as Hfirst.
    rewrite Nat.add_0_r in Hfirst. cbn [tree_before] in Hfirst.
    destruct (turn_succeeds a total i t0 rest fs Hfirst) as [-> ->].
    destruct (IH (S i) (fs_after (agent_run t0 fs)) k t c) as [-> ->]; try done.
    + intros j t' Hj Ht'. specialize (Hzero (S j) t' ltac:(lia) Ht').
      by replace (i + S j)%nat with (S i + j)%nat in Hzero by lia.
    + by replace (i + S k)%nat with (S i + k)%nat in Hc by lia.
Qed.

Lemma loop_clean (a : option string) (total : nat) (tickets : list Ticket) :
  ∀ i fs,
    (∀ k t, tickets !! k = Some t →
            resolved_code a (i + k) t (tree_before tickets fs k) = Some 0) →
    attempted (fst (run_tickets a total i tickets fs)) = tickets
    ∧ snd (run_tickets a total i tickets fs) = Exit 0.
Proof.
  induction tickets as [|t0 rest IH]; intros i fs Hzero; [done|].
  pose proof (Hzero 0%nat t0 eq_refl) as Hfirst.
  rewrite Nat.add_0_r in Hfirst. cbn [tree_before] in Hfirst.
  destruct (turn_succeeds a total i t0 rest fs Hfirst) as [-> ->].
  destruct (IH (S i) (fs_after (agent_run t0 fs))) as [-> ->]; [|done].
  intros k t Hk. specialize (Hzero (S k) t Hk).
  by replace (i + S k)%nat with (S i + k)%nat in Hzero by lia.
Qed.

Lemma loop_spawns_bound (a : option string) (total : nat) (tickets : list Ticket) :
  ∀ i fs,
    (List.length (spawns (fst (run_tickets a total i tickets fs)))
     ≤ List.length (attempted (fst (run_tickets a total i tickets fs))))%nat.
Proof.
  induction tickets as [|t rest IH]; intros i fs; [simpl; lia|].
  rewrite run_tickets_turn. cbv zeta.
  destruct (negb (ticket_readable fs t)); [cbn; lia|].
  destruct (runAgent_effects a (logPath logsDir t (iso_time i)) (stage t)
              (agent_run t fs)) as [Hatt Hsp].
  specialize (IH (S i) (fs_after (agent_run t fs))).
  destruct (snd (runAgent _ _ _ _)) as [[c|]|c|];
    [destruct (negb (c =? 0))|..]; cbn [fst];
    rewrite ?attempted_app, ?spawns_app, ?Hatt, ?attempted_sleep, ?spawns_sleep,
      ?length_app;
    simpl; lia.
Qed.

Lemma runOrder_of_empty_snapshot (fs : FS) (dir : string) (stages : list Sel.t) :
  snapshot fs dir stages = [] → runOrder fs dir stages = [].
Proof. unfold runOrder. by intros ->. Qed.

Lemma parseArgs_exit (argv : list string) (code : Z) (out err : list message) :
  parseArgs argv = ParseExit code out err →
  (code = 0 ∧ out = [MsgHelp] ∧ err = [])
  ∨ (∃ stg, code = 1 ∧ out = [] ∧ err = [MsgUnknownStage stg]).
Proof.
  unfold parseArgs. destruct (parse_loop Opts.initial argv) as [o|[]].
  - destruct (first_unknown_stage _) as [stg|]; [|done].
    intros [= <- <- <-]. right. by exists stg.
  - intros [= <- <- <-]. by left.
Qed.

(** The version lookup prints no ticket banner and starts no agent. *)
Lemma attempted_lookup (l : list effect) :
  attempted (fst getTessVersion ++ l) = attempted l.
Proof. unfold getTessVersion. cbn. by destruct (String.eqb git_stderr EmptyString). Qed.

Lemma spawns_lookup (l : list effect) : spawns (fst getTessVersion ++ l) = spawns l.
Proof. unfold getTessVersion. cbn. by destruct (String.eqb git_stderr EmptyString). Qed.

(** The ways [main] can go. *)
Lemma main_cases (argv : list string) (fs : FS) :
  (∃ code out err,
     parseArgs argv = ParseExit code out err
     ∧ main argv fs = (map Out out ++ map Err err, Exit code))
  ∨ (∃ opts stages,
       parseArgs argv = Parsed opts stages
       ∧ let tickets := runOrder fs ticketsDir stages in
         let loop := run_tickets (Opts.agent opts) (List.length tickets) 0 tickets fs in
         let lookup := fst getTessVersion in
         let version := snd getTessVersion in
         (tickets = [] ∧ main argv fs = (lookup ++ [Out MsgNoTickets], Exit 0))
         ∨ (Opts.dryRun opts = true
            ∧ main argv fs = (lookup ++ [Out (MsgDryRun version tickets)], Exit 0))
         ∨ (Opts.dryRun opts = false
            ∧ main argv fs
              = (lookup ++ Out (MsgSnapshotted version (List.length tickets))
                   :: Mkdir logsDir :: fst loop,
                 snd loop))).
Proof.
  unfold main. destruct (parseArgs argv) as [opts stages|code out err].
  - right. exists opts, stages. split; [done|]. cbv zeta.
    destruct (snapshot fs ticketsDir stages) as [|t0 rest] eqn:Hsnap.
    { left. split; [|done]. by apply runOrder_of_empty_snapshot. }
    right. unfold runOrder. rewrite Hsnap.
    destruct (Opts.dryRun opts); [by left|]. right. split; [done|].
    by destruct (run_tickets _ _ _ _ _).
  - left. by exists code, out, err.
Qed.

Lemma main_attempted_prefix (argv : list string) (fs : FS) (opts : Opts.t)
    (stages : list Sel.t) :
  parseArgs argv = Parsed opts stages →
  attempted (fst (main argv fs)) `prefix_of` runOrder fs ticketsDir stages.
Proof.
  intros Hparse.
  destruct (main_cases argv fs) as [(c&o&e&Hp&_)|(opts'&stages'&Hp&Hmain)];
    [congruence|].
  rewrite Hparse in Hp. injection Hp as <- <-. cbv zeta in Hmain.
  destruct Hmain as [[_ ->]|[[_ ->]|[_ ->]]]; cbn [fst]; rewrite attempted_lookup;
    try apply prefix_nil.
  cbn. apply loop_attempted_prefix.
Qed.

Lemma main_attempted_in_snapshot (argv : list string) (fs : FS) (t : Ticket) :
  t ∈ attempted (fst (main argv fs)) →
  file t ∈ readdir fs (Path.join ticketsDir (stage t)).
Proof.
  destruct (main_cases argv fs) as [(c&o&e&Hp&Hmain)|(opts&stages&Hp&Hmain)].
  - rewrite Hmain.
    destruct (parseArgs_exit _ _ _ _ Hp) as [(_&->&->)|(stg&_&->&->)]; cbn;
      by intros ?%elem_of_nil.
  - intros Ht.
    pose proof (main_attempted_prefix argv fs opts stages Hp) as [k Hk].
    assert (t ∈ runOrder fs ticketsDir stages) as Hin.
    { rewrite Hk. apply elem_of_app. by left. }
    apply elem_of_runOrder, elem_of_snapshot in Hin as (sel & _ & Hin).
    apply discoverTickets_stage in Hin as [<- Hfile]. done.
Qed.

Lemma main_spawns_bound (argv : list string) (fs : FS) :
  (List.length (spawns (fst (main argv fs)))
   ≤ List.length (attempted (fst (main argv fs))))%nat.
Proof.
  destruct (main_cases argv fs) as [(c&o&e&Hp&Hmain)|(opts&stages&Hp&Hmain)].
  - rewrite Hmain.
    by destruct (parseArgs_exit _ _ _ _ Hp) as [(_&->&->)|(stg&_&->&->)].
  - cbv zeta in Hmain.
    destruct Hmain as [[_ ->]|[[_ ->]|[_ ->]]]; cbn [fst];
      rewrite attempted_lookup, spawns_lookup; try (cbn; lia).
    cbn. apply loop_spawns_bound.
Qed.

(** C1.  On a command line that parses, outside dry-run mode, the driver
    attempts the tickets of the run order one after the other, a leading
    part of that order.  If the invocations of the tickets before the
    [k]-th resolve with 0 and the one of the [k]-th resolves with a code
    [c] other than 0, the tickets attempted are the first [k+1] and the
    process exits with [c].  If every invocation resolves with 0, every
    ticket is attempted and the process exits with 0. *)
Theorem driver_fail_stop (argv : list string) (fs : FS) (opts : Opts.t)
    (stages : list Sel.t) :
  parseArgs argv = Parsed opts stages →
  Opts.dryRun opts = false →
  let tickets := runOrder fs ticketsDir stages in
  let code k t := resolved_code (Opts.agent opts) k t (tree_before tickets fs k) in
  attempted (fst (main argv fs)) `prefix_of` tickets
  ∧ (∀ k t c,
       tickets !! k = Some t →
       (∀ j t', (j < k)%nat → tickets !! j = Some t' → code j t' = Some 0) →
       code k t = Some c → c ≠ 0 →
       attempted (fst (main argv fs)) = take (S k) tickets
       ∧ snd (main argv fs) = Exit c)
  ∧ ((∀ k t, tickets !! k = Some t → code k t = Some 0) →
       attempted (fst (main argv fs)) = tickets
       ∧ snd (main argv fs) = Exit 0).
Proof.
  intros Hparse Hwet tickets code.
  split; [by apply main_attempted_prefix with opts|].
  destruct (main_cases argv fs) as [(c&o&e&Hp&_)|(opts'&stages'&Hp&Hmain)];
    [congruence|].
  rewrite Hparse in Hp. injection Hp as <- <-. cbv zeta in Hmain. fold tickets in Hmain.
  destruct Hmain as [[Hnil ->]|[[Hdry _]|[_ ->]]]; [| congruence |];
    cbn [fst snd]; rewrite attempted_lookup.
  - rewrite Hnil. split; [by intros k t c ?|done].
  - change (attempted (?a :: Mkdir ?d :: ?l)) with (attempted l).
    split.
    + intros k t c Hk Hzero Hc Hne.
      by apply (loop_fail_stop (Opts.agent opts) _ tickets 0 fs k t c).
    + intros Hzero. by apply (loop_clean (Opts.agent opts) _ tickets 0 fs).
Qed.

(** C2.  The tickets the driver attempts are a leading part of the run
    order computed from the tickets tree found at start, whatever the
    agents do to the tree during the run.  So every attempted ticket was
    listed in its stage directory at start, a file that was not listed
    there at start is never attempted, and no process is started except
    for an attempted ticket. *)
Theorem snapshot_isolation (argv : list string) (fs : FS) :
  (∀ opts stages,
     parseArgs argv = Parsed opts stages →
     attempted (fst (main argv fs)) `prefix_of` runOrder fs ticketsDir stages)
  ∧ (∀ t, t ∈ attempted (fst (main argv fs)) →
          file t ∈ readdir fs (Path.join ticketsDir (stage t)))
  ∧ (∀ stg e,
       e ∉ readdir fs (Path.join ticketsDir stg) →
       ∀ t, t ∈ attempted (fst (main argv fs)) → ¬ (stage t = stg ∧ file t = e))
  ∧ (List.length (spawns (fst (main argv fs)))
     ≤ List.length (attempted (fst (main argv fs))))%nat.
Proof.
  split; [apply main_attempted_prefix|].
  split; [apply main_attempted_in_snapshot|].
  split; [|apply main_spawns_bound].
  intros stg e Hnew t Ht [<- <-]. by apply Hnew, main_attempted_in_snapshot with argv.
Qed.


(** A terminal result object as the specification describes it can be
    rendered. *)
Lemma is_terminal_result_renders (obj : json) :
  is_terminal_result obj → renders_as_result obj = true.
Proof.
  intros (Htype & Hcost & Hdur & Hres). unfold renders_as_result. rewrite Htype.
  destruct (field obj "total_cost_usd") as [[]|]; try done;
    destruct (field obj "duration_ms") as [[]|]; try done;
    by destruct (field obj "result") as [[]|].
Qed.

(** What the Claude normalizer returns for a result object that can be
    rendered. *)
Lemma formatClaudeJsonLine_renders (line : string) (obj : json) :
  JSON_parse line = Some obj → renders_as_result obj = true →
  formatClaudeJsonLine line
  = {| text := render obj; done := true;
       exitCode := Some (if error_flag obj then 1 else 0) |}.
Proof.
  intros Hparse Hren. unfold renders_as_result in Hren.
  apply andb_prop in Hren as [Hren Hres]. apply andb_prop in Hren as [Hren Hdur].
  apply andb_prop in Hren as [Htype Hcost].
  unfold formatClaudeJsonLine. rewrite Hparse.
  assert (field_is obj "type" "system" = false
          ∧ field_is obj "type" "assistant" = false
          ∧ field_is obj "type" "user" = false) as (-> & -> & ->).
  { unfold field_is in *. destruct (field obj "type") as [[| | |t| |]|]; try done.
    apply String.eqb_eq in Htype as ->. done. }
  rewrite Htype. cbn [andb orb].
  apply negb_true_iff in Hcost, Hdur, Hres. by rewrite Hcost, Hdur, Hres.
Qed.

(** What the Claude normalizer returns for a terminal result object. *)
Lemma formatClaudeJsonLine_result (line : string) (obj : json) :
  JSON_parse line = Some obj → is_terminal_result obj →
  formatClaudeJsonLine line
  = {| text := render obj; done := true;
       exitCode := Some (if error_flag obj then 1 else 0) |}.
Proof.
  intros Hparse Hres. apply formatClaudeJsonLine_renders; [done|].
  by apply is_terminal_result_renders.
Qed.



(** An unknown stage ends the run in [parseArgs]: one message on standard
    error, exit code 1, nothing else done. *)
Lemma unknown_stage_exits_at_once (argv : list string) (fs : FS) (stg : string) :
  parseArgs argv = ParseExit 1 [] [MsgUnknownStage stg] →
  main argv fs = ([Err (MsgUnknownStage stg)], Exit 1).
Proof. unfold main. by intros ->. Qed.

(** An agent name that [agents] does not have is found in [runAgent], in
    the turn of the first ticket, after the log of that ticket has been
    written. *)
Lemma unknown_agent_turn (a : option string) (total i : nat) (t : Ticket)
    (rest : list Ticket) (fs : FS) :
  agents a = Missing → ticket_readable fs t = true →
  run_tickets a total i (t :: rest) fs
  = ([Out (MsgTicketBanner (S i) t);
      WriteFile (logPath logsDir t (iso_time i));
      Err (MsgUnknownAgent a)],
     Exit 1).
Proof.
  intros Hmiss Hread. rewrite run_tickets_turn. cbv zeta. rewrite Hread.
  unfold runAgent. by rewrite Hmiss.
Qed.

End DriverFacts.

Lemma driver_fail_stop_witness :
  (∃ opts stages,
     parseArgs ["--stages"; "fix,implement"] = Parsed opts stages
     ∧ Opts.dryRun opts = false)
  ∧ snd (@main Sample.host Sample.world ["--stages"; "fix,implement"] Sample.repo_tree)
    = Exit 1
  ∧ map file (attempted (fst (@main Sample.host Sample.world
                                ["--stages"; "fix,implement"] Sample.repo_tree)))
    = ["5-a.md"; "3-c.md"].
Proof.
  split; [by eexists _, _|].
  destruct (@driver_fail_stop Sample.host Sample.world
              ["--stages"; "fix,implement"] Sample.repo_tree _ _ eq_refl eq_refl)
    as (_ & Hfail & _).
  destruct (Hfail 1%nat (mkTicket "3-c.md" "/repo/tickets/fix/3-c.md" "fix" 3) 1)
    as [Hatt Hexit].
  - reflexivity.
  - intros j t' Hj. destruct j as [|j]; [|lia]. intros [= <-]. reflexivity.
  - reflexivity.
  - lia.
  - split; [exact Hexit|]. rewrite Hatt. reflexivity.
Defined.


(** What the first agent writes into [implement] during the run is not
    taken up by the run. *)
Example agent_output_waits_for_next_run :
  let argv := ["--stages"; "fix,implement"; "--min-priority"; "4"] in
  let run := @main Sample.host Sample.world argv Sample.repo_tree in
  map path (attempted (fst run))
  = ["/repo/tickets/fix/5-a.md"; "/repo/tickets/implement/5-b.md"]
  ∧ snd run = Exit 0
  ∧ readdir (fs_after (@agent_run Sample.world
                         (mkTicket "5-a.md" "/repo/tickets/fix/5-a.md" "fix" 5)
                         Sample.repo_tree))
      "/repo/tickets/implement"
    = ["5-b.md"; "5-a.md"].
Proof. vm_compute. repeat split. Qed.

(** C8, the run on [--agent bogus].  With a ticket to process the run
    ends with exit code 1 and the message on standard error, and no
    process is started, but the log file of the first ticket has been
    written by then.  Without a ticket, or in dry-run mode, the unknown
    agent is not reported at all and the exit code is 0: the run looks up
    the version and prints that there are no tickets. *)
Theorem unknown_agent_found_after_log_written :
  let run := @main Sample.host Sample.world ["--agent"; "bogus"] Sample.repo_tree in
  (snd run = Exit 1
   ∧ stderr_messages (fst run) = [MsgUnknownAgent (Some "bogus")]
   ∧ spawns (fst run) = []
   ∧ written (fst run) = ["/repo/tickets/.logs/5-a.fix.2026-01-01T00-00-00-000Z.log"])
  ∧ @main Sample.host Sample.world ["--agent"; "bogus"] Sample.empty_tree
    = ([ExecSync "git log -1 --format=%h"; Out MsgNoTickets], Exit 0)
  ∧ snd (@main Sample.host Sample.world ["--agent"; "bogus"; "--dry-run"]
           Sample.repo_tree) = Exit 0
  ∧ stderr_messages (fst (@main Sample.host Sample.world
                            ["--agent"; "bogus"; "--dry-run"] Sample.repo_tree)) = [].
Proof. vm_compute. repeat split. Qed.

(* ------------------------------------------------------------------ *)
(** ** More on the Ticket Store Reader *)

Lemma StronglySorted_weaken_in {A : Type} (R S : A → A → Prop) (l : list A) :
  (∀ a b, a ∈ l → b ∈ l → R a b → S a b) → StronglySorted R l → StronglySorted S l.
Proof.
  intros HRS Hl. induction Hl as [|x l Hl IH Hx]; constructor.
  - apply IH. intros a b Ha Hb. apply HRS; by right.
  - rewrite Forall_forall in *. intros y Hy. apply HRS; [by left|by right|by apply Hx].
Qed.

Lemma array_sort_of_sorted {A : Type} (cmp : A → A → Z) (l : list A) :
  StronglySorted (λ a b, cmp a b ≤ 0) l → Js.array_sort cmp l = l.
Proof.
  induction 1 as [|x l Hl IH Hx]; [done|].
  change (Js.array_sort cmp (x :: l)) with (Js.sort_insert cmp x (Js.array_sort cmp l)).
  rewrite IH. destruct l as [|y l]; [done|].
  cbn [Js.sort_insert]. apply Forall_cons in Hx as [Hxy _].
  by destruct (Z.leb_spec (cmp x y) 0); [|lia].
Qed.

Lemma discover_entry_eligible (stageDir stg : string) (m : Js.jsnum) (e : string) :
  discover_entry stageDir stg m e
  = if eligible m e
    then Some (mkTicket e (Path.join stageDir e) stg (parsePriority e))
    else None.
Proof.
  unfold discover_entry, eligible.
  destruct (Js.endsWith e ".md"), (PRIORITY_PREFIX_test e); cbn [negb orb andb]; try done.
  by destruct (Js.lt (Js.Num (parsePriority e)) m).
Qed.

Lemma stage_candidates_files (fs : FS) (dir stg : string) (m : Js.jsnum) :
  map file (stage_candidates fs dir stg m)
  = List.filter (eligible m) (readdir fs (Path.join dir stg)).
Proof.
  unfold stage_candidates, readdir.
  destruct (fs !! Path.join dir stg) as [entries|]; [|done]. cbn [Js.nullish].
  induction entries as [|e r IH]; [done|].
  cbn [omap list_omap List.filter]. rewrite discover_entry_eligible.
  destruct (eligible m e); cbn; by rewrite <- IH.
Qed.

(** X1.  [discoverTickets] returns the eligible entries of the stage
    directory, each once per listing, as tickets that carry the path of
    the entry inside the stage directory; the tickets are in descending
    order of priority and tickets of one priority stay in the order of the
    listing.  A stage directory that cannot be read gives no ticket. *)
Theorem discoverTickets_sorted_listing (fs : FS) (dir stg : string) (m : Js.jsnum) :
  discoverTickets fs dir stg m ≡ₚ stage_candidates fs dir stg m
  ∧ map file (stage_candidates fs dir stg m)
    = List.filter (eligible m) (readdir fs (Path.join dir stg))
  ∧ StronglySorted (λ a b, priority b ≤ priority a) (discoverTickets fs dir stg m)
  ∧ (∀ p, List.filter (λ t, priority t =? p) (discoverTickets fs dir stg m)
          = List.filter (λ t, priority t =? p) (stage_candidates fs dir stg m))
  ∧ (∀ t, t ∈ discoverTickets fs dir stg m →
          path t = Path.join (Path.join dir stg) (file t))
  ∧ (fs !! Path.join dir stg = None → discoverTickets fs dir stg m = []).
Proof.
  split; [apply array_sort_perm|]. split; [apply stage_candidates_files|].
  split; [|split; [|split]].
  - eapply StronglySorted_weaken;
      [|apply (array_sort_sorted by_priority_desc);
        [apply by_priority_desc_total | apply by_priority_desc_trans]].
    intros a b. unfold by_priority_desc. lia.
  - intros p. apply array_sort_stable. intros a b Ha Hb. unfold by_priority_desc. lia.
  - intros t. rewrite elem_of_discoverTickets, elem_of_stage_candidates.
    intros (e & _ & (_ & _ & _ & ->)%discover_entry_Some). done.
  - intros Hnone. unfold discoverTickets, stage_candidates. by rewrite Hnone.
Qed.

Lemma digit_value_range (c : ascii) :
  Js.is_digit c = true → 0 ≤ Js.digit_value c ≤ 9.
Proof.
  unfold Js.is_digit, Js.digit_value. intros [H1 H2]%andb_prop.
  apply Nat.leb_le in H1, H2. lia.
Qed.

Lemma decimal_of_digits_nonneg (s d t : string) :
  Js.span_digits s = (d, t) → ∀ acc, 0 ≤ acc → 0 ≤ Js.decimal_from acc d.
Proof.
  revert d t. induction s as [|a s IH]; intros d t; simpl.
  { by intros [= <- _] acc Hacc. }
  destruct (Js.is_digit a) eqn:Ha; [|by intros [= <- _] acc Hacc].
  destruct (Js.span_digits s) as [d' t'] eqn:Hs. intros [= <- _] acc Hacc.
  simpl. apply (IH d' t' eq_refl). pose proof (digit_value_range a Ha). lia.
Qed.

Lemma parsePriority_nonneg (filename : string) : 0 ≤ parsePriority filename.
Proof.
  unfold parsePriority, PRIORITY_PREFIX_exec.
  destruct (Js.span_digits (Path.basename filename)) as [d t] eqn:Hspan.
  destruct d as [|c d]; [done|]. destruct t as [|dash t]; [done|].
  destruct (Ascii.eqb_spec dash "-") as [->|];
    [|by destruct dash as [[] [] [] [] [] [] [] []]].
  by apply (decimal_of_digits_nonneg _ _ _ Hspan).
Qed.

(** X2.  A parsed priority is never negative, and it is 0 for a name
    without the priority prefix.  So a threshold of 0 or less filters
    nothing: discovery returns what it returns without a threshold. *)
Theorem threshold_at_most_zero_filters_nothing (fs : FS) (dir stg : string) (N : Z) :
  N ≤ 0 →
  (∀ filename, 0 ≤ parsePriority filename)
  ∧ (∀ filename, PRIORITY_PREFIX_test (Path.basename filename) = false →
                 parsePriority filename = 0)
  ∧ discoverTickets fs dir stg (Js.Num N) = discoverTickets fs dir stg Js.NaN.
Proof.
  intros HN. split; [apply parsePriority_nonneg|]. split.
  - intros filename. unfold PRIORITY_PREFIX_test, parsePriority.
    by destruct (PRIORITY_PREFIX_exec (Path.basename filename)).
  - unfold discoverTickets, stage_candidates. f_equal.
    destruct (fs !! Path.join dir stg) as [entries|]; [|done].
    induction entries as [|e r IH]; [done|]. cbn [omap list_omap].
    rewrite IH. rewrite !discover_entry_eligible. unfold eligible. cbn [Js.lt].
    pose proof (parsePriority_nonneg e).
    by destruct (Z.ltb_spec (parsePriority e) N); [lia|].
Qed.

Lemma threshold_at_most_zero_filters_nothing_witness :
  -2 ≤ 0
  ∧ map file (discoverTickets Sample.tree_with_low "tickets" "fix" (Js.Num (-2)))
    = ["5-a.md"; "1-low.md"].
Proof.
  assert (-2 ≤ 0) as HN by lia. split; [exact HN|].
  rewrite (proj2 (proj2 (threshold_at_most_zero_filters_nothing
                           Sample.tree_with_low "tickets" "fix" (-2) HN))).
  reflexivity.
Defined.

Lemma snapshot_sorted_from (stages : list Sel.t) (fs : FS) (dir : string)
    (l : list Sel.t) (i : nat) :
  (∀ k sel, l !! k = Some sel →
            stage_position stages (Sel.stage sel) = Some (i + k)%nat) →
  StronglySorted (λ a b, by_stage_then_priority (stageOrder stages) a b ≤ 0)
    (snapshot fs dir l).
Proof.
  revert i. induction l as [|x r IH]; intros i Hpos; [constructor|].
  unfold snapshot in *. cbn [flat_map]. apply StronglySorted_app. split; [|split].
  - intros a b Ha Hb.
    apply discoverTickets_stage in Ha as [Ha _].
    apply list_elem_of_In, in_flat_map in Hb as (sel & Hsel & Hb).
    apply list_elem_of_In, discoverTickets_stage in Hb as [Hb _].
    apply list_elem_of_In, list_elem_of_lookup in Hsel as [k Hk].
    apply by_stage_then_priority_le. left. unfold stage_rank.
    rewrite !stageOrder_lookup, Ha, Hb.
    rewrite (Hpos 0%nat x eq_refl), (Hpos (S k) sel Hk). cbn [Js.nullish]. lia.
  - eapply StronglySorted_weaken_in;
      [|apply (array_sort_sorted by_priority_desc);
        [apply by_priority_desc_total | apply by_priority_desc_trans]].
    intros a b Ha Hb Hab.
    apply (discoverTickets_stage fs dir) in Ha as [Ha _].
    apply (discoverTickets_stage fs dir) in Hb as [Hb _].
    apply by_stage_then_priority_le. right. unfold stage_rank.
    rewrite Ha, Hb. unfold by_priority_desc in Hab. split; [done|lia].
  - apply (IH (S i)). intros k sel Hk.
    rewrite (Hpos (S k) sel Hk). f_equal. lia.
Qed.

(** X3.  When the selection names no stage twice, the list built by the
    discovery loop is already in run order: the global sort leaves it as it
    is, so the run order is the tickets of the first selected stage by
    descending priority, then those of the second, and so on. *)
Theorem distinct_stages_need_no_global_sort (fs : FS) (dir : string) (stages : list Sel.t) :
  NoDup (map Sel.stage stages) →
  runOrder fs dir stages = snapshot fs dir stages.
Proof.
  intros Hnd. unfold runOrder. apply array_sort_of_sorted.
  apply (snapshot_sorted_from stages fs dir stages 0).
  intros k sel Hk. by apply (stage_position_from_NoDup stages 0 k sel).
Qed.

Lemma distinct_stages_need_no_global_sort_witness :
  NoDup (map Sel.stage Sample.stages)
  ∧ runOrder Sample.tree "tickets" Sample.stages
    = snapshot Sample.tree "tickets" Sample.stages.
Proof.
  assert (NoDup (map Sel.stage Sample.stages)) as Hnd.
  { vm_compute. repeat constructor; intros Hin;
      repeat (apply elem_of_cons in Hin as [?|Hin]; [done|]); by apply elem_of_nil in Hin. }
  split; [exact Hnd|].
  exact (distinct_stages_need_no_global_sort Sample.tree "tickets" Sample.stages Hnd).
Defined.

(* ------------------------------------------------------------------ *)
(** ** More on the command line *)

Lemma is_pending_stage_elem (s : string) :
  is_pending_stage s = true ↔ s ∈ PENDING_STAGES.
Proof.
  unfold is_pending_stage. rewrite existsb_exists. split.
  - intros (x & Hx & ->%String.eqb_eq). by apply list_elem_of_In.
  - intros Hs. exists s. split; [by apply list_elem_of_In | apply String.eqb_refl].
Qed.

Lemma first_unknown_stage_None (stages : list Sel.t) :
  first_unknown_stage stages = None →
  ∀ sel, sel ∈ stages → Sel.stage sel ∈ PENDING_STAGES.
Proof.
  unfold first_unknown_stage. intros Hnone sel Hsel.
  destruct (List.find _ stages) as [bad|] eqn:Hfind; [done|].
  apply list_elem_of_In in Hsel.
  pose proof (List.find_none _ _ Hfind sel Hsel) as Hok. cbn beta in Hok.
  apply is_pending_stage_elem. by destruct (is_pending_stage (Sel.stage sel)).
Qed.

Lemma first_unknown_stage_Some (stages : list Sel.t) (stg : string) :
  first_unknown_stage stages = Some stg →
  stg ∈ map Sel.stage stages ∧ stg ∉ PENDING_STAGES.
Proof.
  unfold first_unknown_stage.
  destruct (List.find _ stages) as [bad|] eqn:Hfind; [|done]. intros [= <-].
  apply List.find_some in Hfind as [Hin Hbad]. split.
  - apply list_elem_of_In, in_map, Hin.
  - rewrite <- is_pending_stage_elem. by destruct (is_pending_stage (Sel.stage bad)).
Qed.

(** X4.  [parseArgs] ends in one of three ways: the help (exit 0), an
    unknown stage (exit 1 with a message that names a stage of the
    selection made by the options read that is not one of the four pending
    stages), or options whose selected stages are all pending stages.  In
    the last case every ticket of the run order is in a pending stage, so
    the stage that follows it is defined. *)
Theorem parseArgs_selects_pending_stages (argv : list string) :
  match parseArgs argv with
  | ParseExit code out err =>
      (code = 0 ∧ out = [MsgHelp] ∧ err = [])
      ∨ (∃ stg opts,
           code = 1 ∧ out = [] ∧ err = [MsgUnknownStage stg]
           ∧ (stg ∉ PENDING_STAGES)
           ∧ parse_loop Opts.initial argv = inl opts
           ∧ stg ∈ map Sel.stage
                     (parseStages
                        (Js.nullish (Opts.stagesRaw opts) (join_comma PENDING_STAGES))
                        (Opts.minPriority opts)))
  | Parsed opts stages =>
      stages ≠ []
      ∧ (∀ sel, sel ∈ stages → Sel.stage sel ∈ PENDING_STAGES)
      ∧ ∀ fs dir t, t ∈ runOrder fs dir stages →
          stage t ∈ PENDING_STAGES ∧ is_Some (NEXT_STAGE (stage t))
  end.
Proof.
  unfold parseArgs. destruct (parse_loop Opts.initial argv) as [o|[]]; [|by left].
  set (stages := parseStages _ _).
  destruct (first_unknown_stage stages) as [stg|] eqn:Hunk.
  - right. exists stg, o. by apply first_unknown_stage_Some in Hunk as [? ?].
  - pose proof (first_unknown_stage_None stages Hunk) as Hall.
    split; [|split; [exact Hall|]].
    + subst stages. unfold parseStages.
      by destruct (Js.split "," _) eqn:Hsplit;
        [destruct (Js.nullish _ _) as [|c r]; simpl in Hsplit;
         [|destruct (Ascii.eqb c ","); [|destruct (Js.split "," r)]]|].
    + intros fs dir t Ht.
      apply elem_of_runOrder, elem_of_snapshot in Ht as (sel & Hsel & Ht).
      apply discoverTickets_stage in Ht as [-> _].
      pose proof (Hall sel Hsel) as Hp. split; [exact Hp|].
      unfold PENDING_STAGES in Hp.
      repeat (apply elem_of_cons in Hp as [->|Hp]; [by eexists|]).
      by apply elem_of_nil in Hp.
Qed.

(** X5.  Where the argument loop reaches an option after the words [pre]:
    [--help] ends the run with the help and exit 0 whatever precedes or
    follows it, an unknown stage included; [--stages] as the last word
    selects the four pending stages, also when an earlier [--stages] chose
    otherwise; [--min-priority] as the last word leaves [NaN] as threshold;
    [--agent] as the last word leaves no agent, which [agents] does not
    know. *)
Theorem option_at_the_end_or_help
    (pre : list string) (reached : Opts.t) :
  (∀ l, parse_loop Opts.initial (pre ++ l) = parse_loop reached l) →
  (∀ rest, parseArgs (pre ++ "--help" :: rest) = ParseExit 0 [MsgHelp] [])
  ∧ parseArgs (pre ++ ["--stages"])
    = Parsed (Opts.set_stagesRaw None reached)
        (map (λ s, Sel.mk s (Opts.minPriority reached)) PENDING_STAGES)
  ∧ parse_loop Opts.initial (pre ++ ["--min-priority"])
    = inl (Opts.set_minPriority Js.NaN reached)
  ∧ parse_loop Opts.initial (pre ++ ["--agent"]) = inl (Opts.set_agent None reached)
  ∧ (∀ (HostOps : Host), agents None = Missing).
Proof.
  intros Hpre. split; [|split; [|split; [|split]]].
  - intros rest. unfold parseArgs. by rewrite Hpre.
  - unfold parseArgs. by rewrite Hpre.
  - by rewrite Hpre.
  - by rewrite Hpre.
  - done.
Qed.

Lemma option_at_the_end_or_help_witness :
  (∀ l, parse_loop Opts.initial (["--stages"; "bogus"] ++ l)
        = parse_loop (Opts.set_stagesRaw (Some "bogus") Opts.initial) l)
  ∧ parseArgs ["--stages"; "bogus"; "--help"; "--agent"] = ParseExit 0 [MsgHelp] []
  ∧ ∃ opts stages,
      parseArgs ["--stages"; "bogus"; "--stages"] = Parsed opts stages
      ∧ map Sel.stage stages = PENDING_STAGES.
Proof.
  assert (∀ l, parse_loop Opts.initial (["--stages"; "bogus"] ++ l)
               = parse_loop (Opts.set_stagesRaw (Some "bogus") Opts.initial) l) as Hpre
    by (intros l; reflexivity).
  split; [exact Hpre|].
  destruct (option_at_the_end_or_help _ _ Hpre) as (Hhelp & Hstages & _).
  split; [exact (Hhelp ["--agent"])|].
  eexists _, _. split; [exact Hstages|]. reflexivity.
Defined.

(* ------------------------------------------------------------------ *)
(** ** Strings *)

Lemma append_cons (x : ascii) (a b : string) : String x a +:+ b = String x (a +:+ b).
Proof. reflexivity. Qed.

Lemma append_assoc (a b c : string) : (a +:+ b) +:+ c = a +:+ (b +:+ c).
Proof.
  induction a as [|x a IH]; [reflexivity|]. rewrite !append_cons. by rewrite IH.
Qed.

Lemma append_empty_r (a : string) : a +:+ EmptyString = a.
Proof.
  induction a as [|x a IH]; [reflexivity|]. rewrite append_cons. by rewrite IH.
Qed.

Lemma length_append (a b : string) :
  String.length (a +:+ b) = (String.length a + String.length b)%nat.
Proof.
  induction a as [|x a IH]; [reflexivity|].
  rewrite append_cons. cbn [String.length Nat.add]. by rewrite IH.
Qed.

Lemma substring_whole (b : string) : substring 0 (String.length b) b = b.
Proof. induction b as [|x b IH]; cbn [String.length substring]; congruence. Qed.

Lemma substring_suffix (a b : string) :
  substring (String.length a) (String.length b) (a +:+ b) = b.
Proof.
  induction a as [|x a IH]; [apply substring_whole|].
  rewrite append_cons. cbn [String.length substring]. exact IH.
Qed.

Lemma substring_prefix (a b : string) : substring 0 (String.length a) (a +:+ b) = a.
Proof.
  induction a as [|x a IH]; [by destruct b|].
  rewrite append_cons. cbn [String.length substring]. by rewrite IH.
Qed.

Lemma endsWith_append (a suffix : string) : Js.endsWith (a +:+ suffix) suffix = true.
Proof.
  unfold Js.endsWith. rewrite length_append.
  replace (String.length a + String.length suffix - String.length suffix)%nat
    with (String.length a) by lia.
  rewrite substring_suffix, String.eqb_refl, andb_true_r.
  apply Nat.leb_le. lia.
Qed.

Lemma replace_suffix_append (a suffix repl : string) :
  replace_suffix suffix repl (a +:+ suffix) = a +:+ repl.
Proof.
  unfold replace_suffix. rewrite endsWith_append, length_append.
  replace (String.length a + String.length suffix - String.length suffix)%nat
    with (String.length a) by lia.
  by rewrite substring_prefix.
Qed.

Lemma split_nonempty (sep : ascii) (s : string) : Js.split sep s ≠ [].
Proof.
  destruct s as [|c r]; simpl; [done|].
  destruct (Ascii.eqb c sep); [done|]. by destruct (Js.split sep r).
Qed.

(** Splitting a text that arrives in two parts: the pieces completed by
    the first part, then the pieces of what the first part left open
    followed by the second part. *)
Lemma split_append (sep : ascii) (u v : string) :
  Js.split sep (u +:+ v)
  = removelast (Js.split sep u)
    ++ Js.split sep (List.last (Js.split sep u) EmptyString +:+ v).
Proof.
  induction u as [|c r IH]; [done|].
  rewrite append_cons. cbn [Js.split]. destruct (Ascii.eqb c sep) eqn:Hc.
  - rewrite IH. pose proof (split_nonempty sep r).
    destruct (Js.split sep r) as [|p ps] eqn:Hr; [done|]. done.
  - rewrite IH. pose proof (split_nonempty sep r).
    destruct (Js.split sep r) as [|p [|p' ps]] eqn:Hr; [done| |].
    + cbn [removelast List.last app]. rewrite append_cons. cbn [Js.split].
      by rewrite Hc.
    + done.
Qed.

(* ------------------------------------------------------------------ *)
(** ** More on the normalizers and the supervisor *)

Section ClaudeLines.
Context `{HostOps : Host}.

(** X6.  The Claude normalizer reports [done] for a line exactly when the
    line parses as an object of type [result] whose result line can be
    built: its cost is a number when it has one, and its elapsed time and
    its result can be converted to a primitive (every terminal result
    object of the specification is of that kind).  The exit code it names
    is then 0 or 1, and no other event names an exit code.  A line that is
    not JSON comes back as it is, and the text returned for it ends with a
    line feed. *)
Theorem claude_done_only_for_result (line : string) :
  (done (formatClaudeJsonLine line) = true
   ↔ ∃ obj, JSON_parse line = Some obj ∧ renders_as_result obj = true)
  ∧ (∀ obj, JSON_parse line = Some obj → is_terminal_result obj →
            done (formatClaudeJsonLine line) = true)
  ∧ (if done (formatClaudeJsonLine line)
     then exitCode (formatClaudeJsonLine line) = Some 0
          ∨ exitCode (formatClaudeJsonLine line) = Some 1
     else exitCode (formatClaudeJsonLine line) = None)
  ∧ (JSON_parse line = None → formatClaudeJsonLine line = plain_line line)
  ∧ Js.endsWith (text (plain_line line)) newline = true.
Proof.
  split; [split|split; [|split; [|split]]].
  - unfold formatClaudeJsonLine, renders_as_result.
    destruct (JSON_parse line) as [obj|]; [|done].
    destruct (field_is obj "type" "system" && field_is obj "subtype" "init");
      [by destruct (conversion_throws (field obj "session_id"))|].
    destruct (field_is obj "type" "assistant" || field_is obj "type" "user").
    { by destruct (render_blocks obj). }
    destruct (field_is obj "type" "result") eqn:Htype; [|done].
    destruct (toFixed_throws (field obj "total_cost_usd")) eqn:Hcost; [done|].
    destruct (conversion_throws (field obj "duration_ms")) eqn:Hdur; [done|].
    destruct (conversion_throws (field obj "result")) eqn:Hres; [done|].
    intros _. exists obj. by rewrite Htype, Hcost, Hdur, Hres.
  - intros (obj & Hparse & Hres). by rewrite (formatClaudeJsonLine_renders line obj).
  - intros obj Hparse Hres. by rewrite (formatClaudeJsonLine_result line obj).
  - unfold formatClaudeJsonLine.
    destruct (JSON_parse line) as [obj|]; [|done].
    destruct (field_is obj "type" "system" && field_is obj "subtype" "init");
      [by destruct (conversion_throws (field obj "session_id"))|].
    destruct (field_is obj "type" "assistant" || field_is obj "type" "user").
    { by destruct (render_blocks obj). }
    destruct (field_is obj "type" "result"); [|done].
    destruct (toFixed_throws (field obj "total_cost_usd")
              || conversion_throws (field obj "duration_ms")
              || conversion_throws (field obj "result")); [done|].
    cbn [done exitCode]. destruct (truthy (field obj "is_error")); auto.
  - unfold formatClaudeJsonLine. by intros ->.
  - unfold plain_line. cbn [text].
    destruct (Js.endsWith line newline) eqn:Hends; [done|apply endsWith_append].
Qed.

End ClaudeLines.

Section SupervisorInvariants.
Context `{HostOps : Host} (fmt : option (string → StreamEvent)).

Lemma process_lines_not_done (now : Z) (lines : list string) (s : Sup.state) :
  (∀ line, reports_done fmt line = false) →
  let s' := fold_left (λ st line, Sup.processLine fmt now line st) lines s in
  Sup.resultExitCode s' = Sup.resultExitCode s
  ∧ Sup.idleTimer s' = Sup.idleTimer s
  ∧ Sup.buf s' = Sup.buf s ∧ Sup.settled s' = Sup.settled s
  ∧ Sup.promise s' = Sup.promise s ∧ Sup.kills s' = Sup.kills s.
Proof.
  intros Hno. revert s. induction lines as [|l lines IH]; intros s; [done|].
  cbn [fold_left]. destruct (IH (Sup.processLine fmt now l s)) as (->&->&->&->&->&->).
  by apply processLine_not_done.
Qed.


Lemma step_keeps_running (e : Sup.event) (s : Sup.state) :
  (∀ line, reports_done fmt line = false) →
  running s → running (Sup.step fmt s e).
Proof.
  intros Hno [Hres Htimer]. unfold running.
  destruct e as [now chunk|now chunk|now|now code|now]; cbn [Sup.step].
  - unfold Sup.on_stdout. rewrite Hres.
    set (s0 := Sup.set_buf _ _).
    destruct (process_lines_not_done now
                (removelast (Js.split LF (Sup.buf (Sup.resetIdleTimer now s)
                                          +:+ Buffer_toString chunk)))
                s0 Hno) as (-> & -> & _).
    split; [done|]. right. by eexists.
  - unfold Sup.on_stderr. rewrite Hres. split; [done|]. right. by eexists.
  - unfold Sup.on_timer. destruct (Sup.idleTimer s) as [[kind due]|] eqn:Ht.
    + destruct (due <=? now); [split; [done|by left]|].
      split; [done|]. by rewrite Ht.
    + split; [done|]. by rewrite Ht.
  - unfold Sup.on_close.
    set (s1 := if String.eqb (Sup.buf s) EmptyString then s else _).
    assert (Sup.resultExitCode s1 = None ∧ Sup.idleTimer s1 = Sup.idleTimer s)
      as [Hres1 Ht1].
    { subst s1. destruct (String.eqb (Sup.buf s) EmptyString); [done|].
      by destruct (processLine_not_done fmt now (Js.trimEnd (Sup.buf s)) s (Hno _))
        as (-> & -> & _). }
    unfold Sup.settle. destruct (Sup.settled s1).
    + split; [done|]. by rewrite Ht1.
    + split; [done|by left].
  - done.
Qed.

Lemma run_keeps_running (events : list Sup.event) (s : Sup.state) :
  (∀ line, reports_done fmt line = false) →
  running s → running (Sup.run fmt s events).
Proof.
  intros Hno. revert s. induction events as [|e events IH]; intros s Hs; [done|].
  cbn [Sup.run fold_left]. apply IH. by apply step_keeps_running.
Qed.

Lemma settle_keeps_result (code : Z) (s : Sup.state) :
  Sup.resultExitCode (Sup.settle code s) = Sup.resultExitCode s.
Proof. unfold Sup.settle. by destruct (Sup.settled s). Qed.

Lemma on_close_without_done (now : Z) (code : option Z) (s : Sup.state) :
  (∀ line, reports_done fmt line = false) →
  Sup.resultExitCode s = None → Sup.settled s = false → Sup.promise s = None →
  Sup.promise (Sup.on_close fmt now code s) = Some (Resolved (Js.nullish code 1)).
Proof.
  intros Hno Hres Hs Hp.
  destruct (on_close_resolves fmt now code s Hs Hp) as [-> _].
  unfold Sup.on_close. rewrite settle_keeps_result.
  destruct (String.eqb (Sup.buf s) EmptyString); [by rewrite Hres|].
  destruct (processLine_not_done fmt now (Js.trimEnd (Sup.buf s)) s (Hno _)) as (-> & _).
  by rewrite Hres.
Qed.

End SupervisorInvariants.

Section RawAgents.
Context `{HostOps : Host}.

Lemma auggie_never_done (instructionFile dir stg line : string) :
  reports_done (formatStream (auggie instructionFile dir stg)) line = false.
Proof. done. Qed.

Lemma cursor_never_done (instructionFile dir stg line : string) :
  reports_done (formatStream (cursor instructionFile dir stg)) line = false.
Proof. done. Qed.

(** X7.  Under the [auggie] and [cursor] adapters no output of the agent
    ever latches a result or arms the grace timer, whatever the agent
    prints and in whatever order the events arrive; when the process
    closes, the invocation resolves with the exit code of the process, or
    with 1 when the process has none. *)
Theorem raw_agents_resolve_with_process_code
    (instructionFile dir stg : string) (started : Z) (events : list Sup.event) :
  let holds (fmt : option (string → StreamEvent)) :=
    running (Sup.supervise fmt started events)
    ∧ ∀ now code,
        Sup.settled (Sup.supervise fmt started events) = false →
        Sup.promise (Sup.supervise fmt started events) = None →
        Sup.promise (Sup.supervise fmt started (events ++ [Sup.Close now code]))
        = Some (Resolved (Js.nullish code 1)) in
  holds (formatStream (auggie instructionFile dir stg))
  ∧ holds (formatStream (cursor instructionFile dir stg)).
Proof.
  assert (∀ fmt, (∀ line, reports_done fmt line = false) →
            running (Sup.supervise fmt started events)
            ∧ ∀ now code,
                Sup.settled (Sup.supervise fmt started events) = false →
                Sup.promise (Sup.supervise fmt started events) = None →
                Sup.promise (Sup.supervise fmt started (events ++ [Sup.Close now code]))
                = Some (Resolved (Js.nullish code 1))) as Hgen.
  { intros fmt Hno.
    assert (running (Sup.supervise fmt started events)) as Hrun.
    { apply run_keeps_running; [done|]. split; [done|]. right. by eexists. }
    split; [exact Hrun|]. intros now code Hs Hp.
    unfold Sup.supervise. rewrite run_app. cbn [Sup.run fold_left Sup.step].
    apply on_close_without_done; try done. apply Hrun. }
  split; apply Hgen; intros line; done.
Qed.

End RawAgents.

Section LineBuffer.
Context `{HostOps : Host} (fmt : option (string → StreamEvent)).

Lemma processLine_set_buf (now : Z) (line b : string) (s : Sup.state) :
  Sup.processLine fmt now line (Sup.set_buf b s)
  = Sup.set_buf b (Sup.processLine fmt now line s).
Proof.
  unfold Sup.processLine. destruct fmt as [f|]; [|done].
  by destruct (String.eqb (text (f line)) EmptyString), (done (f line)).
Qed.

Lemma process_lines_set_buf (now : Z) (lines : list string) (b : string) (s : Sup.state) :
  fold_left (λ st line, Sup.processLine fmt now line st) lines (Sup.set_buf b s)
  = Sup.set_buf b (fold_left (λ st line, Sup.processLine fmt now line st) lines s).
Proof.
  revert s. induction lines as [|l lines IH]; intros s; [done|].
  cbn [fold_left]. by rewrite processLine_set_buf, IH.
Qed.

Lemma reset_after_stdout (now : Z) (chunk : string) (s : Sup.state) :
  match Sup.resultExitCode (Sup.on_stdout fmt now chunk s) with
  | None => Sup.resetIdleTimer now (Sup.on_stdout fmt now chunk s)
  | Some _ => Sup.on_stdout fmt now chunk s
  end = Sup.on_stdout fmt now chunk s.
Proof.
  unfold Sup.on_stdout.
  set (s0 := match Sup.resultExitCode s with
             | None => Sup.resetIdleTimer now s
             | Some _ => s
             end).
  set (lines := Js.split LF (Sup.buf s0 +:+ Buffer_toString chunk)).
  set (s1 := Sup.set_buf (List.last lines EmptyString) s0).
  destruct (process_lines_cases fmt now (removelast lines) s1) as (_&_&_&_&Hcases).
  set (s2 := fold_left _ (removelast lines) s1) in *.
  destruct (Sup.resultExitCode s2) eqn:Hres2; [done|].
  destruct Hcases as [[Hr Ht]|[c Hc]]; [|congruence].
  assert (Sup.idleTimer s2 = Some (Sup.Idle, now + Sup.IDLE_TIMEOUT_MS)) as Htimer.
  { rewrite Ht. subst s1 s0. clearbody s2 lines.
    destruct (Sup.resultExitCode s) eqn:Hres; cbn in *; [congruence|done]. }
  clearbody s2. clear Hr Ht. destruct s2. cbn in *. by subst.
Qed.

(** Two chunks that arrive at the same time and whose text is the text
    of their concatenation. *)
Lemma stdout_same_time (now : Z) (a b : string) (s : Sup.state) :
  Buffer_toString (a +:+ b) = Buffer_toString a +:+ Buffer_toString b →
  Sup.on_stdout fmt now b (Sup.on_stdout fmt now a s)
  = Sup.on_stdout fmt now (a +:+ b) s.
Proof.
  intros Hcut. unfold Sup.on_stdout at 1. rewrite reset_after_stdout.
  unfold Sup.on_stdout. rewrite Hcut.
  set (s0 := match Sup.resultExitCode s with
             | None => Sup.resetIdleTimer now s
             | Some _ => s
             end).
  set (ta := Buffer_toString a). set (tb := Buffer_toString b).
  set (La := Js.split LF (Sup.buf s0 +:+ ta)).
  rewrite (process_lines_set_buf now (removelast La)).
  set (X := fold_left (λ st line, Sup.processLine fmt now line st) (removelast La) s0).
  change (Sup.buf (Sup.set_buf (List.last La EmptyString) X))
    with (List.last La EmptyString).
  set (Lb := Js.split LF (List.last La EmptyString +:+ tb)).
  change (Sup.set_buf (List.last Lb EmptyString)
            (Sup.set_buf (List.last La EmptyString) X))
    with (Sup.set_buf (List.last Lb EmptyString) X).
  rewrite <- append_assoc. fold La.
  rewrite (split_append LF (Sup.buf s0 +:+ ta) tb). fold La. fold Lb.
  assert (Lb ≠ []) as HLb by apply split_nonempty.
  rewrite (removelast_app (removelast La) HLb), fold_left_app.
  assert (List.last (removelast La ++ Lb) EmptyString = List.last Lb EmptyString) as ->.
  { clear -HLb. induction (removelast La) as [|x l IH]; [done|].
    cbn [app]. cbn [List.last]. destruct (l ++ Lb) eqn:Happ; [by destruct l|]. exact IH. }
  rewrite !process_lines_set_buf. done.
Qed.

Lemma same_but_timer_refl (s : Sup.state) : same_but_timer s s.
Proof. done. Qed.

Lemma processLine_same_but_timer (now now' : Z) (line : string) (s s' : Sup.state) :
  same_but_timer s s' →
  same_but_timer (Sup.processLine fmt now line s) (Sup.processLine fmt now' line s').
Proof.
  unfold same_but_timer, Sup.processLine. destruct s, s'. cbn. intros [= -> -> -> -> -> ->].
  destruct fmt as [f|]; [|done].
  by destruct (String.eqb (text (f line)) EmptyString), (done (f line)).
Qed.

Lemma process_lines_same_but_timer (now now' : Z) (lines : list string)
    (s s' : Sup.state) :
  same_but_timer s s' →
  same_but_timer (fold_left (λ st line, Sup.processLine fmt now line st) lines s)
    (fold_left (λ st line, Sup.processLine fmt now' line st) lines s').
Proof.
  revert s s'. induction lines as [|l lines IH]; intros s s' Hs; [done|].
  cbn [fold_left]. by apply IH, processLine_same_but_timer.
Qed.

Lemma on_stdout_same_but_timer (now now' : Z) (chunk : string) (s s' : Sup.state) :
  same_but_timer s s' →
  same_but_timer (Sup.on_stdout fmt now chunk s) (Sup.on_stdout fmt now' chunk s').
Proof.
  intros Hs. unfold Sup.on_stdout.
  set (s0 := match Sup.resultExitCode s with
             | None => Sup.resetIdleTimer now s
             | Some _ => s
             end).
  set (s0' := match Sup.resultExitCode s' with
              | None => Sup.resetIdleTimer now' s'
              | Some _ => s'
              end).
  assert (same_but_timer s0 s0') as Hs0.
  { subst s0 s0'. unfold same_but_timer in *. destruct s, s'. cbn in *.
    injection Hs as -> -> -> -> -> ->. by destruct resultExitCode0. }
  assert (Sup.buf s0 = Sup.buf s0') as <-.
  { unfold same_but_timer in Hs0. destruct s0, s0'. cbn in *. by injection Hs0. }
  apply process_lines_same_but_timer.
  unfold same_but_timer in *. destruct s0, s0'. cbn in *.
  by injection Hs0 as -> -> -> -> -> ->.
Qed.

(** While no result is latched, the idle timer is the one armed by the
    last chunk. *)
Lemma stdout_running_timer (now : Z) (chunk : string) (s : Sup.state) :
  Sup.resultExitCode (Sup.on_stdout fmt now chunk s) = None →
  Sup.idleTimer (Sup.on_stdout fmt now chunk s)
  = Some (Sup.Idle, now + Sup.IDLE_TIMEOUT_MS).
Proof.
  unfold Sup.on_stdout.
  set (s0 := match Sup.resultExitCode s with
             | None => Sup.resetIdleTimer now s
             | Some _ => s
             end).
  set (lines := Js.split LF (Sup.buf s0 +:+ Buffer_toString chunk)).
  set (s1 := Sup.set_buf (List.last lines EmptyString) s0).
  destruct (process_lines_cases fmt now (removelast lines) s1) as (_&_&_&_&Hcases).
  intros Hnone. destruct Hcases as [[Hr Ht]|[c Hc]]; [|congruence].
  rewrite Ht. rewrite Hr in Hnone. subst s1 s0. clearbody lines.
  destruct (Sup.resultExitCode s) eqn:Hres; cbn in *; [congruence|done].
Qed.

(** X8.  How the text of the agent's output is cut into chunks does not
    matter, as long as the cut does not change the text (it does not fall
    inside a character): two chunks handled one after the other leave the
    supervisor in the state in which their concatenation, handled when the
    second arrives, leaves it, but for the pending timeout; and the
    timeout is the same too when both arrive at the same time or no result
    is latched. *)
Theorem stdout_chunking_does_not_matter (t1 t2 : Z) (a b : string) (s : Sup.state) :
  Buffer_toString (a +:+ b) = Buffer_toString a +:+ Buffer_toString b →
  same_but_timer (Sup.on_stdout fmt t2 b (Sup.on_stdout fmt t1 a s))
    (Sup.on_stdout fmt t2 (a +:+ b) s)
  ∧ (t1 = t2 ∨ Sup.resultExitCode (Sup.on_stdout fmt t2 b (Sup.on_stdout fmt t1 a s)) = None →
     Sup.on_stdout fmt t2 b (Sup.on_stdout fmt t1 a s)
     = Sup.on_stdout fmt t2 (a +:+ b) s).
Proof.
  intros Hcut.
  assert (same_but_timer (Sup.on_stdout fmt t2 b (Sup.on_stdout fmt t1 a s))
            (Sup.on_stdout fmt t2 (a +:+ b) s)) as Hsame.
  { rewrite <- (stdout_same_time t2 a b s Hcut).
    apply on_stdout_same_but_timer, on_stdout_same_but_timer, same_but_timer_refl. }
  split; [exact Hsame|].
  intros [->|Hnone]; [by apply stdout_same_time|].
  pose proof (stdout_running_timer t2 b _ Hnone) as Htwo.
  assert (Sup.idleTimer (Sup.on_stdout fmt t2 (a +:+ b) s)
          = Some (Sup.Idle, t2 + Sup.IDLE_TIMEOUT_MS)) as Hone.
  { apply stdout_running_timer. rewrite <- Hnone.
    unfold same_but_timer in Hsame.
    destruct (Sup.on_stdout fmt t2 b _), (Sup.on_stdout fmt t2 (a +:+ b) s).
    cbn in *. by injection Hsame. }
  rewrite <- Htwo in Hone. clear Htwo Hnone.
  unfold same_but_timer in Hsame.
  destruct (Sup.on_stdout fmt t2 b _), (Sup.on_stdout fmt t2 (a +:+ b) s).
  cbn in *. injection Hsame as -> -> -> -> -> ->. by rewrite Hone.
Qed.

Lemma log_text_app (l1 l2 : list Sup.log_item) :
  log_text (l1 ++ l2) = log_text l1 +:+ log_text l2.
Proof.
  induction l1 as [|[] l1 IH]; cbn [app log_text]; try done.
  by rewrite IH, append_assoc.
Qed.

End LineBuffer.

Lemma stdout_chunking_does_not_matter_witness :
  @Buffer_toString Sample.host ("par" +:+ "tial")
  = @Buffer_toString Sample.host "par" +:+ @Buffer_toString Sample.host "tial"
  ∧ same_but_timer
      (Sup.on_stdout (HostOps := Sample.host) None 40000 "tial"
         (Sup.on_stdout (HostOps := Sample.host) None 1000 "par" (Sup.init 0)))
      (Sup.on_stdout (HostOps := Sample.host) None 40000 ("par" +:+ "tial") (Sup.init 0)).
Proof.
  split; [reflexivity|].
  exact (proj1 (stdout_chunking_does_not_matter (HostOps := Sample.host) None
                  1000 40000 "par" "tial" (Sup.init 0) eq_refl)).
Defined.

Section RawOutput.
Context `{HostOps : Host}.

Lemma raw_lines_logged (now : Z) (lines : list string) (s : Sup.state) :
  let s' := fold_left (λ st line, Sup.processLine None now line st) lines s in
  Sup.buf s' = Sup.buf s
  ∧ log_text (Sup.log s') = log_text (Sup.log s) +:+ lines_text LF lines.
Proof.
  revert s. induction lines as [|l lines IH]; intros s.
  - cbn. by rewrite append_empty_r.
  - cbn [fold_left]. destruct (IH (Sup.processLine None now l s)) as [-> ->].
    split; [done|]. cbn [Sup.processLine Sup.writeOut Sup.write Sup.log lines_text].
    rewrite log_text_app. cbn [log_text]. unfold newline.
    by rewrite append_empty_r, !append_assoc.
Qed.

Lemma lines_text_split (sep : ascii) (x : string) :
  lines_text sep (removelast (Js.split sep x)) +:+ List.last (Js.split sep x) EmptyString
  = x.
Proof.
  induction x as [|c r IH]; [done|].
  cbn [Js.split]. pose proof (split_nonempty sep r) as Hne.
  destruct (Ascii.eqb_spec c sep) as [->|Hc].
  - destruct (Js.split sep r) as [|p ps] eqn:Hr; [done|].
    cbn [removelast List.last lines_text] in *.
    change (EmptyString +:+ ?t) with t. rewrite append_cons. by rewrite IH.
  - destruct (Js.split sep r) as [|p [|p' ps]] eqn:Hr; [done| |].
    + cbn [removelast List.last lines_text] in *.
      change (EmptyString +:+ ?t) with t in *. by rewrite IH.
    + cbn [removelast List.last lines_text] in *.
      rewrite !append_cons. by rewrite IH.
Qed.

(** X9.  Without a normalizer nothing of the agent's standard output is
    lost or reordered after decoding: after any sequence of chunks, the
    text written to the log followed by the unfinished line held in the
    buffer is the text of the chunks, each decoded by itself, in the order
    of arrival.  Where decoding leaves every chunk as it is (ASCII
    output), that is the exact sequence of bytes received. *)
Theorem raw_stdout_is_logged_as_decoded (started : Z) (chunks : list (Z * string)) :
  log_text (Sup.log (Sup.supervise None started (stdout_events chunks)))
  +:+ Sup.buf (Sup.supervise None started (stdout_events chunks))
  = stdout_text chunks
  ∧ (Forall (λ c, Buffer_toString (snd c) = snd c) chunks →
     stdout_text chunks = stdout_bytes chunks).
Proof.
  split.
  - unfold Sup.supervise.
    assert (∀ s, log_text (Sup.log (Sup.run None s (stdout_events chunks)))
                 +:+ Sup.buf (Sup.run None s (stdout_events chunks))
                 = (log_text (Sup.log s) +:+ Sup.buf s) +:+ stdout_text chunks) as Hgen.
    { induction chunks as [|[now chunk] chunks IH]; intros s.
      - cbn. by rewrite append_empty_r.
      - cbn [stdout_events map Sup.run fold_left Sup.step fst snd stdout_text].
        fold (stdout_events chunks).
        fold (Sup.run None (Sup.on_stdout None now chunk s) (stdout_events chunks)).
        rewrite IH. rewrite <- (append_assoc _ (Buffer_toString chunk)). f_equal.
        unfold Sup.on_stdout.
        set (s0 := match Sup.resultExitCode s with
                   | None => Sup.resetIdleTimer now s
                   | Some _ => s
                   end).
        assert (Sup.buf s0 = Sup.buf s ∧ Sup.log s0 = Sup.log s) as [Hb Hl]
          by (subst s0; by destruct (Sup.resultExitCode s)).
        rewrite Hb.
        set (lines := Js.split LF (Sup.buf s +:+ Buffer_toString chunk)).
        destruct (raw_lines_logged now (removelast lines)
                    (Sup.set_buf (List.last lines EmptyString) s0)) as [-> ->].
        cbn [Sup.set_buf Sup.buf Sup.log]. rewrite Hl, !append_assoc. f_equal.
        subst lines. by rewrite lines_text_split. }
    by rewrite Hgen.
  - induction 1 as [|[now chunk] chunks Hc _ IH]; [done|].
    cbn [stdout_text stdout_bytes snd] in *. by rewrite Hc, IH.
Qed.

End RawOutput.

Section Liveness.
Context `{HostOps : Host} (fmt : option (string → StreamEvent)).
Hypothesis no_done : ∀ line, reports_done fmt line = false.

Lemma settle_kills (code : Z) (s : Sup.state) : Sup.kills (Sup.settle code s) = Sup.kills s.
Proof. unfold Sup.settle. by destruct (Sup.settled s). Qed.

Lemma never_silent_keeps_alive (events : list Sup.event) :
  ∀ last s,
    Sup.resultExitCode s = None →
    (Sup.idleTimer s = None
     ∨ ∃ due, Sup.idleTimer s = Some (Sup.Idle, due) ∧ last + Sup.IDLE_TIMEOUT_MS ≤ due) →
    never_silent last events = true →
    Sup.kills (Sup.run fmt s events) = Sup.kills s.
Proof.
  induction events as [|e events IH]; intros last s Hres Htimer Hquiet; [done|].
  cbn [Sup.run fold_left]. fold (Sup.run fmt (Sup.step fmt s e) events).
  destruct e as [now chunk|now chunk|now|now code|now]; cbn [never_silent] in Hquiet;
    cbn [Sup.step].
  - assert (Sup.resultExitCode (Sup.on_stdout fmt now chunk s) = None
            ∧ Sup.idleTimer (Sup.on_stdout fmt now chunk s)
              = Some (Sup.Idle, now + Sup.IDLE_TIMEOUT_MS)
            ∧ Sup.kills (Sup.on_stdout fmt now chunk s) = Sup.kills s) as (Hr & Ht & Hk).
    { unfold Sup.on_stdout. rewrite Hres.
      set (s0 := Sup.set_buf _ _).
      by destruct (process_lines_not_done fmt now
                     (removelast (Js.split LF (Sup.buf (Sup.resetIdleTimer now s)
                                               +:+ Buffer_toString chunk)))
                     s0 no_done) as (-> & -> & _ & _ & _ & ->). }
    rewrite (IH now); [done|done| |done]. right. eexists. split; [done|lia].
  - rewrite (IH now); [| | |done].
    + unfold Sup.on_stderr. by rewrite Hres.
    + unfold Sup.on_stderr. by rewrite Hres.
    + unfold Sup.on_stderr. rewrite Hres. right. eexists. split; [done|lia].
  - apply andb_prop in Hquiet as [Hnow Hquiet]. apply Z.ltb_lt in Hnow.
    assert (Sup.on_timer now s = s) as ->.
    { unfold Sup.on_timer. destruct Htimer as [->|(due & -> & Hdue)]; [done|].
      by destruct (Z.leb_spec due now); [lia|]. }
    by apply (IH last).
  - assert (Sup.resultExitCode (Sup.on_close fmt now code s) = None
            ∧ Sup.kills (Sup.on_close fmt now code s) = Sup.kills s
            ∧ (Sup.idleTimer (Sup.on_close fmt now code s) = None
               ∨ Sup.idleTimer (Sup.on_close fmt now code s) = Sup.idleTimer s))
      as (Hr & Hk & Ht).
    { unfold Sup.on_close.
      set (s1 := if String.eqb (Sup.buf s) EmptyString then s else _).
      assert (Sup.resultExitCode s1 = None ∧ Sup.idleTimer s1 = Sup.idleTimer s
              ∧ Sup.kills s1 = Sup.kills s) as (Hr1 & Ht1 & Hk1).
      { subst s1. destruct (String.eqb (Sup.buf s) EmptyString); [done|].
        by destruct (processLine_not_done fmt now (Js.trimEnd (Sup.buf s)) s (no_done _))
          as (-> & -> & _ & _ & _ & ->). }
      rewrite settle_keeps_result, settle_kills. split; [done|]. split; [done|].
      unfold Sup.settle. destruct (Sup.settled s1); [by right|by left]. }
    rewrite (IH last); [done|done| |done].
    destruct Ht as [->| ->]; [by left|done].
  - by rewrite (IH last (Sup.on_error s)).
Qed.

(** X10.  An agent whose normalizer never reports [done] and whose output
    never pauses for 10 minutes is never killed: as long as the timer does
    not come due 10 minutes or more after the last chunk of stdout or
    stderr (or after the spawn), no kill is sent, whatever the chunks
    hold. *)
Theorem output_in_time_is_never_killed (started : Z) (events : list Sup.event) :
  never_silent started events = true →
  Sup.kills (Sup.supervise fmt started events) = 0%nat.
Proof.
  intros Hquiet. unfold Sup.supervise.
  rewrite (never_silent_keeps_alive events started); [done|done| |done].
  right. eexists. split; [reflexivity|]. cbn. lia.
Qed.

End Liveness.

Lemma output_in_time_is_never_killed_witness :
  (∀ line, reports_done None line = false)
  ∧ never_silent 0
      [Sup.StdoutData 1000 "thinking"; Sup.TimerDue 599000;
       Sup.StderrData 590000 "warn"; Sup.TimerDue 1100000] = true
  ∧ Sup.kills
      (Sup.supervise (HostOps := Sample.host) None 0
         [Sup.StdoutData 1000 "thinking"; Sup.TimerDue 599000;
          Sup.StderrData 590000 "warn"; Sup.TimerDue 1100000]) = 0%nat.
Proof.
  assert (∀ line, reports_done None line = false) as Hno by done.
  split; [exact Hno|]. split; [reflexivity|].
  exact (output_in_time_is_never_killed (HostOps := Sample.host) None Hno 0
           [Sup.StdoutData 1000 "thinking"; Sup.TimerDue 599000;
            Sup.StderrData 590000 "warn"; Sup.TimerDue 1100000] eq_refl).
Defined.

Section Settlement.
Context `{HostOps : Host} (fmt : option (string → StreamEvent)).

Lemma trailers_snoc (log : list Sup.log_item) (i : Sup.log_item) :
  trailers (log ++ [i])
  = (trailers log + match i with Sup.ExitTrailer _ => 1 | _ => 0 end)%nat.
Proof.
  induction log as [|[] log IH]; cbn [app trailers]; rewrite ?IH; try done.
Qed.

Lemma processLine_trailers (now : Z) (line : string) (s : Sup.state) :
  trailers (Sup.log (Sup.processLine fmt now line s)) = trailers (Sup.log s).
Proof.
  unfold Sup.processLine. destruct fmt as [f|]; cbn.
  - destruct (String.eqb (text (f line)) EmptyString), (done (f line)); cbn;
      rewrite ?trailers_snoc; lia.
  - rewrite trailers_snoc. lia.
Qed.

Lemma process_lines_trailers (now : Z) (lines : list string) (s : Sup.state) :
  trailers (Sup.log (fold_left (λ st line, Sup.processLine fmt now line st) lines s))
  = trailers (Sup.log s).
Proof.
  revert s. induction lines as [|l lines IH]; intros s; [done|].
  cbn [fold_left]. by rewrite IH, processLine_trailers.
Qed.

Lemma step_settles (e : Sup.event) (s : Sup.state) :
  trailers (Sup.log s) = (if Sup.settled s then 1 else 0)%nat →
  let s' := Sup.step fmt s e in
  trailers (Sup.log s') = (if Sup.settled s' then 1 else 0)%nat
  ∧ Sup.settled s' = Sup.settled s || is_close e
  ∧ ∀ o, Sup.promise s = Some o → Sup.promise s' = Some o.
Proof.
  intros Hinv.
  destruct e as [now chunk|now chunk|now|now code|now]; cbn [Sup.step is_close];
    rewrite ?orb_false_r, ?orb_true_r.
  - unfold Sup.on_stdout.
    set (s0 := match Sup.resultExitCode s with
               | None => Sup.resetIdleTimer now s
               | Some _ => s
               end).
    assert (Sup.log s0 = Sup.log s ∧ Sup.settled s0 = Sup.settled s
            ∧ Sup.promise s0 = Sup.promise s) as (Hl & Hs & Hp)
      by (subst s0; by destruct (Sup.resultExitCode s)).
    set (lines := Js.split LF (Sup.buf s0 +:+ Buffer_toString chunk)).
    destruct (process_lines_cases fmt now (removelast lines)
                (Sup.set_buf (List.last lines EmptyString) s0)) as (_ & -> & -> & _).
    rewrite process_lines_trailers. cbn. by rewrite Hl, Hs, Hp.
  - unfold Sup.on_stderr. destruct (Sup.resultExitCode s); cbn;
      rewrite trailers_snoc, Hinv; repeat split; try done; lia.
  - unfold Sup.on_timer. destruct (Sup.idleTimer s) as [[kind due]|]; [|done].
    destruct (due <=? now); [|done]. cbn. rewrite trailers_snoc, Hinv.
    destruct kind; repeat split; try done; lia.
  - unfold Sup.on_close.
    set (s1 := if String.eqb (Sup.buf s) EmptyString then s else _).
    assert (trailers (Sup.log s1) = trailers (Sup.log s)
            ∧ Sup.settled s1 = Sup.settled s ∧ Sup.promise s1 = Sup.promise s)
      as (Hl & Hs & Hp).
    { subst s1. destruct (String.eqb (Sup.buf s) EmptyString); [done|].
      rewrite processLine_trailers.
      by destruct (processLine_cases fmt now (Js.trimEnd (Sup.buf s)) s) as (_&->&->&_). }
    unfold Sup.settle. rewrite Hs. destruct (Sup.settled s) eqn:Hset.
    + rewrite Hl, Hs, Hinv, Hp. done.
    + cbn. rewrite trailers_snoc, Hl, Hinv, Hp. split; [done|]. split; [done|].
      by intros o ->.
  - cbn. rewrite trailers_snoc, Hinv. split; [lia|]. split; [done|]. by intros o ->.
Qed.

(** X11.  Whatever events arrive and in whatever order, the log stream of
    an invocation is handed the exit trailer exactly once, when the process
    closes for the first time, and none before; and once the promise of
    the invocation is settled, no later event changes its outcome. *)
Theorem one_exit_trailer_and_one_outcome
    (started : Z) (events more : list Sup.event) :
  let s := Sup.supervise fmt started events in
  trailers (Sup.log s) = (if existsb is_close events then 1 else 0)%nat
  ∧ Sup.settled s = existsb is_close events
  ∧ ∀ o, Sup.promise s = Some o →
         Sup.promise (Sup.supervise fmt started (events ++ more)) = Some o.
Proof.
  assert (∀ evs s,
            trailers (Sup.log s) = (if Sup.settled s then 1 else 0)%nat →
            trailers (Sup.log (Sup.run fmt s evs))
            = (if Sup.settled (Sup.run fmt s evs) then 1 else 0)%nat
            ∧ Sup.settled (Sup.run fmt s evs) = Sup.settled s || existsb is_close evs
            ∧ ∀ o, Sup.promise s = Some o → Sup.promise (Sup.run fmt s evs) = Some o)
    as Hgen.
  { induction evs as [|e evs IH]; intros s Hinv.
    - cbn. by rewrite orb_false_r.
    - cbn [Sup.run fold_left existsb]. fold (Sup.run fmt (Sup.step fmt s e) evs).
      destruct (step_settles e s Hinv) as (Hinv' & Hs' & Hp').
      destruct (IH _ Hinv') as (H1 & H2 & H3).
      split; [done|]. split; [by rewrite H2, Hs', orb_assoc|]. auto. }
  intros s. subst s. unfold Sup.supervise.
  destruct (Hgen events (Sup.init started) eq_refl) as (H1 & H2 & _).
  cbn [orb Sup.init Sup.settled Sup.resetIdleTimer Sup.set_timer] in H2.
  split; [by rewrite H1, H2|]. split; [exact H2|].
  intros o Ho. rewrite run_app. by apply Hgen.
Qed.

End Settlement.

(* ------------------------------------------------------------------ *)
(** ** More on the driver *)

Lemma stderr_messages_app (l1 l2 : list effect) :
  stderr_messages (l1 ++ l2) = stderr_messages l1 ++ stderr_messages l2.
Proof. apply omap_app. Qed.

Lemma written_app (l1 l2 : list effect) : written (l1 ++ l2) = written l1 ++ written l2.
Proof. apply omap_app. Qed.

Lemma unlinked_app (l1 l2 : list effect) : unlinked (l1 ++ l2) = unlinked l1 ++ unlinked l2.
Proof. apply omap_app. Qed.

Lemma mkdirs_app (l1 l2 : list effect) : mkdirs (l1 ++ l2) = mkdirs l1 ++ mkdirs l2.
Proof. apply omap_app. Qed.

Lemma execs_app (l1 l2 : list effect) : execs (l1 ++ l2) = execs l1 ++ execs l2.
Proof. apply omap_app. Qed.

(** What the handlers do to the console touches no file, and is no
    failure report of the driver. *)
Lemma console_touches_no_file (log : list Sup.log_item) :
  written (flat_map console log) = [] ∧ unlinked (flat_map console log) = [].
Proof. induction log as [|[] log [IH1 IH2]]; cbn; by rewrite ?IH1, ?IH2. Qed.

Lemma console_reports_no_failure (log : list Sup.log_item) :
  Forall (λ m, failure_report m = false) (stderr_messages (flat_map console log)).
Proof.
  induction log as [|i log IH]; [constructor|].
  destruct i; cbn; try exact IH; by constructor.
Qed.

Lemma append_inj_l (a b c : string) : a +:+ b = a +:+ c → b = c.
Proof.
  induction a as [|x a IH]; [done|]. rewrite !append_cons. intros [= H]. by apply IH.
Qed.

Section DriverMore.
Context `{HostOps : Host} `{Surroundings : World}.

Lemma runAgent_outcomes (a : option string) (logFile stg : string) (r : Run) :
  match snd (runAgent a logFile stg r) with
  | Exited c => c = 1 ∧ agents a = Missing
  | _ => Forall (λ m, failure_report m = false)
           (stderr_messages (fst (runAgent a logFile stg r)))
  end.
Proof.
  unfold runAgent. destruct (agents a) as [adapter|[]|]; cbn; try done;
    try by constructor.
  destruct (Sup.promise _); cbn; rewrite ?stderr_messages_app, ?Forall_app;
    repeat split; try apply console_reports_no_failure; by constructor.
Qed.

Lemma sleep_is_silent (rest : list Ticket) :
  stderr_messages (match rest with [] => [] | _ => [Sleep 500] end) = [].
Proof. by destruct rest. Qed.

Lemma loop_exit_zero (a : option string) (total : nat) (tickets : list Ticket) :
  ∀ i fs,
    snd (run_tickets a total i tickets fs) = Exit 0 →
    (∀ k t, tickets !! k = Some t →
            resolved_code a (i + k) t (tree_before tickets fs k) = Some 0)
    ∧ Forall (λ m, failure_report m = false)
        (stderr_messages (fst (run_tickets a total i tickets fs))).
Proof.
  induction tickets as [|t rest IH]; intros i fs; [by split; [|constructor]|].
  rewrite run_tickets_turn. cbv zeta.
  destruct (ticket_readable fs t) eqn:Hread; [|done]. cbn [negb].
  pose proof (runAgent_outcomes a (logPath logsDir t (iso_time i)) (stage t)
                (agent_run t fs)) as Hout.
  destruct (snd (runAgent _ _ _ _)) as [[c|]|c|] eqn:Hres; cbn [fst snd]; try done.
  - destruct (Z.eqb_spec c 0) as [->|Hc]; cbn [negb fst snd]; [|by intros [= ?]].
    intros Hexit. destruct (IH (S i) (fs_after (agent_run t fs)) Hexit) as [Hall Herr].
    split.
    + intros [|k] t' Hk.
      * injection Hk as <-. rewrite Nat.add_0_r. cbn [tree_before].
        unfold resolved_code. by rewrite Hread, Hres.
      * cbn [tree_before]. replace (i + S k)%nat with (S i + k)%nat by lia.
        by apply Hall.
    + rewrite !stderr_messages_app, sleep_is_silent. cbn [stderr_messages omap list_omap app].
      by rewrite Forall_app.
  - destruct Hout as [-> _]. by intros [= ?].
Qed.

(** X12.  Exit code 0 of a real run is earned: when [main], outside
    dry-run mode, exits with 0, every ticket of the run order has been
    attempted, every invocation has resolved with 0, and the driver has
    reported no failure: standard error holds nothing but what the agents
    and git wrote there and the notes of kills. *)
Theorem exit_zero_means_all_resolved_zero (argv : list string) (fs : FS)
    (opts : Opts.t) (stages : list Sel.t) :
  parseArgs argv = Parsed opts stages →
  Opts.dryRun opts = false →
  snd (main argv fs) = Exit 0 →
  let tickets := runOrder fs ticketsDir stages in
  attempted (fst (main argv fs)) = tickets
  ∧ (∀ k t, tickets !! k = Some t →
       resolved_code (Opts.agent opts) k t (tree_before tickets fs k) = Some 0)
  ∧ Forall (λ m, failure_report m = false) (stderr_messages (fst (main argv fs))).
Proof.
  intros Hparse Hwet Hexit tickets.
  assert (Forall (λ m, failure_report m = false)
            (stderr_messages (fst getTessVersion))) as Hlookup.
  { unfold getTessVersion. cbn.
    destruct (String.eqb git_stderr EmptyString); cbn; by repeat constructor. }
  destruct (main_cases argv fs) as [(c&o&e&Hp&_)|(opts'&stages'&Hp&Hmain)];
    [congruence|].
  rewrite Hparse in Hp. injection Hp as <- <-. cbv zeta in Hmain. fold tickets in Hmain.
  destruct Hmain as [[Hnil Hmain]|[[Hdry _]|[_ Hmain]]]; [| congruence |].
  - rewrite Hmain, Hnil. cbn [fst]. rewrite attempted_lookup, stderr_messages_app.
    split; [done|]. split; [by intros k t ?|]. rewrite Forall_app. by split; [|constructor].
  - rewrite Hmain in *. cbn [fst snd] in *.
    destruct (loop_exit_zero (Opts.agent opts) _ tickets 0 fs Hexit) as [Hall Herr].
    rewrite attempted_lookup, stderr_messages_app.
    split; [|split; [exact Hall|]].
    + change (attempted (?x :: Mkdir ?d :: ?l)) with (attempted l).
      by apply (loop_clean (Opts.agent opts) _ tickets 0 fs).
    + rewrite Forall_app. split; [exact Hlookup|exact Herr].
Qed.

(** X13.  Under dry-run, and whenever no ticket qualifies, [main] looks
    up the version with git, prints the run order, or that there are no
    tickets, and exits with 0: git is the only command it runs, it creates
    no directory, writes and removes no file and starts no agent, and
    standard error holds nothing but what git wrote there. *)
Theorem dry_run_touches_nothing (argv : list string) (fs : FS)
    (opts : Opts.t) (stages : list Sel.t) :
  parseArgs argv = Parsed opts stages →
  Opts.dryRun opts = true ∨ runOrder fs ticketsDir stages = [] →
  snd (main argv fs) = Exit 0
  ∧ fst (main argv fs)
    = fst getTessVersion
        ++ [Out (match runOrder fs ticketsDir stages with
                 | [] => MsgNoTickets
                 | _ => MsgDryRun (snd getTessVersion) (runOrder fs ticketsDir stages)
                 end)]
  ∧ execs (fst (main argv fs)) = ["git log -1 --format=%h"]
  ∧ mkdirs (fst (main argv fs)) = []
  ∧ written (fst (main argv fs)) = []
  ∧ unlinked (fst (main argv fs)) = []
  ∧ spawns (fst (main argv fs)) = []
  ∧ stderr_messages (fst (main argv fs))
    = (if String.eqb git_stderr EmptyString then [] else [MsgGitStderr git_stderr]).
Proof.
  intros Hparse Hcase.
  assert (main argv fs
          = (fst getTessVersion
               ++ [Out (match runOrder fs ticketsDir stages with
                        | [] => MsgNoTickets
                        | _ => MsgDryRun (snd getTessVersion)
                                 (runOrder fs ticketsDir stages)
                        end)], Exit 0)) as ->.
  { unfold main. rewrite Hparse. cbv zeta.
    fold (runOrder fs ticketsDir stages).
    destruct (snapshot fs ticketsDir stages) as [|t0 rest] eqn:Hsnap.
    { by rewrite (runOrder_of_empty_snapshot _ _ _ Hsnap). }
    assert (runOrder fs ticketsDir stages ≠ []) as Hne.
    { intros Hnil. pose proof (array_sort_perm
                                 (by_stage_then_priority (stageOrder stages))
                                 (snapshot fs ticketsDir stages)) as Hperm.
      fold (runOrder fs ticketsDir stages) in Hperm. rewrite Hnil, Hsnap in Hperm.
      by apply Permutation_nil_cons in Hperm. }
    destruct Hcase as [->|Hnil]; [|done].
    by destruct (runOrder fs ticketsDir stages). }
  cbn [fst snd]. unfold getTessVersion. cbn [fst snd].
  by destruct (String.eqb git_stderr EmptyString), (runOrder fs ticketsDir stages).
Qed.

End DriverMore.

Lemma exit_zero_means_all_resolved_zero_witness :
  (∃ opts stages,
     parseArgs ["--stages"; "fix,implement"; "--min-priority"; "4"] = Parsed opts stages
     ∧ Opts.dryRun opts = false)
  ∧ snd (@main Sample.host Sample.world
           ["--stages"; "fix,implement"; "--min-priority"; "4"] Sample.repo_tree)
    = Exit 0
  ∧ map file (attempted (fst (@main Sample.host Sample.world
                                ["--stages"; "fix,implement"; "--min-priority"; "4"]
                                Sample.repo_tree)))
    = ["5-a.md"; "5-b.md"].
Proof.
  split; [by eexists _, _|].
  assert (snd (@main Sample.host Sample.world
                 ["--stages"; "fix,implement"; "--min-priority"; "4"] Sample.repo_tree)
          = Exit 0) as Hexit by (vm_compute; reflexivity).
  split; [exact Hexit|].
  rewrite (proj1 (@exit_zero_means_all_resolved_zero Sample.host Sample.world
                    ["--stages"; "fix,implement"; "--min-priority"; "4"]
                    Sample.repo_tree _ _ eq_refl eq_refl Hexit)).
  reflexivity.
Defined.

Lemma dry_run_touches_nothing_witness :
  (∃ opts stages,
     parseArgs ["--dry-run"; "--agent"; "cursor"] = Parsed opts stages
     ∧ Opts.dryRun opts = true)
  ∧ written (fst (@main Sample.host Sample.world ["--dry-run"; "--agent"; "cursor"]
                    Sample.repo_tree)) = []
  ∧ execs (fst (@main Sample.host Sample.world ["--dry-run"; "--agent"; "cursor"]
                  Sample.repo_tree)) = ["git log -1 --format=%h"]
  ∧ snd (@main Sample.host Sample.world ["--dry-run"; "--agent"; "cursor"]
           Sample.repo_tree) = Exit 0.
Proof.
  split; [by eexists _, _|].
  destruct (@dry_run_touches_nothing Sample.host Sample.world
              ["--dry-run"; "--agent"; "cursor"] Sample.repo_tree _ _ eq_refl
              (or_introl eq_refl)) as (Hexit & _ & Hexecs & _ & Hwritten & _).
  split; [exact Hwritten|]. split; [exact Hexecs|exact Hexit].
Defined.

Lemma logPath_ends_in_log (dir ts : string) (t : Ticket) :
  ∃ base, logPath dir t ts = base +:+ ".log".
Proof.
  unfold logPath, Path.join. cbv zeta.
  eexists. rewrite <- !append_assoc. reflexivity.
Qed.

Section InstructionFile.
Context `{HostOps : Host} `{Surroundings : World}.

Lemma known_agents_own (a : option string) :
  a ∈ known_agents →
  agents a = Own claude ∨ agents a = Own auggie ∨ agents a = Own cursor.
Proof.
  unfold known_agents. rewrite !elem_of_cons, elem_of_nil.
  intros [->|[->|[->|[]]]]; cbn; auto.
Qed.

Lemma unknown_agents_not_own (a : option string) :
  a ∉ known_agents → agents a = Missing ∨ ∃ throws, agents a = Inherited throws.
Proof.
  unfold known_agents. rewrite !not_elem_of_cons. intros (Hc & Ha & Hu & _).
  destruct a as [n|]; [|by left]. unfold agents.
  destruct (String.eqb_spec n "claude") as [->|_]; [done|].
  destruct (String.eqb_spec n "auggie") as [->|_]; [done|].
  destruct (String.eqb_spec n "cursor") as [->|_]; [done|].
  repeat (destruct (existsb _ _); [right; by eexists|]). by left.
Qed.

(** X14.  The instruction file of a ticket run is a temporary file next
    to the log: for a log path built by [logPath] and one of the three
    agents, [runAgent] writes exactly one file, named like the log with
    [.prompt.md] in place of [.log], which is not the log itself; it
    removes that file, and nothing else, once the invocation has settled,
    and leaves it in place while the invocation is pending. *)
Theorem instruction_file_is_temporary (a : option string) (dir ts : string)
    (t : Ticket) (r : Run) :
  a ∈ known_agents →
  ∃ base,
    logPath dir t ts = base +:+ ".log"
    ∧ base +:+ ".prompt.md" ≠ logPath dir t ts
    ∧ written (fst (runAgent a (logPath dir t ts) (stage t) r)) = [base +:+ ".prompt.md"]
    ∧ unlinked (fst (runAgent a (logPath dir t ts) (stage t) r))
      = match snd (runAgent a (logPath dir t ts) (stage t) r) with
        | Never => []
        | _ => [base +:+ ".prompt.md"]
        end.
Proof.
  intros Hknown. destruct (logPath_ends_in_log dir ts t) as [base Hlog].
  exists base. rewrite Hlog. split; [done|]. split.
  { intros Heq. by apply append_inj_l in Heq. }
  unfold runAgent. rewrite replace_suffix_append.
  destruct (known_agents_own a Hknown) as [Hag | [Hag | Hag]]; rewrite Hag;
    destruct (Sup.promise _); cbn [fst snd];
    rewrite ?written_app, ?unlinked_app,
      ?(proj1 (console_touches_no_file _)), ?(proj2 (console_touches_no_file _));
    done.
Qed.

Lemma unknown_agent_loop (a : option string) (total : nat) (tickets : list Ticket) :
  a ∉ known_agents →
  ∀ i fs,
    spawns (fst (run_tickets a total i tickets fs)) = []
    ∧ (List.length (attempted (fst (run_tickets a total i tickets fs))) ≤ 1)%nat
    ∧ (tickets ≠ [] → snd (run_tickets a total i tickets fs) = Exit 1).
Proof.
  intros Hunknown i fs. destruct tickets as [|t rest]; [cbn; split; [done|split; [lia|done]]|].
  rewrite run_tickets_turn. cbv zeta.
  destruct (negb (ticket_readable fs t)); [cbn; split; [done|split; [lia|done]]|].
  unfold runAgent.
  destruct (unknown_agents_not_own a Hunknown) as [Hag|[throws Hag]]; rewrite Hag;
    [|destruct throws]; cbn; (split; [done|split; [lia|done]]).
Qed.

(** X15.  Only the three agents of [agents] are ever started: with any
    other agent name (or none) [main] starts no process, gets no further
    than the first ticket, and exits with 1 unless it exits with 0 before
    the loop (no ticket, or dry-run). *)
Theorem only_known_agents_are_started (argv : list string) (fs : FS)
    (opts : Opts.t) (stages : list Sel.t) :
  parseArgs argv = Parsed opts stages →
  Opts.agent opts ∉ known_agents →
  spawns (fst (main argv fs)) = []
  ∧ (List.length (attempted (fst (main argv fs))) ≤ 1)%nat
  ∧ (snd (main argv fs) = Exit 1
     ∨ snd (main argv fs) = Exit 0
       ∧ (Opts.dryRun opts = true ∨ runOrder fs ticketsDir stages = [])).
Proof.
  intros Hparse Hunknown.
  destruct (main_cases argv fs) as [(c&o&e&Hp&_)|(opts'&stages'&Hp&Hmain)];
    [congruence|].
  rewrite Hparse in Hp. injection Hp as <- <-. cbv zeta in Hmain.
  destruct Hmain as [[Hnil ->]|[[Hdry ->]|[_ ->]]]; cbn [fst snd];
    rewrite spawns_lookup, attempted_lookup.
  - split; [done|]. split; [cbn; lia|]. right. auto.
  - split; [done|]. split; [cbn; lia|]. right. auto.
  - change (spawns (?x :: Mkdir ?d :: ?l)) with (spawns l).
    change (attempted (?x :: Mkdir ?d :: ?l)) with (attempted l).
    destruct (unknown_agent_loop (Opts.agent opts)
                (List.length (runOrder fs ticketsDir stages))
                (runOrder fs ticketsDir stages) Hunknown 0 fs) as (Hsp & Hatt & Hexit).
    split; [exact Hsp|]. split; [exact Hatt|].
    destruct (runOrder fs ticketsDir stages) as [|t0 rest] eqn:Horder.
    + right. split; [done|by right].
    + left. by apply Hexit.
Qed.

End InstructionFile.

Lemma instruction_file_is_temporary_witness :
  Some "auggie" ∈ known_agents
  ∧ ∃ base,
      logPath "/repo/tickets/.logs" (mkTicket "5-a.md" "/repo/tickets/fix/5-a.md" "fix" 5)
        "2026-01-01T00-00-00-000Z" = base +:+ ".log"
      ∧ written (fst (@runAgent Sample.host Sample.world (Some "auggie")
                        (logPath "/repo/tickets/.logs"
                           (mkTicket "5-a.md" "/repo/tickets/fix/5-a.md" "fix" 5)
                           "2026-01-01T00-00-00-000Z")
                        "fix" (mkRun Sample.repo_tree 0 [Sup.Close 10 (Some 0)])))
        = [base +:+ ".prompt.md"].
Proof.
  assert (Some "auggie" ∈ known_agents) as Hknown.
  { unfold known_agents. rewrite !elem_of_cons. auto. }
  split; [exact Hknown|].
  destruct (@instruction_file_is_temporary Sample.host Sample.world (Some "auggie")
              "/repo/tickets/.logs" "2026-01-01T00-00-00-000Z"
              (mkTicket "5-a.md" "/repo/tickets/fix/5-a.md" "fix" 5)
              (mkRun Sample.repo_tree 0 [Sup.Close 10 (Some 0)]) Hknown)
    as (base & Hlog & _ & Hwritten & _).
  exists base. split; [exact Hlog|exact Hwritten].
Defined.

Lemma only_known_agents_are_started_witness :
  (∃ opts stages,
     parseArgs ["--agent"; "gpt"] = Parsed opts stages
     ∧ Opts.agent opts ∉ known_agents)
  ∧ spawns (fst (@main Sample.host Sample.world ["--agent"; "gpt"] Sample.repo_tree)) = [].
Proof.
  assert (Some "gpt" ∉ known_agents) as Hunknown.
  { unfold known_agents. rewrite !not_elem_of_cons. repeat split; try discriminate.
    apply not_elem_of_nil. }
  split; [eexists _, _; split; [reflexivity|exact Hunknown]|].
  exact (proj1 (@only_known_agents_are_started Sample.host Sample.world
                  ["--agent"; "gpt"] Sample.repo_tree _ _ eq_refl Hunknown)).
Defined.

(* ------------------------------------------------------------------ *)
(** ** From the command line to the tickets worked on *)

Lemma stage_candidates_elem (fs : FS) (dir stg : string) (m : Js.jsnum) (t : Ticket) :
  t ∈ stage_candidates fs dir stg m ↔
  file t ∈ readdir fs (Path.join dir stg)
  ∧ eligible m (file t) = true
  ∧ t = mkTicket (file t) (Path.join (Path.join dir stg) (file t)) stg
          (parsePriority (file t)).
Proof.
  unfold stage_candidates, readdir. cbv zeta.
  destruct (fs !! Path.join dir stg) as [entries|]; cbn [Js.nullish].
  - rewrite list_elem_of_omap. split.
    + intros (e & He & Hd). rewrite discover_entry_eligible in Hd.
      destruct (eligible m e) eqn:Hel; [|done]. injection Hd as <-. by cbn.
    + intros (He & Hel & Ht). exists (file t). split; [done|].
      rewrite discover_entry_eligible, Hel. by rewrite <- Ht.
  - split; [by intros ?%elem_of_nil | by intros [?%elem_of_nil _]].
Qed.

Lemma snapshot_elem (fs : FS) (dir : string) (stages : list Sel.t) (t : Ticket) :
  t ∈ snapshot fs dir stages ↔
  ∃ sel, sel ∈ stages ∧ t ∈ stage_candidates fs dir (Sel.stage sel) (Sel.minPriority sel).
Proof.
  unfold snapshot. rewrite list_elem_of_In, in_flat_map. split.
  - intros (sel & Hsel & Ht). exists sel. split; [by apply list_elem_of_In|].
    apply list_elem_of_In in Ht. unfold discoverTickets in Ht.
    by apply array_sort_elem_of in Ht.
  - intros (sel & Hsel & Ht). exists sel. split; [by apply list_elem_of_In|].
    apply list_elem_of_In. unfold discoverTickets. by apply array_sort_elem_of.
Qed.

Section EndToEnd.
Context `{HostOps : Host} `{Surroundings : World}.

(** X16.  Whatever [main] works on was eligible at startup: a ticket
    whose banner is printed belongs to a selected stage, which is one of
    the four pending stages; its file was listed in that stage's folder of
    the startup tree, ends in [.md], starts with a priority prefix and is
    not below that selection's threshold; and its path and priority are
    those of that file. *)
Theorem attempted_tickets_were_eligible (argv : list string) (fs : FS)
    (opts : Opts.t) (stages : list Sel.t) (t : Ticket) :
  parseArgs argv = Parsed opts stages →
  t ∈ attempted (fst (main argv fs)) →
  ∃ sel,
    sel ∈ stages
    ∧ stage t = Sel.stage sel
    ∧ stage t ∈ PENDING_STAGES
    ∧ file t ∈ readdir fs (Path.join ticketsDir (stage t))
    ∧ Js.endsWith (file t) ".md" = true
    ∧ PRIORITY_PREFIX_test (file t) = true
    ∧ Js.lt (Js.Num (priority t)) (Sel.minPriority sel) = false
    ∧ priority t = parsePriority (file t)
    ∧ path t = Path.join (Path.join ticketsDir (stage t)) (file t).
Proof.
  intros Hparse Hatt.
  destruct (main_attempted_prefix argv fs opts stages Hparse) as [more Hrun].
  assert (t ∈ snapshot fs ticketsDir stages) as Hsnap.
  { apply (array_sort_elem_of (by_stage_then_priority (stageOrder stages))).
    fold (runOrder fs ticketsDir stages). rewrite Hrun. apply elem_of_app. by left. }
  apply snapshot_elem in Hsnap as (sel & Hsel & Hcand).
  apply stage_candidates_elem in Hcand as (Hlisted & Helig & Ht).
  assert (stage t = Sel.stage sel) as Hstage by (by rewrite Ht).
  assert (priority t = parsePriority (file t)) as Hprio by (by rewrite Ht).
  assert (path t = Path.join (Path.join ticketsDir (Sel.stage sel)) (file t)) as Hpath
    by (by rewrite Ht).
  exists sel. rewrite Hstage, Hprio. repeat split; try done.
  - unfold parseArgs in Hparse.
    destruct (parse_loop Opts.initial argv) as [o|[]]; [|done]. cbv zeta in Hparse.
    destruct (first_unknown_stage _) eqn:Hfirst; [done|].
    injection Hparse as <- <-. by apply (first_unknown_stage_None _ Hfirst).
  - unfold eligible in Helig. by destruct (Js.endsWith (file t) ".md").
  - unfold eligible in Helig.
    destruct (Js.endsWith (file t) ".md"), (PRIORITY_PREFIX_test (file t)); done.
  - unfold eligible in Helig.
    destruct (Js.endsWith (file t) ".md"), (PRIORITY_PREFIX_test (file t)),
      (Js.lt (Js.Num (parsePriority (file t))) (Sel.minPriority sel)); done.
Qed.

End EndToEnd.

Lemma attempted_tickets_were_eligible_witness :
  (∃ opts stages,
     parseArgs ["--stages"; "fix,implement"; "--min-priority"; "4"] = Parsed opts stages)
  ∧ (∃ t, t ∈ attempted (fst (@main Sample.host Sample.world
                                ["--stages"; "fix,implement"; "--min-priority"; "4"]
                                Sample.repo_tree))
          ∧ Js.endsWith (file t) ".md" = true).
Proof.
  split; [by eexists _, _|].
  assert (mkTicket "5-a.md" "/repo/tickets/fix/5-a.md" "fix" 5
          ∈ attempted (fst (@main Sample.host Sample.world
                              ["--stages"; "fix,implement"; "--min-priority"; "4"]
                              Sample.repo_tree))) as Hatt.
  { vm_compute. apply list_elem_of_here. }
  eexists. split; [exact Hatt|].
  destruct (@attempted_tickets_were_eligible Sample.host Sample.world
              ["--stages"; "fix,implement"; "--min-priority"; "4"] Sample.repo_tree
              _ _ _ eq_refl Hatt) as (sel & _ & _ & _ & _ & Hmd & _).
  exact Hmd.
Defined.

(* ------------------------------------------------------------------ *)
(** ** Arguments the switch has no case for *)

Lemma parse_loop_skips (opts : Opts.t) (x : string) (rest : list string) :
  x ∉ option_names → parse_loop opts (x :: rest) = parse_loop opts rest.
Proof.
  unfold option_names. rewrite !not_elem_of_cons.
  intros (H1 & H2 & H3 & H4 & H5 & _). cbn [parse_loop].
  by rewrite !(proj2 (String.eqb_neq _ _)).
Qed.

(** X17.  An argument that is none of the five options, standing where
    an option is expected, is skipped without a message: the command line
    means the same with and without it. *)
Theorem unknown_arguments_are_ignored (pre post : list string) (x : string)
    (reached : Opts.t) :
  (∀ l, parse_loop Opts.initial (pre ++ l) = parse_loop reached l) →
  x ∉ option_names →
  parseArgs (pre ++ x :: post) = parseArgs (pre ++ post).
Proof.
  intros Hpre Hx. unfold parseArgs. by rewrite !Hpre, parse_loop_skips.
Qed.

Lemma unknown_arguments_are_ignored_witness :
  (∀ l, parse_loop Opts.initial (["--agent"; "cursor"] ++ l)
        = parse_loop (Opts.set_agent (Some "cursor") Opts.initial) l)
  ∧ ("--dryrun" ∉ option_names)
  ∧ parseArgs (["--agent"; "cursor"] ++ ["--dryrun"; "--stages"; "fix"])
    = parseArgs (["--agent"; "cursor"] ++ ["--stages"; "fix"]).
Proof.
  assert ("--dryrun" ∉ option_names) as Hx.
  { unfold option_names. rewrite !not_elem_of_cons. repeat split; try discriminate.
    apply not_elem_of_nil. }
  split; [done|]. split; [exact Hx|].
  exact (unknown_arguments_are_ignored ["--agent"; "cursor"] ["--stages"; "fix"]
           "--dryrun" (Opts.set_agent (Some "cursor") Opts.initial)
           (fun l => eq_refl) Hx).
Defined.

(* ------------------------------------------------------------------ *)
(** ** The priority prefix and the threshold *)

Lemma span_digits_split (s d t : string) :
  Js.span_digits s = (d, t) → s = d +:+ t ∧ all_digits d = true.
Proof.
  revert d t. induction s as [|a s IH]; intros d t; cbn [Js.span_digits].
  - by intros [= <- <-].
  - destruct (Js.is_digit a) eqn:Ha; [|by intros [= <- <-]].
    destruct (Js.span_digits s) as [d' t'] eqn:Hs. intros [= <- <-].
    destruct (IH d' t' eq_refl) as [-> Hd]. split; [by rewrite append_cons|].
    cbn [all_digits]. by rewrite Ha.
Qed.

Lemma span_digits_app (d t : string) :
  all_digits d = true →
  (∀ c r, t = String c r → Js.is_digit c = false) →
  Js.span_digits (d +:+ t) = (d, t).
Proof.
  intros Hd Ht. induction d as [|a d IH].
  - change (EmptyString +:+ t) with t. destruct t as [|c r]; [done|].
    cbn [Js.span_digits]. by rewrite (Ht c r eq_refl).
  - cbn [all_digits] in Hd. apply andb_prop in Hd as [Ha Hd].
    rewrite append_cons. cbn [Js.span_digits]. by rewrite Ha, IH.
Qed.

(** The pattern matches the names that begin with one or more digits and
    a dash, and captures the digits. *)
Lemma PRIORITY_PREFIX_exec_Some (e digits : string) :
  PRIORITY_PREFIX_exec e = Some digits ↔
  digits ≠ EmptyString ∧ all_digits digits = true
  ∧ ∃ rest, e = digits +:+ "-" +:+ rest.
Proof.
  unfold PRIORITY_PREFIX_exec. split.
  - destruct (Js.span_digits e) as [d t] eqn:Hspan.
    destruct d as [|c d]; [done|]. destruct t as [|dash t]; [done|].
    destruct (Ascii.eqb_spec dash "-") as [->|];
      [|by destruct dash as [[] [] [] [] [] [] [] []]].
    intros [= <-]. apply span_digits_split in Hspan as [-> Hall].
    split; [done|]. split; [done|]. by exists t.
  - intros (Hne & Hall & rest & ->).
    rewrite (span_digits_app digits ("-" +:+ rest) Hall).
    + by destruct digits.
    + by intros c r [= <- _].
Qed.

Lemma drop_slashes_none (l : list ascii) :
  Forall (λ c, Ascii.eqb c "/" = false) l → Path.drop_slashes l = l.
Proof.
  destruct l as [|c r]; [done|]. intros [Hc _]%Forall_cons.
  by destruct c as [[] [] [] [] [] [] [] []].
Qed.

Lemma until_slash_none (l : list ascii) :
  Forall (λ c, Ascii.eqb c "/" = false) l → Path.until_slash l = l.
Proof.
  induction 1 as [|c r Hc _ IH]; [done|]. cbn [Path.until_slash]. by rewrite Hc, IH.
Qed.

Lemma includes_none (c : ascii) (s : string) :
  Js.includes c s = false →
  Forall (λ d, Ascii.eqb d c = false) (list_ascii_of_string s).
Proof.
  induction s as [|d r IH]; cbn [Js.includes list_ascii_of_string]; [by constructor|].
  intros [Hd Hr]%orb_false_elim. constructor; [done|by apply IH].
Qed.

(** A name without a slash is its own base name. *)
Lemma basename_of_name (e : string) : Js.includes "/" e = false → Path.basename e = e.
Proof.
  intros He%includes_none. unfold Path.basename.
  assert (Forall (λ c, Ascii.eqb c "/" = false) (rev (list_ascii_of_string e))) as Hrev.
  { rewrite Forall_forall in *. intros c Hc. apply He.
    apply list_elem_of_In, in_rev, list_elem_of_In. exact Hc. }
  rewrite (drop_slashes_none _ Hrev), (until_slash_none _ Hrev), rev_involutive.
  apply string_of_list_ascii_of_string.
Qed.

Lemma parsePriority_of_name (digits rest : string) :
  digits ≠ EmptyString → all_digits digits = true →
  Js.includes "/" (digits +:+ "-" +:+ rest) = false →
  parsePriority (digits +:+ "-" +:+ rest) = Js.decimal digits.
Proof.
  intros Hne Hall Hname. unfold parsePriority. rewrite (basename_of_name _ Hname).
  assert (PRIORITY_PREFIX_exec (digits +:+ "-" +:+ rest) = Some digits) as ->; [|done].
  apply PRIORITY_PREFIX_exec_Some. split; [done|]. split; [done|]. by exists rest.
Qed.

Lemma substring_split (k : nat) (s : string) :
  (k ≤ String.length s)%nat →
  s = substring 0 k s +:+ substring k (String.length s - k) s.
Proof.
  revert k. induction s as [|c s IH]; intros k Hk.
  - cbn in Hk. by replace k with 0%nat by lia.
  - destruct k as [|k].
    + rewrite Nat.sub_0_r, substring_whole. reflexivity.
    + cbn [String.length] in *. cbn [substring Nat.sub]. rewrite append_cons.
      f_equal. apply IH. lia.
Qed.

(** [endsWith] holds of the strings that are some text followed by the
    suffix. *)
Lemma endsWith_iff (s suffix : string) :
  Js.endsWith s suffix = true ↔ ∃ base, s = base +:+ suffix.
Proof.
  split; [|intros [base ->]; apply endsWith_append].
  unfold Js.endsWith. intros [Hlen Heq]%andb_prop.
  apply Nat.leb_le in Hlen. apply String.eqb_eq in Heq.
  exists (substring 0 (String.length s - String.length suffix) s).
  pose proof (substring_split (String.length s - String.length suffix) s
                ltac:(lia)) as Hsplit.
  replace (String.length s - (String.length s - String.length suffix))%nat
    with (String.length suffix) in Hsplit by lia.
  by rewrite Heq in Hsplit.
Qed.

(** C4.  For every tickets tree, stage and threshold [N], a directory entry
    [e] becomes a ticket exactly when it is listed in the stage directory,
    ends in [.md], matches the priority prefix and has a parsed priority of
    at least [N]; the ticket then carries that parsed priority.  An entry
    that does not match the prefix is never a ticket, whatever the
    threshold, and an entry whose parsed priority is below [N] is not a
    ticket for [N].  The prefix is matched by the names that begin with
    one or more decimal digits followed by a dash, and by no other; the
    extension is that of the names that end in [.md]; the parsed priority
    of a matching name (a name has no slash) is the decimal value of its
    digits.  So a listed name [<digits>-<rest>] that ends in [.md] is a
    ticket for the threshold [N] exactly when [N] is at most the value of
    the digits, which is then its priority. *)
Theorem discover_included_iff (fs : FS) (dir stg : string) (N : Z) (e : string) :
  ((∃ t, t ∈ discoverTickets fs dir stg (Js.Num N) ∧ file t = e) ↔
     e ∈ readdir fs (Path.join dir stg)
     ∧ Js.endsWith e ".md" = true
     ∧ PRIORITY_PREFIX_test e = true
     ∧ N ≤ parsePriority e)
  ∧ (∀ t, t ∈ discoverTickets fs dir stg (Js.Num N) →
          priority t = parsePriority (file t) ∧ stage t = stg)
  ∧ (PRIORITY_PREFIX_test e = false →
       ∀ m t, t ∈ discoverTickets fs dir stg m → file t ≠ e)
  ∧ (parsePriority e < N →
       ∀ t, t ∈ discoverTickets fs dir stg (Js.Num N) → file t ≠ e)
  ∧ (PRIORITY_PREFIX_test e = true ↔
       ∃ digits rest,
         e = digits +:+ "-" +:+ rest
         ∧ digits ≠ EmptyString ∧ all_digits digits = true)
  ∧ (Js.endsWith e ".md" = true ↔ ∃ base, e = base +:+ ".md")
  ∧ (∀ digits rest,
       e = digits +:+ "-" +:+ rest →
       digits ≠ EmptyString → all_digits digits = true →
       Js.includes "/" e = false →
       parsePriority e = Js.decimal digits
       ∧ (e ∈ readdir fs (Path.join dir stg) → Js.endsWith e ".md" = true →
          (N ≤ Js.decimal digits ↔
             ∃ t, t ∈ discoverTickets fs dir stg (Js.Num N)
                  ∧ file t = e ∧ priority t = Js.decimal digits))).
Proof.
  assert (∀ m t, t ∈ discoverTickets fs dir stg m →
            file t ∈ readdir fs (Path.join dir stg)
            ∧ Js.endsWith (file t) ".md" = true
            ∧ PRIORITY_PREFIX_test (file t) = true
            ∧ Js.lt (Js.Num (parsePriority (file t))) m = false
            ∧ priority t = parsePriority (file t) ∧ stage t = stg) as Hin.
  { intros m t. rewrite elem_of_discoverTickets, elem_of_stage_candidates.
    intros (e' & He' & (? & ? & ? & ->)%discover_entry_Some). done. }
  assert ((e ∈ readdir fs (Path.join dir stg)
           ∧ Js.endsWith e ".md" = true
           ∧ PRIORITY_PREFIX_test e = true
           ∧ N ≤ parsePriority e) →
          mkTicket e (Path.join (Path.join dir stg) e) stg (parsePriority e)
          ∈ discoverTickets fs dir stg (Js.Num N)) as Hmake.
  { intros (He & Hmd & Hpre & HN).
    rewrite elem_of_discoverTickets, elem_of_stage_candidates.
    exists e. split; [done|]. apply discover_entry_Some.
    repeat split; try done. simpl. lia. }
  assert (PRIORITY_PREFIX_test e = true ↔
            ∃ digits rest,
              e = digits +:+ "-" +:+ rest
              ∧ digits ≠ EmptyString ∧ all_digits digits = true) as Hprefix.
  { unfold PRIORITY_PREFIX_test. split.
    - destruct (PRIORITY_PREFIX_exec e) as [digits|] eqn:Hexec; [|done]. intros _.
      apply PRIORITY_PREFIX_exec_Some in Hexec as (Hne & Hall & rest & ->).
      by exists digits, rest.
    - intros (digits & rest & -> & Hne & Hall).
      assert (PRIORITY_PREFIX_exec (digits +:+ "-" +:+ rest) = Some digits) as ->; [|done].
      apply PRIORITY_PREFIX_exec_Some. split; [done|]. split; [done|]. by exists rest. }
  split; [split|split; [|split; [|split; [|split; [|split]]]]].
  - intros (t & Ht & Hfile). subst e.
    apply Hin in Ht as (?&?&?&Hlt&?). simpl in Hlt. repeat split; try done. lia.
  - intros Hall. eexists. split; [by apply Hmake|done].
  - intros t (?&?&?&?&?&?)%Hin. done.
  - intros Hno m t (?&?&Hyes&?)%Hin Hfile. subst e. congruence.
  - intros Hlow t (?&?&?&Hlt&?)%Hin Hfile. subst e. simpl in Hlt. lia.
  - exact Hprefix.
  - apply endsWith_iff.
  - intros digits rest He Hne Hall Hname.
    assert (parsePriority e = Js.decimal digits) as Hprio
      by (subst e; by apply parsePriority_of_name).
    split; [exact Hprio|]. intros Hlisted Hmd. split.
    + intros HN. eexists. split; [apply Hmake|by cbn].
      repeat split; try done; [|lia]. apply Hprefix. by exists digits, rest.
    + intros (t & Ht & Hfile & Hp).
      apply Hin in Ht as (_&_&_&Hlt&_). rewrite Hfile, Hprio in Hlt.
      simpl in Hlt. lia.
Qed.

Lemma discover_included_iff_witness :
  (∃ t, t ∈ discoverTickets Sample.tree_mixed "tickets" "fix" (Js.Num 3)
        ∧ file t = "12-big.md" ∧ priority t = 12)
  ∧ (∀ t, t ∈ discoverTickets Sample.tree_mixed "tickets" "fix" (Js.Num 3) →
          file t ≠ "1-low.md")
  ∧ (∀ m t, t ∈ discoverTickets Sample.tree_mixed "tickets" "fix" m →
            file t ≠ "x-9.md")
  ∧ map file (discoverTickets Sample.tree_mixed "tickets" "fix" (Js.Num 3))
    = ["12-big.md"; "3-c.md"].
Proof.
  split; [|split; [|split; [|reflexivity]]].
  - destruct (discover_included_iff Sample.tree_mixed "tickets" "fix" 3 "12-big.md")
      as (_ & _ & _ & _ & _ & _ & Hplain).
    destruct (Hplain "12" "big.md" eq_refl ltac:(discriminate) eq_refl eq_refl)
      as [_ Hticket].
    apply Hticket; [|reflexivity|by vm_compute].
    change (readdir Sample.tree_mixed (Path.join "tickets" "fix"))
      with ["3-c.md"; "notes.md"; "7-x.txt"; "12-big.md"; "x-9.md"; "1-low.md"; "-4.md"].
    do 3 apply list_elem_of_further. apply list_elem_of_here.
  - destruct (discover_included_iff Sample.tree_mixed "tickets" "fix" 3 "1-low.md")
      as (_ & _ & _ & Hlow & _).
    apply Hlow. by vm_compute.
  - destruct (discover_included_iff Sample.tree_mixed "tickets" "fix" 3 "x-9.md")
      as (_ & _ & Hno & _).
    apply Hno. reflexivity.
Defined.

(* ------------------------------------------------------------------ *)
(** ** The grace timer *)

Lemma lines_seen_prefix `{HostOps : Host} (a b : list Sup.event) :
  ∀ held l, l ∈ lines_seen held a → l ∈ lines_seen held (a ++ b).
Proof.
  induction a as [|e a IH]; intros held l; [by intros ?%elem_of_nil|].
  cbn [app lines_seen]. rewrite !elem_of_app. intros [Hl|Hl]; [by left|].
  right. by apply IH.
Qed.

Section GraceTimer.
Context `{HostOps : Host} (fmt : option (string → StreamEvent)).

Lemma process_lines_quiet (now : Z) (lines : list string) (s : Sup.state) :
  (∀ l, l ∈ lines → reports_done fmt l = false) →
  let s' := fold_left (λ st line, Sup.processLine fmt now line st) lines s in
  Sup.resultExitCode s' = Sup.resultExitCode s
  ∧ Sup.idleTimer s' = Sup.idleTimer s
  ∧ Sup.buf s' = Sup.buf s ∧ Sup.settled s' = Sup.settled s
  ∧ Sup.promise s' = Sup.promise s ∧ Sup.kills s' = Sup.kills s.
Proof.
  revert s. induction lines as [|l lines IH]; intros s Hq; [done|].
  cbn [fold_left].
  destruct (IH (Sup.processLine fmt now l s)) as (->&->&->&->&->&->).
  { intros l' Hl'. apply Hq. by right. }
  apply processLine_not_done, Hq. by left.
Qed.

(** An event whose lines report no result leaves the latch as it is; the
    buffer holds afterwards what [lines_of] says. *)
Lemma step_quiet (e : Sup.event) (s : Sup.state) :
  (∀ l, l ∈ fst (lines_of (Sup.buf s) e) → reports_done fmt l = false) →
  Sup.resultExitCode (Sup.step fmt s e) = Sup.resultExitCode s
  ∧ Sup.buf (Sup.step fmt s e) = snd (lines_of (Sup.buf s) e).
Proof.
  destruct e as [now chunk|now chunk|now|now code|now]; cbn [Sup.step lines_of fst snd].
  - intros Hq. unfold Sup.on_stdout.
    set (s0 := match Sup.resultExitCode s with
               | None => Sup.resetIdleTimer now s
               | Some _ => s
               end).
    assert (Sup.buf s0 = Sup.buf s ∧ Sup.resultExitCode s0 = Sup.resultExitCode s)
      as [Hb Hr]
      by (subst s0; destruct (Sup.resultExitCode s) eqn:Hrs; cbn; by rewrite ?Hrs).
    rewrite Hb.
    set (lines := Js.split LF (Sup.buf s +:+ Buffer_toString chunk)) in *.
    by destruct (process_lines_quiet now (removelast lines)
                   (Sup.set_buf (List.last lines EmptyString) s0) Hq)
      as (-> & _ & -> & _).
  - intros _. unfold Sup.on_stderr.
    destruct (Sup.resultExitCode s) eqn:Hrs; cbn; by rewrite ?Hrs.
  - intros _. unfold Sup.on_timer. destruct (Sup.idleTimer s) as [[kind due]|]; [|done].
    by destruct (due <=? now).
  - intros Hq. unfold Sup.on_close.
    set (s1 := if String.eqb (Sup.buf s) EmptyString then s else _).
    assert (Sup.resultExitCode s1 = Sup.resultExitCode s ∧ Sup.buf s1 = Sup.buf s)
      as [Hr Hb].
    { subst s1. destruct (String.eqb (Sup.buf s) EmptyString); [done|].
      destruct (processLine_not_done fmt now (Js.trimEnd (Sup.buf s)) s)
        as (-> & _ & -> & _); [|done].
      apply Hq. by left. }
    unfold Sup.settle. by destruct (Sup.settled s1).
  - done.
Qed.

(** As long as no line reports a result, the latch keeps its value. *)
Lemma run_quiet (events : list Sup.event) :
  ∀ s, (∀ l, l ∈ lines_seen (Sup.buf s) events → reports_done fmt l = false) →
       Sup.resultExitCode (Sup.run fmt s events) = Sup.resultExitCode s.
Proof.
  induction events as [|e events IH]; intros s Hq; [done|].
  cbn [Sup.run fold_left]. fold (Sup.run fmt (Sup.step fmt s e) events).
  cbn [lines_seen] in Hq.
  destruct (step_quiet e s) as [Hr Hb].
  { intros l Hl. apply Hq, elem_of_app. by left. }
  rewrite IH, Hr; [done|]. rewrite Hb. intros l Hl. apply Hq, elem_of_app. by right.
Qed.

(** With a result latched, output and timer events that come before the
    pending timeout is due leave that timeout pending and send no kill,
    as long as the process does not close and no line reports a
    result. *)
Lemma run_keeps_timer (events : list Sup.event) :
  ∀ s c kind due,
    Sup.resultExitCode s = Some c → Sup.idleTimer s = Some (kind, due) →
    existsb is_close events = false → timers_before due events = true →
    (∀ l, l ∈ lines_seen (Sup.buf s) events → reports_done fmt l = false) →
    Sup.idleTimer (Sup.run fmt s events) = Some (kind, due)
    ∧ Sup.kills (Sup.run fmt s events) = Sup.kills s.
Proof.
  induction events as [|e events IH]; intros s c kind due Hres Htimer Hopen Hearly Hq;
    [done|].
  cbn [Sup.run fold_left]. fold (Sup.run fmt (Sup.step fmt s e) events).
  cbn [lines_seen] in Hq.
  destruct (step_quiet e s) as [Hr Hb].
  { intros l Hl. apply Hq, elem_of_app. by left. }
  cbn [existsb] in Hopen. apply orb_false_elim in Hopen as [He Hopen].
  assert (Sup.idleTimer (Sup.step fmt s e) = Some (kind, due)
          ∧ Sup.kills (Sup.step fmt s e) = Sup.kills s
          ∧ timers_before due events = true) as (Ht & Hk & Hearly').
  { destruct e as [now chunk|now chunk|now|now code|now];
      cbn [Sup.step timers_before lines_of fst] in *; try done.
    - unfold Sup.on_stdout. rewrite Hres.
      set (lines := Js.split LF (Sup.buf s +:+ Buffer_toString chunk)) in *.
      by destruct (process_lines_quiet now (removelast lines)
                     (Sup.set_buf (List.last lines EmptyString) s))
        as (_ & -> & _ & _ & _ & ->); [intros l Hl; apply Hq, elem_of_app; by left|].
    - unfold Sup.on_stderr. by rewrite Hres.
    - apply andb_prop in Hearly as [Hnow Hearly]. apply Z.ltb_lt in Hnow.
      unfold Sup.on_timer. rewrite Htimer.
      by destruct (Z.leb_spec due now); [lia|]. }
  destruct (IH (Sup.step fmt s e) c kind due) as [-> ->]; try done.
  - by rewrite Hr.
  - rewrite Hb. intros l Hl. apply Hq, elem_of_app. by right.
Qed.

(** Without a close the promise is not resolved. *)
Lemma run_without_close (events : list Sup.event) :
  ∀ s, (∀ c, Sup.promise s ≠ Some (Resolved c)) →
       existsb is_close events = false →
       ∀ c, Sup.promise (Sup.run fmt s events) ≠ Some (Resolved c).
Proof.
  induction events as [|e events IH]; intros s Hp Hopen; [done|].
  cbn [Sup.run fold_left]. fold (Sup.run fmt (Sup.step fmt s e) events).
  cbn [existsb] in Hopen. apply orb_false_elim in Hopen as [He Hopen].
  apply IH; [|done].
  destruct e as [now chunk|now chunk|now|now code|now]; cbn [Sup.step is_close] in *;
    try done.
  - unfold Sup.on_stdout.
    set (s0 := match Sup.resultExitCode s with
               | None => Sup.resetIdleTimer now s
               | Some _ => s
               end).
    assert (Sup.promise s0 = Sup.promise s) as Hp0
      by (subst s0; by destruct (Sup.resultExitCode s)).
    set (lines := Js.split LF (Sup.buf s0 +:+ Buffer_toString chunk)).
    destruct (process_lines_cases fmt now (removelast lines)
                (Sup.set_buf (List.last lines EmptyString) s0)) as (_ & _ & -> & _).
    cbn. by rewrite Hp0.
  - unfold Sup.on_stderr. by destruct (Sup.resultExitCode s).
  - unfold Sup.on_timer. destruct (Sup.idleTimer s) as [[kind due]|]; [|done].
    by destruct (due <=? now).
  - intros c. cbn. destruct (Sup.promise s) as [o|] eqn:Hps; [apply Hp|done].
Qed.

End GraceTimer.

(** C7, two traces and a third.  A Claude agent reports a failed result,
    which latches 1 and starts the grace timer; the timer fires and the
    process is sent the kill.  First trace: before it closes the process
    prints a second result, a successful one; the invocation resolves
    with 0.  Second trace: the successful result had been printed right
    after the failed one without a line end and is flushed at close; the
    invocation resolves with 0.  Third trace: the process ignores the
    signal and does not close; the invocation does not resolve. *)
Lemma grace_kill_resolves_with_later_result :
  let fmt := Some (@formatClaudeJsonLine Sample.host) in
  let failed := Sample.result_line true in
  let fine := Sample.result_line false in
  done (@formatClaudeJsonLine Sample.host failed) = true
  ∧ exitCode (@formatClaudeJsonLine Sample.host failed) = Some 1
  ∧ (let s1 := Sup.supervise (HostOps := Sample.host) fmt 0
                 [Sup.StdoutData 1000 (failed +:+ newline)] in
     Sup.resultExitCode s1 = Some 1
     ∧ Sup.idleTimer s1 = Some (Sup.Grace, 31000)
     ∧ Sup.kills (Sup.on_timer 31000 s1) = 1%nat
     ∧ Sup.promise
         (Sup.run (HostOps := Sample.host) fmt (Sup.on_timer 31000 s1)
            [Sup.StdoutData 31200 (fine +:+ newline); Sup.Close 31500 None])
       = Some (Resolved 0))
  ∧ (let s1 := Sup.supervise (HostOps := Sample.host) fmt 0
                 [Sup.StdoutData 1000 (failed +:+ newline +:+ fine)] in
     Sup.resultExitCode s1 = Some 1
     ∧ Sup.idleTimer s1 = Some (Sup.Grace, 31000)
     ∧ Sup.kills (Sup.on_timer 31000 s1) = 1%nat
     ∧ Sup.promise
         (Sup.run (HostOps := Sample.host) fmt (Sup.on_timer 31000 s1)
            [Sup.Close 31500 None])
       = Some (Resolved 0))
  ∧ (let s1 := Sup.supervise (HostOps := Sample.host) fmt 0
                 [Sup.StdoutData 1000 (failed +:+ newline)] in
     Sup.kills (Sup.on_timer 31000 s1) = 1%nat
     ∧ Sup.promise
         (Sup.run (HostOps := Sample.host) fmt (Sup.on_timer 31000 s1)
            [Sup.StderrData 40000 "still here"; Sup.TimerDue 700000])
       = None).
Proof. vm_compute. repeat split. Qed.

(** C7, as the code has it.  Whenever the normalizer reports [done] with
    a code [E] (0 when it names none), [E] is latched and the pending
    timeout is replaced by one that is due 30 seconds later.  Output that
    reports no further result does not postpone it: if the process has
    not closed by then, the timeout fires and the process is sent a kill.
    When the process closes, killed or not, having not closed before and
    no spawn error having been reported, the invocation resolves with [E]
    whatever code the process reports, provided no line handled since, the
    held line flushed at close included, reports a result (the latest
    result is the one latched).  As long as the process does not close,
    the invocation does not resolve. *)
Theorem grace_kill_keeps_latched_code `{HostOps : Host}
    (f : string → StreamEvent) (line : string) (now : Z) (s : Sup.state) :
  done (f line) = true →
  let E := Js.nullish (exitCode (f line)) 0 in
  let s1 := Sup.processLine (Some f) now line s in
  Sup.GRACE_MS = 30000
  ∧ Sup.resultExitCode s1 = Some E
  ∧ Sup.idleTimer s1 = Some (Sup.Grace, now + Sup.GRACE_MS)
  ∧ (∀ mid now1,
       existsb is_close mid = false →
       timers_before (now + Sup.GRACE_MS) mid = true →
       (∀ l, l ∈ lines_seen (Sup.buf s) mid → done (f l) = false) →
       now + Sup.GRACE_MS ≤ now1 →
       Sup.kills (Sup.run (Some f) s1 (mid ++ [Sup.TimerDue now1])) = S (Sup.kills s1))
  ∧ (∀ events now2 code,
       Sup.settled (Sup.run (Some f) s1 events) = false →
       Sup.promise (Sup.run (Some f) s1 events) = None →
       (∀ l, l ∈ lines_seen (Sup.buf s) (events ++ [Sup.Close now2 code]) →
             done (f l) = false) →
       Sup.promise (Sup.run (Some f) s1 (events ++ [Sup.Close now2 code]))
       = Some (Resolved E))
  ∧ (∀ events,
       Sup.promise s = None → existsb is_close events = false →
       ∀ c, Sup.promise (Sup.run (Some f) s1 events) ≠ Some (Resolved c)).
Proof.
  intros Hd E s1.
  destruct (processLine_done (Some f) f now line s eq_refl Hd) as (Hr&Ht&Hb&Hs&Hp&Hk).
  fold s1 in Hr, Ht, Hb, Hs, Hp, Hk. fold E in Hr.
  change (now + 30000) with (now + Sup.GRACE_MS) in Ht.
  split; [reflexivity|]. split; [exact Hr|]. split; [exact Ht|]. split; [|split].
  - intros mid now1 Hopen Hearly Hq Hdue.
    rewrite run_app. cbn [Sup.run fold_left Sup.step].
    destruct (run_keeps_timer (Some f) mid s1 E Sup.Grace (now + Sup.GRACE_MS))
      as [Ht' Hk']; try done.
    { by rewrite Hb. }
    unfold Sup.on_timer. rewrite Ht'.
    destruct (Z.leb_spec (now + Sup.GRACE_MS) now1) as [_|?]; [|lia].
    cbn [Sup.kills Sup.kill Sup.write Sup.set_timer]. by rewrite Hk'.
  - intros events now2 code Hs' Hp' Hq.
    assert (∀ l, l ∈ lines_seen (Sup.buf s1) (events ++ [Sup.Close now2 code]) →
                 reports_done (Some f) l = false) as Hq'.
    { rewrite Hb. exact Hq. }
    rewrite run_app. cbn [Sup.run fold_left Sup.step].
    destruct (on_close_resolves (Some f) now2 code _ Hs' Hp') as [-> _].
    do 2 f_equal.
    change (Sup.on_close (Some f) now2 code (Sup.run (Some f) s1 events))
      with (Sup.run (Some f) (Sup.run (Some f) s1 events) [Sup.Close now2 code]).
    rewrite <- run_app, (run_quiet (Some f) _ s1 Hq'), Hr. done.
  - intros events Hnone Hopen. apply run_without_close; [|done].
    intros c. by rewrite Hp, Hnone.
Qed.

Lemma grace_kill_keeps_latched_code_witness :
  done (@formatClaudeJsonLine Sample.host (Sample.result_line true)) = true
  ∧ Sup.kills
      (Sup.run (HostOps := Sample.host) (Some (@formatClaudeJsonLine Sample.host))
         (Sup.processLine (Some (@formatClaudeJsonLine Sample.host)) 1000
            (Sample.result_line true) (Sup.init 0))
         ([Sup.StderrData 5000 "bye"] ++ [Sup.TimerDue 31000])) = 1%nat
  ∧ Sup.promise
      (Sup.run (HostOps := Sample.host) (Some (@formatClaudeJsonLine Sample.host))
         (Sup.processLine (Some (@formatClaudeJsonLine Sample.host)) 1000
            (Sample.result_line true) (Sup.init 0))
         ([Sup.StderrData 5000 "bye"; Sup.TimerDue 31000;
           Sup.StdoutData 31200 ("late text" +:+ newline)]
            ++ [Sup.Close 31500 None]))
    = Some (Resolved 1).
Proof.
  assert (done (@formatClaudeJsonLine Sample.host (Sample.result_line true)) = true)
    as Hd by reflexivity.
  split; [exact Hd|].
  destruct (grace_kill_keeps_latched_code (HostOps := Sample.host)
              (@formatClaudeJsonLine Sample.host) _ 1000 (Sup.init 0) Hd)
    as (_ & _ & _ & Hfire & Hclose & _).
  split.
  - apply (Hfire [Sup.StderrData 5000 "bye"] 31000 eq_refl eq_refl);
      [|by vm_compute].
    intros l Hl. change (l ∈ @nil string) in Hl. by apply elem_of_nil in Hl.
  - apply (Hclose [Sup.StderrData 5000 "bye"; Sup.TimerDue 31000;
                   Sup.StdoutData 31200 ("late text" +:+ newline)] 31500 None
             eq_refl eq_refl).
    intros l Hl.
    change (l ∈ ["late text"]) in Hl. apply list_elem_of_singleton in Hl as ->.
    reflexivity.
Defined.
